(** * NewSync lyrics engine: caching, request coalescing and the
      romanization validate/repair loop

    A shallow embedding of the background services of the extension
    (the Gemini romanizer with its response validator, the lyrics service
    and the translation service) together with the properties of the
    design document that concern them.

    Conventions of the embedding.
    - A JavaScript string is the list of its UTF-16 code units.
    - A value produced by [JSON.parse] is a [JValue]; property reads that
      find nothing give [JUndefined]; reading a property of [null] or
      [undefined] raises a [TypeError].
    - A function that can throw returns a [Result].
    - [Utilities.*] and [CONFIG.*] live in modules that are not among
      the sources; the functions using them take them as section
      variables.  The memory cache and the in-flight registry of
      [state.js] are maps, as the design document describes them.
    - An [async] function is a task that runs on the shared state from
      one [await] to the next; tasks interleave at their [await]s. *)

From Stdlib Require Import Ascii QArith Qcanon.
From stdpp Require Import base numbers list gmap strings pretty.

Set Default Proof Using "Type".
Set Warnings "-register-all".
Close Scope Q_scope.
Close Scope Qc_scope.
Open Scope nat_scope.

(* ================================================================== *)
(** ** JavaScript strings *)
(* ================================================================== *)

Abbreviation jsstring := (list N).

(** Code units of an ASCII literal. *)
Fixpoint u (s : string) : jsstring :=
  match s with
  | EmptyString => []
  | String c r => N_of_ascii c :: u r
  end.

(** Decimal rendering of a non-negative integer, as [`${n}`] does. *)
Definition dec (n : nat) : jsstring := u (pretty n).

(** WhiteSpace and LineTerminator code points, the ones
    [String.prototype.trim] removes. *)
Definition is_js_space (c : N) : bool :=
  bool_decide (c ∈ [9; 10; 11; 12; 13; 32; 160; 5760; 8232; 8233; 8239;
                    8287; 12288; 65279]%N)
  || ((8192 <=? c)%N && (c <=? 8202)%N).

Fixpoint trim_start (s : jsstring) : jsstring :=
  match s with
  | c :: r => if is_js_space c then trim_start r else s
  | [] => []
  end.

Definition trim (s : jsstring) : jsstring :=
  reverse (trim_start (reverse (trim_start s))).

(* ================================================================== *)
(** ** Exceptions *)
(* ================================================================== *)

Inductive JsError :=
| TypeError (message : jsstring)
| SyntaxError (message : jsstring)
| Error (message : jsstring).

Definition error_message (e : JsError) : jsstring :=
  match e with
  | TypeError m | SyntaxError m | Error m => m
  end.

Inductive Result (A : Type) :=
| Ok (a : A)
| Throw (e : JsError).
Arguments Ok {A} a.
Arguments Throw {A} e.

#[global] Instance Result_ret : MRet Result := @Ok.
#[global] Instance Result_bind : MBind Result := λ A B f m,
  match m with
  | Ok a => f a
  | Throw e => Throw e
  end.

(** [forEach] with a body that may throw: the loop stops at the first
    exception.  The body receives the element and its index. *)
Fixpoint forEach_from {A St} (body : St → A → nat → Result St)
    (i : nat) (l : list A) (s : St) : Result St :=
  match l with
  | [] => Ok s
  | x :: r => s' ← body s x i; forEach_from body (S i) r s'
  end.

Definition forEach {A St} (body : St → A → nat → Result St)
    (l : list A) (s : St) : Result St :=
  forEach_from body 0 l s.

(* ================================================================== *)
(** ** Values read from a transformer response *)
(* ================================================================== *)

Inductive JValue :=
| JUndefined
| JNull
| JBool (b : bool)
| JNum (q : Qc)
| JStr (s : jsstring)
| JArr (elements : list JValue)
| JObj (fields : list (jsstring * JValue)).

Definition JNat (n : nat) : JValue := JNum (Qc_of_Z (Z.of_nat n)).

(** ToBoolean. *)
Definition truthy (v : JValue) : bool :=
  match v with
  | JUndefined | JNull => false
  | JBool b => b
  | JNum q => negb (bool_decide (q = 0%Qc))
  | JStr s => negb (bool_decide (s = []))
  | JArr _ | JObj _ => true
  end.

(** [v === null] *)
Definition is_null (v : JValue) : bool :=
  match v with JNull => true | _ => false end.

Definition isArray (v : JValue) : bool :=
  match v with JArr _ => true | _ => false end.

Definition isString (v : JValue) : bool :=
  match v with JStr _ => true | _ => false end.

(** Own property of an object literal, by name. *)
Fixpoint get_field (fs : list (jsstring * JValue)) (k : jsstring) : JValue :=
  match fs with
  | [] => JUndefined
  | (k', v) :: r => if decide (k' = k) then v else get_field r k
  end.

(** [o[k] = v] on an object: an existing key keeps its place. *)
Fixpoint set_field (fs : list (jsstring * JValue)) (k : jsstring) (v : JValue)
    : list (jsstring * JValue) :=
  match fs with
  | [] => [(k, v)]
  | (k', v') :: r =>
      if decide (k' = k) then (k, v) :: r else (k', v') :: set_field r k v
  end.

(** [v.k] for the data property names the engine reads
    ([romanized_lyrics], [fixed_lines], [original_line_index], [text],
    [chunk]): none of them is a built-in property of an array, a string, a
    number or a boolean, so only object literals can answer. *)
Definition prop (v : JValue) (k : jsstring) : Result JValue :=
  match v with
  | JUndefined | JNull =>
      Throw (TypeError (u "Cannot read properties of null or undefined"))
  | JObj fs => Ok (get_field fs k)
  | _ => Ok JUndefined
  end.

(** [x === n] for a loop index [n]. *)
Definition strict_eq_nat (v : JValue) (n : nat) : bool :=
  match v with
  | JNum q => bool_decide (q = Qc_of_Z (Z.of_nat n))
  | _ => false
  end.

(* ================================================================== *)
(** ** Structured lyrics (types.d.ts) *)
(* ================================================================== *)

(** [StructuredLyricsChunk]. *)
Record Chunk := {
  chunk_text : jsstring;
  chunkIndex : option nat
}.

(** [StructuredLyricsLine], as [GeminiService.prepareStructuredInput]
    builds it: [{ original_line_index, text, chunk? }]. *)
Record Line := {
  text : jsstring;
  original_line_index : option nat;
  chunk : option (list Chunk)
}.

(** [line.chunk && line.chunk.length > 0]. *)
Definition has_chunks (l : Line) : bool :=
  match chunk l with
  | Some (_ :: _) => true
  | _ => false
  end.

(** The object a chunk denotes, [{ text, chunkIndex }]. *)
Definition chunk_obj (c : Chunk) : JValue :=
  JObj ((u "text", JStr (chunk_text c)) ::
        match chunkIndex c with
        | Some i => [(u "chunkIndex", JNat i)]
        | None => []
        end).

(* ------------------------------------------------------------------ *)
(** *** [JSON.stringify] on the content of a line *)

Definition hex_digit (n : N) : N :=
  if (n <? 10)%N then (48 + n)%N else (87 + n)%N.

(** The six-unit escape [\uXXXX]. *)
Definition unicode_escape (c : N) : jsstring :=
  [92; 117; hex_digit (c / 4096 mod 16); hex_digit (c / 256 mod 16);
   hex_digit (c / 16 mod 16); hex_digit (c mod 16)]%N.

Definition is_high_surrogate (c : N) : bool := (55296 <=? c)%N && (c <=? 56319)%N.
Definition is_low_surrogate (c : N) : bool := (56320 <=? c)%N && (c <=? 57343)%N.

(** One code unit that is not part of a surrogate pair. *)
Definition quote_unit (c : N) : jsstring :=
  if decide (c = 8%N) then u "\b"
  else if decide (c = 9%N) then u "\t"
  else if decide (c = 10%N) then u "\n"
  else if decide (c = 12%N) then u "\f"
  else if decide (c = 13%N) then u "\r"
  else if decide (c = 34%N) then [92; 34]%N
  else if decide (c = 92%N) then [92; 92]%N
  else if (c <? 32)%N || is_high_surrogate c || is_low_surrogate c
       then unicode_escape c
  else [c].

Fixpoint quote_units (s : jsstring) : jsstring :=
  match s with
  | [] => []
  | c :: r =>
      if is_high_surrogate c then
        match r with
        | d :: r' =>
            if is_low_surrogate d then c :: d :: quote_units r'
            else unicode_escape c ++ quote_units r
        | [] => unicode_escape c
        end
      else quote_unit c ++ quote_units r
  end.

(** QuoteJSONString. *)
Definition quoteJSONString (s : jsstring) : jsstring :=
  [34%N] ++ quote_units s ++ [34%N].

Fixpoint join_with (sep : jsstring) (l : list jsstring) : jsstring :=
  match l with
  | [] => []
  | [x] => x
  | x :: r => x ++ sep ++ join_with sep r
  end.

Definition stringify_chunk (c : Chunk) : jsstring :=
  u "{" ++ quoteJSONString (u "text") ++ u ":" ++ quoteJSONString (chunk_text c)
  ++ match chunkIndex c with
     | Some i => u "," ++ quoteJSONString (u "chunkIndex") ++ u ":" ++ dec i
     | None => []
     end
  ++ u "}".

(** [JSON.stringify({ text: line.text, chunk: line.chunk })]: a property
    whose value is [undefined] is left out. *)
Definition contentKey (line : Line) : jsstring :=
  u "{" ++ quoteJSONString (u "text") ++ u ":" ++ quoteJSONString (text line)
  ++ match chunk line with
     | Some cs =>
         u "," ++ quoteJSONString (u "chunk") ++ u ":["
         ++ join_with (u ",") (stringify_chunk <$> cs) ++ u "]"
     | None => []
     end
  ++ u "}".

(* ================================================================== *)
(** ** JavaScript arrays written by index *)
(* ================================================================== *)

(** [a[i] = x] on an array that may have holes ([None]): writing past the
    end extends the array, leaving holes in between. *)
Definition array_set {A} (a : list (option A)) (i : nat) (x : A)
    : list (option A) :=
  if decide (i < length a) then <[i := Some x]> a
  else a ++ replicate (i - length a) None ++ [Some x].

(** [forEach] with a body that cannot throw. *)
Fixpoint forEach_pure_from {A St} (body : St → A → nat → St)
    (i : nat) (l : list A) (s : St) : St :=
  match l with
  | [] => s
  | x :: r => forEach_pure_from body (S i) r (body s x i)
  end.

Definition forEach_pure {A St} (body : St → A → nat → St)
    (l : list A) (s : St) : St :=
  forEach_pure_from body 0 l s.

(** Own enumerable properties copied by an object spread [{...v}]. *)
Definition spread (v : JValue) : list (jsstring * JValue) :=
  match v with
  | JObj fs => fs
  | JArr l => imap (λ i x, (dec i, x)) l
  | JStr s => imap (λ i c, (dec i, JStr [c])) s
  | _ => []
  end.

(** The object a structured line denotes. *)
Definition line_fields (l : Line) : list (jsstring * JValue) :=
  match original_line_index l with
  | Some i => [(u "original_line_index", JNat i)]
  | None => []
  end
  ++ [(u "text", JStr (text l))]
  ++ match chunk l with
     | Some cs => [(u "chunk", JArr (chunk_obj <$> cs))]
     | None => []
     end.

(* ================================================================== *)
(** ** GeminiRomanizer: preparation and reconstruction *)
(* ================================================================== *)

Inductive ReconstructionPlanItem :=
| latin (data : Line) (originalIndex : nat)
| api (apiIndex : nat) (originalIndex : nat).

Definition originalIndex (p : ReconstructionPlanItem) : nat :=
  match p with
  | latin _ i | api _ i => i
  end.

Record Prepared := {
  lyricsForApi : list Line;
  reconstructionPlan : list ReconstructionPlanItem;
  contentToApiIndexMap : gmap jsstring nat
}.

Section Preparation.

(** [Utilities.isPurelyLatinScript]. *)
Variable isPurelyLatinScript : jsstring → bool.

(** Body of the [forEach] of [prepareLyrics]. *)
Definition prepare_line (st : Prepared) (line : Line) (originalIndex : nat)
    : Prepared :=
  if isPurelyLatinScript (text line) then
    {| lyricsForApi := lyricsForApi st;
       reconstructionPlan :=
         reconstructionPlan st ++ [latin line originalIndex];
       contentToApiIndexMap := contentToApiIndexMap st |}
  else
    match contentToApiIndexMap st !! contentKey line with
    | Some apiIndex =>
        {| lyricsForApi := lyricsForApi st;
           reconstructionPlan :=
             reconstructionPlan st ++ [api apiIndex originalIndex];
           contentToApiIndexMap := contentToApiIndexMap st |}
    | None =>
        let newApiIndex := length (lyricsForApi st) in
        let apiLine :=
          {| text := text line;
             original_line_index := Some newApiIndex;
             chunk := if has_chunks line then chunk line else None |} in
        {| lyricsForApi := lyricsForApi st ++ [apiLine];
           reconstructionPlan :=
             reconstructionPlan st ++ [api newApiIndex originalIndex];
           contentToApiIndexMap :=
             <[contentKey line := newApiIndex]> (contentToApiIndexMap st) |}
    end.

Definition prepareLyrics (structuredInput : list Line) : Prepared :=
  forEach_pure prepare_line structuredInput
    {| lyricsForApi := []; reconstructionPlan := [];
       contentToApiIndexMap := ∅ |}.

End Preparation.

(** The line [reconstructLyrics] builds for one plan item. *)
Definition reconstructedLine (romanizedApiLyrics : list JValue)
    (hasAnyChunks : bool) (planItem : ReconstructionPlanItem) : JValue :=
  match planItem with
  | latin data originalIndex =>
      let fs := set_field (line_fields data) (u "text") (JStr (text data)) in
      let fs := set_field fs (u "chunk")
                  (match chunk data with
                   | Some cs =>
                       if hasAnyChunks then JArr (chunk_obj <$> cs)
                       else JUndefined
                   | None => JUndefined
                   end) in
      JObj (set_field fs (u "original_line_index") (JNat originalIndex))
  | api apiIndex originalIndex =>
      let apiResult := default JUndefined (romanizedApiLyrics !! apiIndex) in
      JObj (set_field (spread apiResult) (u "original_line_index")
              (JNat originalIndex))
  end.

Definition reconstructLyrics (romanizedApiLyrics : list JValue)
    (reconstructionPlan : list ReconstructionPlanItem) (hasAnyChunks : bool)
    : list (option JValue) :=
  foldl (λ fullList planItem,
           array_set fullList (originalIndex planItem)
             (reconstructedLine romanizedApiLyrics hasAnyChunks planItem))
        [] reconstructionPlan.

(* ================================================================== *)
(** ** ResponseValidator *)
(* ================================================================== *)

Record ValidationResult := {
  isValid : bool;
  errors : list jsstring;
  detailedErrors : list (nat * list jsstring)  (* { lineIndex, errors } *)
}.

(** [array.filter] and [array.map] with a callback that may throw. *)
Fixpoint filterM {A} (p : A → Result bool) (l : list A) : Result (list A) :=
  match l with
  | [] => Ok []
  | x :: r =>
      b ← p x; r' ← filterM p r; Ok (if b : bool then x :: r' else r')
  end.

Fixpoint mapM_result {A B} (f : A → Result B) (l : list A) : Result (list B) :=
  match l with
  | [] => Ok []
  | x :: r => y ← f x; r' ← mapM_result f r; Ok (y :: r')
  end.

(** The receiver of [.filter], [.map] or [.forEach] must be an array. *)
Definition as_array (v : JValue) : Result (list JValue) :=
  match v with
  | JArr l => Ok l
  | JUndefined | JNull =>
      Throw (TypeError (u "Cannot read properties of null or undefined"))
  | _ => Throw (TypeError (u "is not a function"))
  end.

(** [t.trim()]: only strings have the method. *)
Definition call_trim (t : JValue) : Result jsstring :=
  match t with
  | JStr s => Ok (trim s)
  | JUndefined | JNull =>
      Throw (TypeError (u "Cannot read properties of null or undefined"))
  | _ => Throw (TypeError (u "trim is not a function"))
  end.

(** [!chunk.text || chunk.text.trim() === ''] *)
Definition is_empty_chunk (c : JValue) : Result bool :=
  t ← prop c (u "text");
  if negb (truthy t) then Ok true
  else s ← call_trim t; Ok (bool_decide (s = [])).

(** [chunk.text && chunk.text.trim() !== ''] *)
Definition is_non_empty_chunk (c : JValue) : Result bool :=
  t ← prop c (u "text");
  if truthy t then s ← call_trim t; Ok (negb (bool_decide (s = [])))
  else Ok false.

Section Validator.

(** [Utilities.normalizeText]: whatever it is given, it returns a string
    or throws. *)
Variable normalizeText : JValue → Result jsstring.
(** [Utilities.levenshteinDistance]. *)
Variable levenshteinDistance : jsstring → jsstring → nat.
(** Number::toString. *)
Variable numberToString : Qc → jsstring.
(** [((distance / maxLength) * 100).toFixed(1)], from [distance] and
    [maxLength]. *)
Variable percentToFixed1 : nat → nat → jsstring.

(** ToString, as a template literal applies it. *)
Fixpoint ToString (v : JValue) : jsstring :=
  match v with
  | JUndefined => u "undefined"
  | JNull => u "null"
  | JBool b => if b then u "true" else u "false"
  | JNum q => numberToString q
  | JStr s => s
  | JArr l =>
      join_with (u ",")
        (map (λ x, match x with
                   | JUndefined | JNull => []
                   | _ => ToString x
                   end) l)
  | JObj _ => u "[object Object]"
  end.

(** [array.join('')] *)
Definition join_empty (l : list JValue) : jsstring :=
  concat (map (λ x, match x with
                    | JUndefined | JNull => []
                    | _ => ToString x
                    end) l).

(** [v || ''] *)
Definition or_empty (v : JValue) : JValue :=
  if truthy v then v else JStr [].

(** [percentageDifference > 20] with
    [percentageDifference = maxLength === 0 ? 0 : (distance / maxLength) * 100].
    The comparison is made on exact rationals; the double-precision
    computation of the source gives the same verdict for strings shorter
    than 2^40 code units. *)
Definition exceeds_20_percent (distance maxLength : nat) : bool :=
  if decide (maxLength = 0) then false
  else bool_decide (20 * maxLength < 100 * distance).

Definition validateTextCoherence (romanizedLine : JValue) (lineIndex : nat)
    : Result (list jsstring) :=
  chunkv ← prop romanizedLine (u "chunk");
  cs ← as_array chunkv;
  parts ← mapM_result (λ c, t ← prop c (u "text"); Ok (or_empty t)) cs;
  let mergedChunkText := join_empty parts in
  t ← prop romanizedLine (u "text");
  let lineText := or_empty t in
  normalizedMerged ← normalizeText (JStr mergedChunkText);
  normalizedLine ← normalizeText lineText;
  if decide (normalizedMerged ≠ normalizedLine) then
    let distance := levenshteinDistance normalizedMerged normalizedLine in
    let maxLength := length normalizedMerged `max` length normalizedLine in
    if exceeds_20_percent distance maxLength then
      Ok [u "Line " ++ dec lineIndex ++ u ": significant text mismatch ("
          ++ percentToFixed1 distance maxLength ++ u "% difference)"]
    else Ok []
  else Ok [].

Definition validateChunkDistribution (originalLine : Line)
    (romanizedLine : JValue) (lineIndex : nat) : Result (list jsstring) :=
  chunkv ← prop romanizedLine (u "chunk");
  cs ← as_array chunkv;
  emptyChunks ← filterM is_empty_chunk cs;
  let errors1 :=
    if decide (0 < length emptyChunks) then
      [u "Line " ++ dec lineIndex ++ u ": found " ++ dec (length emptyChunks)
       ++ u " empty chunk(s)"]
    else [] in
  nonEmptyChunks ← filterM is_non_empty_chunk cs;
  let errors2 :=
    if decide (length nonEmptyChunks = 1 ∧ 1 < length cs) then
      [u "Line " ++ dec lineIndex ++ u ": all text concentrated in one chunk"]
    else [] in
  coherenceErrors ← validateTextCoherence romanizedLine lineIndex;
  Ok (errors1 ++ errors2 ++ coherenceErrors).

(** Length of [romanizedLine.chunk] once it is known to be an array. *)
Definition array_length (v : JValue) : nat :=
  match v with JArr l => length l | _ => 0 end.

(** Body of the [forEach] of [validate]; the accumulator is
    [(errors, detailedErrors)]. *)
Definition validate_line (originalLyricsForApi : list Line)
    (acc : list jsstring * list (nat * list jsstring))
    (romanizedLine : JValue) (index : nat)
    : Result (list jsstring * list (nat * list jsstring)) :=
  match originalLyricsForApi !! index with
  | None => Ok acc
  | Some originalLine =>
      idx ← prop romanizedLine (u "original_line_index");
      let e1 :=
        if strict_eq_nat idx index then []
        else [u "Line " ++ dec index
              ++ u ": incorrect original_line_index (expected " ++ dec index
              ++ u ", got " ++ ToString idx ++ u ")"] in
      t ← prop romanizedLine (u "text");
      let e2 :=
        if isString t then []
        else [u "Line " ++ dec index ++ u ": missing or invalid text field"] in
      let originalHasChunks := has_chunks originalLine in
      ch ← prop romanizedLine (u "chunk");
      let romanizedHasChunks := isArray ch in
      e3 ← (if negb originalHasChunks && romanizedHasChunks then
              Ok [u "Line " ++ dec index
                  ++ u ": unexpected chunk array (original had none)"]
            else if originalHasChunks then
              if negb romanizedHasChunks then
                Ok [u "Line " ++ dec index ++ u ": missing expected chunk array"]
              else if decide (array_length ch
                              ≠ length (default [] (chunk originalLine))) then
                Ok [u "Line " ++ dec index ++ u ": chunk count mismatch (original "
                    ++ dec (length (default [] (chunk originalLine)))
                    ++ u ", got " ++ dec (array_length ch) ++ u ")"]
              else validateChunkDistribution originalLine romanizedLine index
            else Ok []);
      let lineErrors := e1 ++ e2 ++ e3 in
      Ok (acc.1 ++ lineErrors,
          acc.2 ++ if decide (0 < length lineErrors)
                   then [(index, lineErrors)] else [])
  end.

Definition top_level_error : jsstring :=
  u "The top-level 'romanized_lyrics' key is missing or not an array".

Definition validate (originalLyricsForApi : list Line)
    (geminiResponse : JValue) : Result ValidationResult :=
  if negb (truthy geminiResponse) then
    Ok {| isValid := false; errors := [top_level_error];
          detailedErrors := [] |}
  else
    rl ← prop geminiResponse (u "romanized_lyrics");
    match rl with
    | JArr lines =>
        if decide (length lines ≠ length originalLyricsForApi) then
          Ok {| isValid := false;
                errors := [u "Line count mismatch: response has "
                           ++ dec (length lines) ++ u ", expected "
                           ++ dec (length originalLyricsForApi)];
                detailedErrors := [] |}
        else
          acc ← forEach (validate_line originalLyricsForApi) lines ([], []);
          Ok {| isValid := bool_decide (length acc.1 = 0);
                errors := acc.1;
                detailedErrors := acc.2 |}
    | _ =>
        Ok {| isValid := false; errors := [top_level_error];
              detailedErrors := [] |}
    end.

End Validator.

(* ================================================================== *)
(** ** GeminiRomanizer: the repair conversation *)
(* ================================================================== *)

(** Decimal digits of a canonical array index. *)
Fixpoint parse_digits (acc : nat) (s : jsstring) : option nat :=
  match s with
  | [] => Some acc
  | c :: r =>
      if (48 <=? c)%N && (c <=? 57)%N
      then parse_digits (10 * acc + N.to_nat (c - 48)) r
      else None
  end.

Definition parse_index (s : jsstring) : option nat :=
  match s with
  | [] => None
  | _ => n ← parse_digits 0 s; if decide (dec n = s) then Some n else None
  end.

(** The array index that the property key of [v] denotes, if any:
    a non-negative integer, its canonical decimal string, or an array
    nesting one of them (whose string conversion is that string). *)
Fixpoint toIndexKey (v : JValue) : option nat :=
  match v with
  | JNum q =>
      if decide (q = Qc_of_Z (Z.of_nat (Z.to_nat (Qnum (this q))))) 
      then Some (Z.to_nat (Qnum (this q))) else None
  | JStr s => parse_index s
  | JArr [x] => toIndexKey x
  | _ => None
  end.

(** What the issue list of [getProblematicLines] records for a line. *)
Inductive Issue :=
| emptyChunksIssue (n : nat)
| concentratedIssue
| chunkCountIssue (expected got : nat)
| incorrectIndexIssue
| invalidTextIssue.

(** [set.add(i)] on an insertion-ordered set of numbers. *)
Definition set_add (s : list nat) (i : nat) : list nat :=
  if decide (i ∈ s) then s else s ++ [i].

(** Body of the second [forEach] of [getProblematicLines]. *)
Definition problematic_line (originalLyricsForApi : list Line)
    (problematicIndices : list nat) (line : JValue) (index : nat)
    : Result (list nat) :=
  match originalLyricsForApi !! index with
  | None => Ok problematicIndices
  | Some originalLine =>
      let originalHasChunks := has_chunks originalLine in
      issues1 ←
        (if originalHasChunks then
           ch ← prop line (u "chunk");
           if isArray ch && bool_decide (0 < array_length ch) then
             cs ← as_array ch;
             emptyChunks ← filterM is_empty_chunk cs;
             nonEmptyChunks ← filterM is_non_empty_chunk cs;
             Ok ((if decide (0 < length emptyChunks)
                  then [emptyChunksIssue (length emptyChunks)] else [])
                 ++ (if decide (length nonEmptyChunks = 1 ∧ 1 < length cs)
                     then [concentratedIssue] else [])
                 ++ (if decide (length (default [] (chunk originalLine))
                                ≠ length cs)
                     then [chunkCountIssue
                             (length (default [] (chunk originalLine)))
                             (length cs)]
                     else []))
           else Ok []
         else Ok []);
      idx ← prop line (u "original_line_index");
      let issues2 := if strict_eq_nat idx index then [] else [incorrectIndexIssue] in
      t ← prop line (u "text");
      let issues3 := if isString t then [] else [invalidTextIssue] in
      let issues := issues1 ++ issues2 ++ issues3 in
      Ok (if decide (0 < length issues)
          then set_add problematicIndices index else problematicIndices)
  end.

Definition getProblematicLines (originalLyricsForApi : list Line)
    (response : JValue) (detailedErrors : list (nat * list jsstring))
    : Result (list Line) :=
  let problematicIndices := foldl (λ s e, set_add s e.1) [] detailedErrors in
  rl ← prop response (u "romanized_lyrics");
  problematicIndices ←
    (if truthy rl then
       lines ← as_array rl;
       forEach (problematic_line originalLyricsForApi) lines problematicIndices
     else Ok problematicIndices) : Result (list nat);
  Ok (omap (M := list) (λ index : nat,
              l ← originalLyricsForApi !! index;
              Some {| text := text l; original_line_index := Some index;
                      chunk := chunk l |})
           problematicIndices).

(** Body of the [forEach] of [mergeSelectiveFixes], on the array
    [mergedResponse.romanized_lyrics].  When the key of
    [fixedLine.original_line_index] denotes the position of a truthy
    element, the two numeric comparisons of the guard hold as well. *)
Definition apply_fix (lyrics : list JValue) (fixedLine : JValue) (_ : nat)
    : Result (list JValue) :=
  index ← prop fixedLine (u "original_line_index");
  match toIndexKey index with
  | Some i =>
      match lyrics !! i with
      | Some current =>
          if truthy current then Ok (<[i := fixedLine]> lyrics) else Ok lyrics
      | None => Ok lyrics
      end
  | None => Ok lyrics
  end.

Section Merge.

(** The outcome of the assignment loop when the stored
    [romanized_lyrics] is a truthy value that is not an array is left
    open. *)
Variable merge_into_non_array : JValue → JValue → Result JValue.

Definition mergeSelectiveFixes (lastValidResponse fixedLines : JValue)
    : Result JValue :=
  if negb (truthy lastValidResponse) then
    Ok (JObj [(u "romanized_lyrics", fixedLines)])
  else
    rl ← prop lastValidResponse (u "romanized_lyrics");
    if negb (truthy rl) then Ok (JObj [(u "romanized_lyrics", fixedLines)])
    else
      match rl with
      | JArr lyrics =>
          fixes ← as_array fixedLines;
          merged ← forEach apply_fix fixes lyrics;
          Ok (JObj (set_field (spread lastValidResponse)
                      (u "romanized_lyrics") (JArr merged)))
      | _ => merge_into_non_array lastValidResponse fixedLines
      end.

End Merge.

(** A conversation turn.  The wording of the prompts is not modelled: a
    prompt is identified by the function that builds it and the data it
    is built from. *)
Inductive Role := user | model.

(** One entry of the list a selective-fix prompt carries. *)
Record FixRequest := {
  fix_original_line_index : option nat;
  original_text : jsstring;
  had_chunks : bool;
  fix_errors : list jsstring
}.

Inductive PromptText :=
| customPrompt (prompt : jsstring)
| romanizationPrompt (lyricsForApi : list Line) (hasAnyChunks : bool)
| selectiveFixPrompt (lines : list FixRequest) (hasAnyChunks : bool)
| fullRetryPrompt (lyricsForApi : list Line) (hasAnyChunks : bool)
| invalidJsonPrompt (message : jsstring)
| responseTurn (responseText : jsstring).

Record Turn := { role : Role; parts : PromptText }.

(** [SchemaBuilder.buildRomanizationSchema] and
    [SchemaBuilder.buildSelectiveRomanizationSchema]. *)
Inductive Schema :=
| romanizationSchema (hasAnyChunks : bool)
| selectiveRomanizationSchema (hasAnyChunks : bool).

Record TranslationSettings := {
  overrideGeminiRomanizePrompt : bool;
  customGeminiRomanizePrompt : jsstring
}.

Definition createInitialPrompt (settings : TranslationSettings)
    (lyricsForApi : list Line) (hasAnyChunks : bool) : PromptText :=
  if overrideGeminiRomanizePrompt settings
     && negb (bool_decide (customGeminiRomanizePrompt settings = []))
  then customPrompt (customGeminiRomanizePrompt settings)
  else romanizationPrompt lyricsForApi hasAnyChunks.

Definition createSelectiveFixPrompt (problematicLines : list Line)
    (validationResult : ValidationResult) (hasAnyChunks : bool) : PromptText :=
  selectiveFixPrompt
    ((λ line,
        {| fix_original_line_index := original_line_index line;
           original_text := text line;
           had_chunks := has_chunks line;
           fix_errors :=
             match list_find (λ e, Some e.1 = original_line_index line)
                     (detailedErrors validationResult) with
             | Some (_, e) => e.2
             | None => []
             end |})
     <$> problematicLines)
    hasAnyChunks.

Definition createFullRetryPrompt (validationResult : ValidationResult)
    (lyricsForApi : list Line) (hasAnyChunks : bool) : PromptText :=
  fullRetryPrompt lyricsForApi hasAnyChunks.

(** [problematicLines.length < lyricsForApi.length * 0.8], on exact
    rationals: the product by the double 0.8 rounds to the exact 4n/5
    whenever that is an integer, and otherwise stays on the same side of
    every integer. *)
Definition below_80_percent (count total : nat) : bool :=
  bool_decide (5 * count < 4 * total).

Definition createCorrectionPrompt (problematicLines : list Line)
    (validationResult : ValidationResult) (lyricsForApi : list Line)
    (hasAnyChunks : bool) : PromptText :=
  if bool_decide (0 < length problematicLines)
     && below_80_percent (length problematicLines) (length lyricsForApi)
  then createSelectiveFixPrompt problematicLines validationResult hasAnyChunks
  else createFullRetryPrompt validationResult lyricsForApi hasAnyChunks.

(** The variables of the loop of [romanize]; [requests] records the calls
    made to the transformer, oldest first. *)
Record LoopState := {
  currentContents : list Turn;
  lastValidResponse : JValue;
  sameErrorCount : nat;
  lastError : option jsstring;
  requests : list (list Turn * Schema)
}.

(** How one iteration of the loop ends. *)
Inductive Step :=
| Return (fullList : list (option JValue)) (st : LoopState)
| Next (st : LoopState)
| Fail (e : JsError) (st : LoopState).

Section Romanize.

Variable isPurelyLatinScript : jsstring → bool.
Variable normalizeText : JValue → Result jsstring.
Variable levenshteinDistance : jsstring → jsstring → nat.
Variable numberToString : Qc → jsstring.
Variable percentToFixed1 : nat → nat → jsstring.
Variable merge_into_non_array : JValue → JValue → Result JValue.

(** [CONFIG.GEMINI.MAX_RETRIES]. *)
Variable MAX_RETRIES : nat.
(** [this.settings]. *)
Variable settings : TranslationSettings.
(** The transformer behind [callGeminiAPI]: what the call made on the
    given attempt, with the given conversation and schema, returns or
    throws. *)
Variable callGeminiAPI : nat → list Turn → Schema → Result jsstring.
(** [JSON.parse]. *)
Variable JSON_parse : jsstring → Result JValue.

Definition failed_after : jsstring :=
  u "Gemini romanization failed after " ++ dec MAX_RETRIES ++ u " attempts".

(** The [catch] block of the loop. *)
Definition catch_block (attempt : nat) (st : LoopState) (e : JsError) : Step :=
  if decide (attempt = MAX_RETRIES) then
    Fail (Error (failed_after ++ u ": " ++ error_message e)) st
  else
    match e with
    | SyntaxError m =>
        Next {| currentContents :=
                  currentContents st ++
                  [{| role := user; parts := invalidJsonPrompt m |}];
                lastValidResponse := lastValidResponse st;
                sameErrorCount := sameErrorCount st;
                lastError := lastError st;
                requests := requests st |}
    | _ => Next st
    end.

(** The bookkeeping on the first reported error. *)
Definition track_error (st : LoopState) (currentError : option jsstring)
    : LoopState :=
  if decide (currentError = lastError st) then
    {| currentContents := currentContents st;
       lastValidResponse := lastValidResponse st;
       sameErrorCount := S (sameErrorCount st);
       lastError := lastError st;
       requests := requests st |}
  else
    {| currentContents := currentContents st;
       lastValidResponse := lastValidResponse st;
       sameErrorCount := 1;
       lastError := currentError;
       requests := requests st |}.

(** [attempt > 1 && lastValidResponse !== null && sameErrorCount < 3] *)
Definition isSelectiveFix (attempt : nat) (st : LoopState) : bool :=
  bool_decide (1 < attempt)
  && negb (is_null (lastValidResponse st))
  && bool_decide (sameErrorCount st < 3).

(** [isSelectiveFix ? selectiveSchema : schema] *)
Definition schema_for (hasAnyChunks : bool) (attempt : nat) (st : LoopState)
    : Schema :=
  if isSelectiveFix attempt st then selectiveRomanizationSchema hasAnyChunks
  else romanizationSchema hasAnyChunks.

(** [isSelectiveFix && parsedJson.fixed_lines
      ? this.mergeSelectiveFixes(lastValidResponse, parsedJson.fixed_lines)
      : parsedJson] *)
Definition finalResponse_of (attempt : nat) (st : LoopState)
    (parsedJson : JValue) : Result JValue :=
  if isSelectiveFix attempt st then
    fixed_lines ← prop parsedJson (u "fixed_lines");
    if truthy fixed_lines
    then mergeSelectiveFixes merge_into_non_array (lastValidResponse st)
           fixed_lines
    else Ok parsedJson
  else Ok parsedJson.

Definition log_request (hasAnyChunks : bool) (attempt : nat) (st : LoopState)
    : LoopState :=
  {| currentContents := currentContents st;
     lastValidResponse := lastValidResponse st;
     sameErrorCount := sameErrorCount st;
     lastError := lastError st;
     requests := requests st
                 ++ [(currentContents st, schema_for hasAnyChunks attempt st)] |}.

(** [if (attempt === 1) lastValidResponse = parsedJson] *)
Definition keep_first_response (attempt : nat) (parsedJson : JValue)
    (st : LoopState) : LoopState :=
  if decide (attempt = 1) then
    {| currentContents := currentContents st;
       lastValidResponse := parsedJson;
       sameErrorCount := sameErrorCount st;
       lastError := lastError st;
       requests := requests st |}
  else st.

(** The state in which a conversation starts afresh. *)
Definition fresh_conversation (initialPrompt : PromptText) (st : LoopState)
    : LoopState :=
  {| currentContents := [{| role := user; parts := initialPrompt |}];
     lastValidResponse := JNull;
     sameErrorCount := 0;
     lastError := lastError st;
     requests := requests st |}.

(** One iteration of the loop of [romanize]. *)
Definition attempt_step (lyricsForApi : list Line)
    (reconstructionPlan : list ReconstructionPlanItem) (hasAnyChunks : bool)
    (initialPrompt : PromptText) (attempt : nat) (st0 : LoopState) : Step :=
  let st := log_request hasAnyChunks attempt st0 in
  match callGeminiAPI attempt (currentContents st0)
          (schema_for hasAnyChunks attempt st0) with
  | Throw e => catch_block attempt st e
  | Ok responseText =>
  match JSON_parse responseText with
  | Throw e => catch_block attempt st e
  | Ok parsedJson =>
  match finalResponse_of attempt st0 parsedJson with
  | Throw e => catch_block attempt st e
  | Ok finalResponse =>
  let st := keep_first_response attempt parsedJson st in
  match validate normalizeText levenshteinDistance numberToString
          percentToFixed1 lyricsForApi finalResponse with
  | Throw e => catch_block attempt st e
  | Ok validationResult =>
  if isValid validationResult then
    (* [validate] has accepted an array here *)
    match prop finalResponse (u "romanized_lyrics") with
    | Ok (JArr romanized_lyrics) =>
        Return (reconstructLyrics romanized_lyrics reconstructionPlan
                  hasAnyChunks) st
    | Ok _ => catch_block attempt st (TypeError (u "is not an array"))
    | Throw e => catch_block attempt st e
    end
  else
    let currentError := head (errors validationResult) in
    let st := track_error st currentError in
    if decide (attempt = MAX_RETRIES) then
      catch_block attempt st
        (Error (failed_after ++ u ". Final errors: "
                ++ join_with (u ", ") (errors validationResult)))
    else if decide (3 ≤ sameErrorCount st) then
      Next (fresh_conversation initialPrompt st)
    else
      match getProblematicLines lyricsForApi finalResponse
              (detailedErrors validationResult) with
      | Throw e => catch_block attempt st e
      | Ok problematicLines =>
          Next {| currentContents :=
                    currentContents st ++
                    [{| role := model; parts := responseTurn responseText |};
                     {| role := user;
                        parts := createCorrectionPrompt problematicLines
                                   validationResult lyricsForApi
                                   hasAnyChunks |}];
                  lastValidResponse := lastValidResponse st;
                  sameErrorCount := sameErrorCount st;
                  lastError := lastError st;
                  requests := requests st |}
      end
  end end end end.

(** The [for] loop: [remaining] iterations are left, the next one is
    numbered [attempt]. *)
Fixpoint attempts (lyricsForApi : list Line)
    (reconstructionPlan : list ReconstructionPlanItem) (hasAnyChunks : bool)
    (initialPrompt : PromptText) (remaining attempt : nat) (st : LoopState)
    : Result (list (option JValue)) * LoopState :=
  match remaining with
  | 0 =>
      (Throw (Error (u "Unexpected error: Gemini romanization process completed without success")),
       st)
  | S remaining =>
      match attempt_step lyricsForApi reconstructionPlan hasAnyChunks
              initialPrompt attempt st with
      | Return fullList st' => (Ok fullList, st')
      | Fail e st' => (Throw e, st')
      | Next st' =>
          attempts lyricsForApi reconstructionPlan hasAnyChunks
            initialPrompt remaining (S attempt) st'
      end
  end.

(** [romanize]: the result, and the final state of the loop variables
    (whose [requests] lists the transformer calls made). *)
Definition romanize (structuredInput : list Line)
    : Result (list (option JValue)) * LoopState :=
  let prepared := prepareLyrics isPurelyLatinScript structuredInput in
  let lyricsForApi := lyricsForApi prepared in
  let reconstructionPlan := reconstructionPlan prepared in
  let hasAnyChunks := existsb has_chunks lyricsForApi in
  let initialPrompt := createInitialPrompt settings lyricsForApi hasAnyChunks in
  let st0 :=
    {| currentContents := [{| role := user; parts := initialPrompt |}];
       lastValidResponse := JNull;
       sameErrorCount := 0;
       lastError := None;
       requests := [] |} in
  if decide (length lyricsForApi = 0) then
    (Ok (reconstructLyrics [] reconstructionPlan hasAnyChunks), st0)
  else
    attempts lyricsForApi reconstructionPlan hasAnyChunks initialPrompt
      MAX_RETRIES 1 st0.

End Romanize.

(* ================================================================== *)
(** ** Songs, lyrics documents and cache records *)
(* ================================================================== *)

(** [SongInfo]; a missing property is [None]. *)
Record SongInfo := {
  title : option jsstring;
  artist : option jsstring;
  album : option jsstring;
  duration : option Qc;
  songId : option jsstring;
  videoId : option jsstring;
  subtitle : bool
}.

(** [LyricsData]: the lines, the metadata and translation metadata
    objects, and whatever other properties the document carries. *)
Record LyricsData := {
  data : list JValue;
  metadata : option (list (jsstring * JValue));
  translationMeta : option (list (jsstring * JValue));
  other_properties : list (jsstring * JValue)
}.

(** A version token: a fetch timestamp, or the id of a local entry;
    [versionUndefined] is what reading [version] gives on a value that
    has none. *)
Inductive Version :=
| versionNumber (n : Z)
| versionString (s : jsstring)
| versionUndefined.

#[global] Instance Version_eq_dec : EqDecision Version.
Proof. solve_decision. Defined.

(** [LyricsCacheEntry]. *)
Record LyricsCacheEntry := {
  lyrics : LyricsData;
  version : Version
}.

(** What the translation service keeps in memory. *)
Record TranslationRecord := {
  translatedLyrics : LyricsData;
  record_originalVersion : Version
}.

(** The values that travel through the memory cache and the in-flight
    promises, which both services share. *)
Inductive Value :=
| lyricsEntry (e : LyricsCacheEntry)
| translationRecord (t : TranslationRecord)
| lyricsDocument (l : LyricsData).

(** Records of the persistent collections. *)
Record LyricsDBRecord := {
  lr_lyrics : LyricsData;
  lr_version : Version;
  lr_timestamp : Z;
  lr_duration : option Qc
}.

Record TranslationDBRecord := {
  tr_translatedLyrics : LyricsData;
  tr_originalVersion : Version
}.

Record LocalLyricsRecord := {
  ll_songId : jsstring;
  ll_songInfo : SongInfo;
  ll_lyrics : JValue;
  ll_timestamp : option Z
}.

Inductive Provider := KPOE | CUSTOM_KPOE | LRCLIB | LOCAL | GOOGLE | GEMINI.

#[global] Instance Provider_eq_dec : EqDecision Provider.
Proof. solve_decision. Defined.

Record LyricsSettings := {
  lyricsProvider : option Provider;
  lyricsSourceOrder : list jsstring;
  cacheStrategy : jsstring;
  customKpoeUrl : jsstring
}.

(** [fetchOptions]: [{ cache: 'no-store' }] or [{}]. *)
Inductive FetchOptions := noStore | defaultOptions.

(** The part of [TranslationSettings] that [performAndCacheTranslation]
    reads itself. *)
Record TargetSettings := {
  overrideTranslateTarget : bool;
  customTranslateTarget : jsstring
}.

(** [TranslationResult]. *)
Record TranslationResult := {
  result_data : option (list JValue);
  result_meta : option (list (jsstring * JValue))
}.

(* ================================================================== *)
(** ** Shared state and asynchronous tasks *)
(* ================================================================== *)

(** A call that starts a task whose promise is put in the registry. *)
Inductive Call :=
| callFetchNewLyrics (songInfo : SongInfo) (cacheKey : jsstring)
    (forceReload : bool)
| callPerformAndCacheTranslation (translatedKey : jsstring)
    (originalLyrics : option LyricsData) (originalVersion : Version)
    (action targetLang : jsstring).

(** Operations on the registry, in the order they were made. *)
Inductive RegistryEvent :=
| registered (key : jsstring) (promise : nat)
| released (key : jsstring).

#[global] Instance RegistryEvent_eq_dec : EqDecision RegistryEvent.
Proof. solve_decision. Defined.

(** Modelled from the spec: [state.js] is not among the sources.  The
    memory cache and the in-flight registry are maps from key to value
    with has / get / set / delete, as sections 4.2 and 5 of the design
    describe them.  The record also carries the clock [Date.now()] reads,
    the promises created for registry calls and not yet started
    ([started]), and the history of the registry. *)
Record State := {
  cache : gmap jsstring Value;
  ongoing : gmap jsstring nat;
  now : Z;
  next_promise : nat;
  started : list (nat * Call);
  history : list RegistryEvent
}.

(** The operations a task waits for. *)
Inductive Op : Type → Type :=
| settingsGet : Op LyricsSettings
| getLyricsSettings : Op LyricsSettings
| getTranslationSettings : Op TargetSettings
| lyricsDB_get (key : jsstring) : Op (option LyricsDBRecord)
| lyricsDB_set (key : jsstring) (record : LyricsDBRecord) : Op unit
| lyricsDB_delete (key : jsstring) : Op unit
| translationsDB_get (key : jsstring) : Op (option TranslationDBRecord)
| translationsDB_set (key : jsstring) (record : TranslationDBRecord) : Op unit
| translationsDB_delete (key : jsstring) : Op unit
| localLyricsDB_get (songId : jsstring) : Op (option LocalLyricsRecord)
| localLyricsDB_getAll : Op (list LocalLyricsRecord)
| KPoeService_fetch (songInfo : SongInfo) (sourceOrder : list jsstring)
    (forceReload : bool) (fetchOptions : FetchOptions) : Op (option LyricsData)
| KPoeService_fetchCustom (songInfo : SongInfo) (url : jsstring)
    (sourceOrder : list jsstring) (forceReload : bool)
    (fetchOptions : FetchOptions) : Op (option LyricsData)
| LRCLibService_fetch (songInfo : SongInfo) (fetchOptions : FetchOptions)
    : Op (option LyricsData)
| YouTubeService_fetchSubtitles (songInfo : SongInfo) : Op (option LyricsData)
| performTranslation (originalLyrics : option LyricsData) (action : jsstring)
    (targetLang : jsstring) : Op TranslationResult
| awaitPromise (promise : nat) : Op Value.

(** A task is finished, or suspended at an [await]: when the awaited
    operation settles, the continuation runs on the shared state as it is
    then, up to the next [await] or to the end. *)
Inductive Task (R : Type) : Type :=
| Done (r : Result R)
| Suspended {X : Type} (op : Op X) (k : Result X → State → Task R * State).
Arguments Done {R} r.
Arguments Suspended {R X} op k.

(** A piece of an [async] function: it runs synchronously on the shared
    state until it finishes or suspends. *)
Definition Async (R : Type) : Type := State → Task R * State.

Fixpoint bind_task {A B} (t : Task A) (f : A → Async B) (s : State)
    : Task B * State :=
  match t with
  | Done (Ok a) => f a s
  | Done (Throw e) => (Done (Throw e), s)
  | Suspended op k =>
      (Suspended op (λ r s', let '(t', s'') := k r s' in bind_task t' f s''), s)
  end.

#[global] Instance Async_ret : MRet Async := λ A a s, (Done (Ok a), s).
#[global] Instance Async_bind : MBind Async := λ A B f m s,
  let '(t, s') := m s in bind_task t f s'.

Definition throw {A} (e : JsError) : Async A := λ s, (Done (Throw e), s).

Definition await {X} (op : Op X) : Async X :=
  λ s, (Suspended op (λ r s', (Done r, s')), s).

(** [try { body } finally { cleanup }] with a synchronous [cleanup]. *)
Fixpoint finally_task {A} (t : Task A) (cleanup : State → State) (s : State)
    : Task A * State :=
  match t with
  | Done r => (Done r, cleanup s)
  | Suspended op k =>
      (Suspended op
         (λ r s', let '(t', s'') := k r s' in finally_task t' cleanup s''), s)
  end.

Definition try_finally {A} (body : Async A) (cleanup : State → State)
    : Async A :=
  λ s, let '(t, s') := body s in finally_task t cleanup s'.

(** Reading and updating the shared state, without suspending. *)
Definition read {A} (f : State → A) : Async A := λ s, (Done (Ok (f s)), s).
Definition update (f : State → State) : Async unit := λ s, (Done (Ok ()), f s).

Definition Date_now : Async Z := read now.

Definition setCached (key : jsstring) (v : Value) (s : State) : State :=
  {| cache := <[key := v]> (cache s); ongoing := ongoing s; now := now s;
     next_promise := next_promise s; started := started s;
     history := history s |}.

Definition setOngoingFetch (key : jsstring) (promise : nat) (s : State)
    : State :=
  {| cache := cache s; ongoing := <[key := promise]> (ongoing s);
     now := now s; next_promise := next_promise s; started := started s;
     history := history s ++ [registered key promise] |}.

Definition deleteOngoingFetch (key : jsstring) (s : State) : State :=
  {| cache := cache s; ongoing := delete key (ongoing s); now := now s;
     next_promise := next_promise s; started := started s;
     history := history s ++ [released key] |}.

(** Calling an [async] function whose promise the caller keeps: the call
    gets a fresh promise.  The functions called this way run no statement
    that touches the shared state before their first [await]. *)
Definition call_async (c : Call) : Async nat :=
  λ s, (Done (Ok (next_promise s)),
        {| cache := cache s; ongoing := ongoing s; now := now s;
           next_promise := S (next_promise s);
           started := started s ++ [(next_promise s, c)];
           history := history s |}).

(* ================================================================== *)
(** ** LyricsService *)
(* ================================================================== *)

(** [s || ''] on an optional string. *)
Definition or_empty_string (s : option jsstring) : jsstring := default [] s.

(** Truthiness of an optional string. *)
Definition truthy_string (s : option jsstring) : bool :=
  match s with
  | Some (_ :: _) => true
  | _ => false
  end.

Section Services.

(** [CONFIG.CACHE_EXPIRY], by its own keys.  The names a cache strategy
    takes ([types.d.ts]: 'aggressive', 'moderate', 'none') are not names
    of [Object.prototype], so [in] and the property read see the own
    keys only. *)
Variable CACHE_EXPIRY : gmap jsstring Z.
(** [Object.values(PROVIDERS)]. *)
Variable PROVIDERS_values : list Provider.
(** [Utilities.isEmptyLyrics]; [None] is [null]. *)
Variable isEmptyLyrics : option LyricsData → bool.
(** [DataParser.parseKPoeFormat]. *)
Variable parseKPoeFormat : JValue → LyricsData.
(** Number::toString. *)
Variable numberToString : Qc → jsstring.

Definition createCacheKey (songInfo : SongInfo) : jsstring :=
  let artist := or_empty_string (artist songInfo) in
  let album := or_empty_string (album songInfo) in
  let duration :=
    match duration songInfo with
    | Some d => if decide (d = 0%Qc) then [] else numberToString d
    | None => []
    end in
  default (u "undefined") (title songInfo) ++ u " - " ++ artist ++ u " - "
  ++ album ++ u " - " ++ duration.

Definition song_info_error : JsError :=
  Error (u "Song info must include title and artist").

(** [validateSongInfo]; [None] is [null] or [undefined].  On success the
    song info is handed back. *)
Definition validateSongInfo (songInfo : option SongInfo) : Result SongInfo :=
  match songInfo with
  | None => Throw song_info_error
  | Some info =>
      if negb (truthy_string (title info)) || negb (truthy_string (artist info))
      then Throw song_info_error
      else Ok info
  end.

Definition lift {A} (r : Result A) : Async A := λ s, (Done r, s).

(** [settings.cacheStrategy && settings.cacheStrategy in CONFIG.CACHE_EXPIRY
      ? settings.cacheStrategy : 'aggressive'] *)
Definition effective_strategy (settings : LyricsSettings) : jsstring :=
  if negb (bool_decide (cacheStrategy settings = []))
     && bool_decide (is_Some (CACHE_EXPIRY !! cacheStrategy settings))
  then cacheStrategy settings
  else u "aggressive".

Definition getFromDB (key : jsstring) : Async (option LyricsCacheEntry) :=
  settings ← await settingsGet;
  if decide (cacheStrategy settings = u "none") then mret None
  else
    result ← await (lyricsDB_get key);
    match result with
    | None => mret None
    | Some result =>
        now ← Date_now;
        let strategy := effective_strategy settings in
        let expirationTime := CACHE_EXPIRY !! strategy in
        let age := (now - lr_timestamp result)%Z in
        if match expirationTime with
           | Some t => bool_decide (age < t)%Z
           | None => false
           end
        then mret (Some {| lyrics := lr_lyrics result;
                           version := lr_version result |})
        else
          _ ← await (lyricsDB_delete key);
          mret None
    end.

(** [timestamp || songId] *)
Definition local_version (timestamp : option Z) (songId : jsstring) : Version :=
  match timestamp with
  | Some t => if decide (t = 0%Z) then versionString songId else versionNumber t
  | None => versionString songId
  end.

Definition checkLocalLyrics (songInfo : SongInfo)
    : Async (option LyricsCacheEntry) :=
  direct ←
    (if truthy_string (songId songInfo) then
       directLocal ← await (localLyricsDB_get (or_empty_string (songId songInfo)));
       mret ((λ directLocal,
                {| lyrics := parseKPoeFormat (ll_lyrics directLocal);
                   version := local_version (ll_timestamp directLocal)
                                (or_empty_string (songId songInfo)) |})
             <$> directLocal)
     else mret None);
  match direct with
  | Some r => mret (Some r)
  | None =>
      localLyricsList ← await localLyricsDB_getAll;
      let matched :=
        list_find (λ item,
                     title (ll_songInfo item) = title songInfo
                     ∧ artist (ll_songInfo item) = artist songInfo)
                  localLyricsList in
      match matched with
      | Some (_, matched) =>
          fetchedLocal ← await (localLyricsDB_get (ll_songId matched));
          mret ((λ fetchedLocal,
                   {| lyrics := parseKPoeFormat (ll_lyrics fetchedLocal);
                      version := local_version (ll_timestamp fetchedLocal)
                                   (ll_songId matched) |})
                <$> fetchedLocal)
      | None => mret None
      end
  end.

Definition getProviderOrder (settings : LyricsSettings) : list Provider :=
  let allProviders :=
    filter (λ p, p ≠ GOOGLE ∧ p ≠ GEMINI) PROVIDERS_values in
  let preferredProvider :=
    match lyricsProvider settings with
    | Some p => if decide (p ∈ allProviders) then p else KPOE
    | None => KPOE
    end in
  preferredProvider :: filter (λ p, p ≠ preferredProvider) allProviders.

Definition fetchFromProvider (provider : Provider) (songInfo : SongInfo)
    (settings : LyricsSettings) (fetchOptions : FetchOptions)
    (forceReload : bool) : Async (option LyricsData) :=
  match provider with
  | KPOE =>
      await (KPoeService_fetch songInfo (lyricsSourceOrder settings)
               forceReload fetchOptions)
  | CUSTOM_KPOE =>
      if negb (bool_decide (customKpoeUrl settings = [])) then
        await (KPoeService_fetchCustom songInfo (customKpoeUrl settings)
                 (lyricsSourceOrder settings) forceReload fetchOptions)
      else mret None
  | LRCLIB => await (LRCLibService_fetch songInfo fetchOptions)
  | LOCAL =>
      localResult ← checkLocalLyrics songInfo;
      mret (lyrics <$> localResult)
  | _ => mret None
  end.

(** The [for ... of] loop over the providers, from the value [lyrics]
    has before it. *)
Fixpoint provider_loop (providers : list Provider) (songInfo : SongInfo)
    (settings : LyricsSettings) (fetchOptions : FetchOptions)
    (forceReload : bool) (lyrics : option LyricsData)
    : Async (option LyricsData) :=
  match providers with
  | [] => mret lyrics
  | provider :: rest =>
      lyrics ← fetchFromProvider provider songInfo settings fetchOptions
                 forceReload;
      if negb (isEmptyLyrics lyrics) then mret lyrics
      else provider_loop rest songInfo settings fetchOptions forceReload lyrics
  end.

Definition with_fetchedAt (lyrics : LyricsData) (fetchedAt : Z) : LyricsData :=
  {| data := data lyrics;
     metadata := Some (set_field (default [] (metadata lyrics))
                         (u "fetchedAt") (JNum (Qc_of_Z fetchedAt)));
     translationMeta := translationMeta lyrics;
     other_properties := other_properties lyrics |}.

Definition fetchNewLyrics (songInfo : SongInfo) (cacheKey : jsstring)
    (forceReload : bool) : Async Value :=
  try_finally
    (settings ← await getLyricsSettings;
     let fetchOptions :=
       if decide (cacheStrategy settings = u "none")
       then noStore else defaultOptions in
     let providers := getProviderOrder settings in
     lyrics ← provider_loop providers songInfo settings fetchOptions
                forceReload None;
     lyrics ← (if isEmptyLyrics lyrics && truthy_string (videoId songInfo)
                  && subtitle songInfo
               then await (YouTubeService_fetchSubtitles songInfo)
               else mret lyrics);
     match lyrics with
     | None => throw (Error (u "No lyrics found from any provider"))
     | Some lyrics =>
         if isEmptyLyrics (Some lyrics) then
           throw (Error (u "No lyrics found from any provider"))
         else
           fetchedAt ← Date_now;
           let lyricsWithMeta := with_fetchedAt lyrics fetchedAt in
           let version := versionNumber fetchedAt in
           let result := {| lyrics := lyricsWithMeta; version := version |} in
           _ ← update (setCached cacheKey (lyricsEntry result));
           _ ← (if decide (cacheStrategy settings ≠ u "none") then
                  await (lyricsDB_set cacheKey
                           {| lr_lyrics := lyricsWithMeta;
                              lr_version := version;
                              lr_timestamp := fetchedAt;
                              lr_duration := duration songInfo |})
                else mret ());
           mret (lyricsEntry result)
     end)
    (deleteOngoingFetch cacheKey).

(** From the registry check to the end of [getOrFetch]. *)
Definition join_or_fetch (songInfo : SongInfo) (cacheKey : jsstring)
    (forceReload : bool) : Async Value :=
  ongoingFetch ← read (λ s, ongoing s !! cacheKey);
  match ongoingFetch with
  | Some fetchPromise => await (awaitPromise fetchPromise)
  | None =>
      fetchPromise ← call_async (callFetchNewLyrics songInfo cacheKey forceReload);
      _ ← update (setOngoingFetch cacheKey fetchPromise);
      await (awaitPromise fetchPromise)
  end.

Definition LyricsService_getOrFetch (songInfo : option SongInfo)
    (forceReload : bool) : Async Value :=
  songInfo ← lift (validateSongInfo songInfo);
  let cacheKey := createCacheKey songInfo in
  cached ← read (λ s, if forceReload then None else cache s !! cacheKey);
  match cached with
  | Some v => mret v
  | None =>
      found ←
        (if negb forceReload then
           dbResult ← getFromDB cacheKey;
           match dbResult with
           | Some dbResult =>
               _ ← update (setCached cacheKey (lyricsEntry dbResult));
               mret (Some dbResult)
           | None =>
               localResult ← checkLocalLyrics songInfo;
               match localResult with
               | Some localResult =>
                   _ ← update (setCached cacheKey (lyricsEntry localResult));
                   mret (Some localResult)
               | None => mret None
               end
           end
         else mret None);
      match found with
      | Some entry => mret (lyricsEntry entry)
      | None => join_or_fetch songInfo cacheKey forceReload
      end
  end.

(* ---------------------------------------------------------------- *)
(** *** TranslationService *)

(** [String.prototype.toLowerCase]. *)
Variable toLowerCase : jsstring → jsstring.

(** [s.split(/[-_]/)[0]] *)
Fixpoint before_separator (s : jsstring) : jsstring :=
  match s with
  | [] => []
  | c :: r => if decide (c = 45%N ∨ c = 95%N) then [] else c :: before_separator r
  end.

Definition normalizeLanguageCode (lang : jsstring) : jsstring :=
  match lang with
  | [] => []
  | _ => before_separator (toLowerCase (trim lang))
  end.

Definition annotateCacheHit (translatedLyrics : LyricsData)
    (cacheSource : jsstring) (lastServedAt : Z) : LyricsData :=
  let meta := default [] (translationMeta translatedLyrics) in
  let meta := set_field meta (u "cached") (JBool true) in
  let meta := set_field meta (u "cacheSource") (JStr cacheSource) in
  let meta := set_field meta (u "lastServedAt") (JNum (Qc_of_Z lastServedAt)) in
  {| data := data translatedLyrics;
     metadata := metadata translatedLyrics;
     translationMeta := Some meta;
     other_properties := other_properties translatedLyrics |}.

Definition TranslationService_createCacheKey (songInfo : option SongInfo)
    (action targetLang : jsstring) : Result jsstring :=
  match songInfo with
  | None => Throw (TypeError (u "Cannot read properties of null or undefined"))
  | Some songInfo =>
      Ok (createCacheKey songInfo ++ u " - " ++ action ++ u " - " ++ targetLang)
  end.

(** The object the cache holds under [key] is changed in place. *)
Definition mutate_cached (key : jsstring) (v : Value) (s : State) : State :=
  {| cache := <[key := v]> (cache s); ongoing := ongoing s; now := now s;
     next_promise := next_promise s; started := started s;
     history := history s |}.

(** [getCached].  Under a translation key the memory cache holds
    translation records; for a value of another kind the version test
    is taken to fail. *)
Definition getCached (key : jsstring) (originalVersion : Version)
    : Async (option LyricsData) :=
  cached ← read (λ s, cache s !! key);
  memoryHit ←
    match cached with
    | Some (translationRecord cached) =>
        if decide (record_originalVersion cached = originalVersion) then
          now ← Date_now;
          let annotated :=
            annotateCacheHit (translatedLyrics cached) (u "memory") now in
          _ ← update (mutate_cached key
                        (translationRecord
                           {| translatedLyrics := annotated;
                              record_originalVersion := record_originalVersion cached |}));
          mret (Some annotated)
        else mret None
    | _ => mret None
    end;
  match memoryHit with
  | Some hit => mret (Some hit)
  | None =>
      dbCached ← await (translationsDB_get key);
      match dbCached with
      | Some dbCached =>
          if decide (tr_originalVersion dbCached = originalVersion) then
            now ← Date_now;
            let annotated :=
              annotateCacheHit (tr_translatedLyrics dbCached) (u "db") now in
            _ ← update (setCached key
                          (translationRecord
                             {| translatedLyrics := annotated;
                                record_originalVersion := tr_originalVersion dbCached |}));
            mret (Some annotated)
          else
            _ ← await (translationsDB_delete key);
            mret None
      | None => mret None
      end
  end.

(** [v || d] on a property of the result's [meta]. *)
Definition meta_or (meta : list (jsstring * JValue)) (k : jsstring)
    (d : JValue) : JValue :=
  if truthy (get_field meta k) then get_field meta k else d.

Definition performAndCacheTranslation (translatedKey : jsstring)
    (originalLyrics : option LyricsData) (originalVersion : Version)
    (action targetLang : jsstring) : Async Value :=
  settings ← await getTranslationSettings;
  let resolvedTargetLang :=
    if overrideTranslateTarget settings
       && negb (bool_decide (customTranslateTarget settings = []))
    then customTranslateTarget settings else targetLang in
  translationResult ←
    await (performTranslation originalLyrics action resolvedTargetLang);
  let meta := default [] (result_meta translationResult) in
  data ←
    match result_data translationResult, originalLyrics with
    | Some d, _ => mret d
    | None, Some original => mret (data original)
    | None, None =>
        throw (TypeError (u "Cannot read properties of null or undefined"))
    end;
  generatedAt ← Date_now;
  let finalTranslatedLyrics :=
    {| data := data;
       metadata := originalLyrics ≫= metadata;
       translationMeta :=
         Some [(u "action", JStr action);
               (u "provider", meta_or meta (u "provider") (JStr (u "unknown")));
               (u "targetLang",
                JStr (match normalizeLanguageCode resolvedTargetLang with
                      | [] => resolvedTargetLang
                      | code => code
                      end));
               (u "requestedTargetLang", JStr targetLang);
               (u "sourceLang", meta_or meta (u "sourceLang") (JStr (u "auto")));
               (u "fallbackUsed", meta_or meta (u "fallbackUsed") (JBool false));
               (u "skippedReason", meta_or meta (u "skippedReason") JNull);
               (u "failedLines", meta_or meta (u "failedLines") (JArr []));
               (u "generatedAt", JNum (Qc_of_Z generatedAt))];
       other_properties := default [] (other_properties <$> originalLyrics) |} in
  _ ← update (setCached translatedKey
                (translationRecord
                   {| translatedLyrics := finalTranslatedLyrics;
                      record_originalVersion := originalVersion |}));
  _ ← await (translationsDB_set translatedKey
               {| tr_translatedLyrics := finalTranslatedLyrics;
                  tr_originalVersion := originalVersion |});
  mret (lyricsDocument finalTranslatedLyrics).

Definition TranslationService_getOrFetch (songInfo : option SongInfo)
    (action targetLang : jsstring) (forceReload : bool) : Async Value :=
  translatedKey ← lift (TranslationService_createCacheKey songInfo action targetLang);
  base ← LyricsService_getOrFetch songInfo forceReload;
  let originalLyrics :=
    match base with lyricsEntry e => Some (lyrics e) | _ => None end in
  let originalVersion :=
    match base with lyricsEntry e => version e | _ => versionUndefined end in
  if isEmptyLyrics originalLyrics then
    throw (Error (u "Original lyrics not found or empty"))
  else
    cached ← (if negb forceReload then getCached translatedKey originalVersion
              else mret None);
    match cached with
    | Some cached => mret (lyricsDocument cached)
    | None =>
        ongoingFetch ←
          read (λ s, if forceReload then None else ongoing s !! translatedKey);
        match ongoingFetch with
        | Some promise => await (awaitPromise promise)
        | None =>
            translationPromise ←
              call_async (callPerformAndCacheTranslation translatedKey
                            originalLyrics originalVersion action targetLang);
            _ ← update (setOngoingFetch translatedKey translationPromise);
            try_finally (await (awaitPromise translationPromise))
              (deleteOngoingFetch translatedKey)
        end
    end.

(** The task a registry call starts. *)
Definition start_call (c : Call) : Async Value :=
  match c with
  | callFetchNewLyrics songInfo cacheKey forceReload =>
      fetchNewLyrics songInfo cacheKey forceReload
  | callPerformAndCacheTranslation translatedKey originalLyrics
      originalVersion action targetLang =>
      performAndCacheTranslation translatedKey originalLyrics
        originalVersion action targetLang
  end.

End Services.

(* ================================================================== *)
(** ** Running tasks *)
(* ================================================================== *)

(** A task run alone: every awaited operation is answered by a handler
    over some environment [E]; [None] when an operation gets no answer. *)
Fixpoint run {E R} (handler : ∀ X, Op X → E → option (Result X * E))
    (t : Task R) (e : E) (s : State) : option (Result R * E * State) :=
  match t with
  | Done r => Some (r, e, s)
  | Suspended op k =>
      match handler _ op e with
      | Some (r, e') => let '(t', s') := k r s in run handler t' e' s'
      | None => None
      end
  end.

Definition run_async {E R} (handler : ∀ X, Op X → E → option (Result X * E))
    (m : Async R) (e : E) (s : State) : option (Result R * E * State) :=
  let '(t, s') := m s in run handler t e s'.

(** Runs a task as far as the handler answers: to its end, or to the
    operation it is left waiting for. *)
Fixpoint run_until_blocked {E R}
    (handler : ∀ X, Op X → E → option (Result X * E))
    (t : Task R) (e : E) (s : State) : Task R * E * State :=
  match t with
  | Done r => (t, e, s)
  | Suspended op k =>
      match handler _ op e with
      | Some (r, e') =>
          let '(t', s') := k r s in run_until_blocked handler t' e' s'
      | None => (t, e, s)
      end
  end.

Definition run_async_until_blocked {E R}
    (handler : ∀ X, Op X → E → option (Result X * E))
    (m : Async R) (e : E) (s : State) : Task R * E * State :=
  let '(t, s') := m s in run_until_blocked handler t e s'.

(** Answers given by an arbitrary oracle; the environment counts the
    operations answered so far. *)
Definition oracle_handler (answers : ∀ X, Op X → nat → Result X)
    : ∀ X, Op X → nat → option (Result X * nat) :=
  λ X op n, Some (answers X op n, S n).

(** The persistent collections, the promises settled so far, and the
    number of requests sent to lyrics providers. *)
Record World := {
  lyricsDB : gmap jsstring LyricsDBRecord;
  translationsDB : gmap jsstring TranslationDBRecord;
  localLyricsDB : list LocalLyricsRecord;
  settled : gmap nat (Result Value);
  provider_requests : nat
}.

Definition with_lyricsDB (db : gmap jsstring LyricsDBRecord) (w : World) : World :=
  {| lyricsDB := db; translationsDB := translationsDB w;
     localLyricsDB := localLyricsDB w; settled := settled w;
     provider_requests := provider_requests w |}.

Definition with_translationsDB (db : gmap jsstring TranslationDBRecord)
    (w : World) : World :=
  {| lyricsDB := lyricsDB w; translationsDB := db;
     localLyricsDB := localLyricsDB w; settled := settled w;
     provider_requests := provider_requests w |}.

Definition with_settled (p : gmap nat (Result Value)) (w : World) : World :=
  {| lyricsDB := lyricsDB w; translationsDB := translationsDB w;
     localLyricsDB := localLyricsDB w; settled := p;
     provider_requests := provider_requests w |}.

Definition count_provider_request (w : World) : World :=
  {| lyricsDB := lyricsDB w; translationsDB := translationsDB w;
     localLyricsDB := localLyricsDB w; settled := settled w;
     provider_requests := S (provider_requests w) |}.

(** The stores answer from the world; a promise answers once settled;
    settings and network services answer as [external] says. *)
Definition world_handler (external : ∀ X, Op X → option (Result X))
    : ∀ X, Op X → World → option (Result X * World) :=
  λ X op w,
    match op in Op X return option (Result X * World) with
    | lyricsDB_get key => Some (Ok (lyricsDB w !! key), w)
    | lyricsDB_set key record =>
        Some (Ok (), with_lyricsDB (<[key := record]> (lyricsDB w)) w)
    | lyricsDB_delete key =>
        Some (Ok (), with_lyricsDB (delete key (lyricsDB w)) w)
    | translationsDB_get key => Some (Ok (translationsDB w !! key), w)
    | translationsDB_set key record =>
        Some (Ok (), with_translationsDB (<[key := record]> (translationsDB w)) w)
    | translationsDB_delete key =>
        Some (Ok (), with_translationsDB (delete key (translationsDB w)) w)
    | localLyricsDB_get songId =>
        Some (Ok (snd <$> list_find (λ r, ll_songId r = songId) (localLyricsDB w)), w)
    | localLyricsDB_getAll => Some (Ok (localLyricsDB w), w)
    | awaitPromise promise => (λ r, (r, w)) <$> settled w !! promise
    | KPoeService_fetch a b c d =>
        (λ r, (r, count_provider_request w))
        <$> external _ (KPoeService_fetch a b c d)
    | KPoeService_fetchCustom a b c d e =>
        (λ r, (r, count_provider_request w))
        <$> external _ (KPoeService_fetchCustom a b c d e)
    | LRCLibService_fetch a b =>
        (λ r, (r, count_provider_request w))
        <$> external _ (LRCLibService_fetch a b)
    | YouTubeService_fetchSubtitles a =>
        (λ r, (r, count_provider_request w))
        <$> external _ (YouTubeService_fetchSubtitles a)
    | settingsGet => (λ r, (r, w)) <$> external _ settingsGet
    | getLyricsSettings => (λ r, (r, w)) <$> external _ getLyricsSettings
    | getTranslationSettings =>
        (λ r, (r, w)) <$> external _ getTranslationSettings
    | performTranslation a b c =>
        (λ r, (r, w)) <$> external _ (performTranslation a b c)
    end.

(* ------------------------------------------------------------------ *)
(** *** Interleaved tasks on one event loop *)

(** The event loop: the world, the shared state, and the tasks, each with
    the registry promise it settles, if any. *)
Record Config := {
  world : World;
  shared : State;
  pool : list (option nat * Task Value)
}.

Inductive Action :=
| invoke_getOrFetch (songInfo : option SongInfo) (forceReload : bool)
| resume (task : nat)
| elapse (ms : Z).

Definition settle (owner : option nat) (t : Task Value) (w : World) : World :=
  match owner, t with
  | Some promise, Done r => with_settled (<[promise := r]> (settled w)) w
  | _, _ => w
  end.

Definition clear_started (s : State) : State :=
  {| cache := cache s; ongoing := ongoing s; now := now s;
     next_promise := next_promise s; started := [];
     history := history s |}.

Definition advance (ms : Z) (s : State) : State :=
  {| cache := cache s; ongoing := ongoing s; now := (now s + ms)%Z;
     next_promise := next_promise s; started := started s;
     history := history s |}.

Section EventLoop.

Variable CACHE_EXPIRY : gmap jsstring Z.
Variable PROVIDERS_values : list Provider.
Variable isEmptyLyrics : option LyricsData → bool.
Variable parseKPoeFormat : JValue → LyricsData.
Variable numberToString : Qc → jsstring.
Variable toLowerCase : jsstring → jsstring.
Variable external : ∀ X, Op X → option (Result X).

(** Adds a task to the pool, after its first synchronous piece. *)
Definition add_task (owner : option nat) (m : Async Value) (c : Config)
    : Config :=
  let '(t, s) := m (shared c) in
  {| world := settle owner t (world c); shared := s;
     pool := pool c ++ [(owner, t)] |}.

(** Starts the registry calls made during the piece that just ran. *)
Definition start_pending (c : Config) : Config :=
  foldl (λ c pc,
           add_task (Some pc.1)
             (start_call PROVIDERS_values isEmptyLyrics parseKPoeFormat
                toLowerCase pc.2) c)
        {| world := world c; shared := clear_started (shared c);
           pool := pool c |}
        (started (shared c)).

Definition step (a : Action) (c : Config) : option Config :=
  match a with
  | invoke_getOrFetch songInfo forceReload =>
      Some (start_pending
              (add_task None
                 (LyricsService_getOrFetch CACHE_EXPIRY parseKPoeFormat
                    numberToString songInfo forceReload) c))
  | elapse ms =>
      if decide (0 ≤ ms)%Z then
        Some {| world := world c; shared := advance ms (shared c);
                pool := pool c |}
      else None
  | resume i =>
      '(owner, t) ← pool c !! i;
      match t with
      | Done _ => None
      | Suspended op k =>
          '(r, w) ← world_handler external _ op (world c);
          let '(t', s) := k r (shared c) in
          Some (start_pending
                  {| world := settle owner t' w; shared := s;
                     pool := <[i := (owner, t')]> (pool c) |})
      end
  end.

Fixpoint steps (schedule : list Action) (c : Config) : option Config :=
  match schedule with
  | [] => Some c
  | a :: rest => c' ← step a c; steps rest c'
  end.

End EventLoop.

(* ================================================================== *)
(** ** Invariants *)
(* ================================================================== *)

(** The line sent to the transformer for the slot [a] that [line] opens. *)
Definition apiLine_of (line : Line) (a : nat) : Line :=
  {| text := text line;
     original_line_index := Some a;
     chunk := if has_chunks line then chunk line else None |}.

(** What [prepareLyrics] has built once the lines [done] are processed;
    [keys] lists the content key of each slot, in the order the slots were
    opened. *)
Definition prepared_for (isPurelyLatinScript : jsstring → bool)
    (done : list Line) (st : Prepared) (keys : list jsstring) : Prop :=
  length (reconstructionPlan st) = length done
  ∧ length keys = length (lyricsForApi st)
  ∧ NoDup keys
  ∧ (∀ k a, contentToApiIndexMap st !! k = Some a ↔ keys !! a = Some k)
  ∧ (∀ a k, keys !! a = Some k →
       ∃ line, line ∈ done ∧ isPurelyLatinScript (text line) = false
               ∧ contentKey line = k
               ∧ lyricsForApi st !! a = Some (apiLine_of line a))
  ∧ (∀ j line, done !! j = Some line →
       if isPurelyLatinScript (text line)
       then reconstructionPlan st !! j = Some (latin line j)
       else ∃ a, reconstructionPlan st !! j = Some (api a j)
                 ∧ keys !! a = Some (contentKey line)).

(* ================================================================== *)
(** ** The shape contract of a response, as the design states it *)
(* ================================================================== *)

(** A chunk that is not empty: it has a text, a string, which is not
    blank. *)
Definition non_blank (c : JValue) : bool :=
  match prop c (u "text") with
  | Ok (JStr s) => negb (bool_decide (trim s = []))
  | _ => false
  end.

Definition chunk_texts (cs : list JValue) : list jsstring :=
  (λ c, match prop c (u "text") with Ok (JStr s) => s | _ => [] end) <$> cs.

(** At most 20% of edit distance over the longer length. *)
Definition within_20_percent (distance : jsstring → jsstring → nat)
    (a b : jsstring) : Prop :=
  a = b ∨ 100 * distance a b ≤ 20 * (length a `max` length b).

(** Clauses (b) to (f) for the line at position [index]. *)
Definition line_contract (normalizeText : JValue → Result jsstring)
    (levenshteinDistance : jsstring → jsstring → nat)
    (originalLine : Line) (index : nat) (romanizedLine : JValue) : Prop :=
  (* (b) the declared index is the position *)
  prop romanizedLine (u "original_line_index") = Ok (JNat index)
  ∧ ∃ t ch,
      (* (c) the text is a string *)
      prop romanizedLine (u "text") = Ok (JStr t)
      ∧ prop romanizedLine (u "chunk") = Ok ch
      ∧ if has_chunks originalLine then
          (* (d) a chunk array is present, (e) of the same count, with no
             empty chunk and the text not concentrated in one chunk out
             of several *)
          ∃ cs, ch = JArr cs
                ∧ length cs = length (default [] (chunk originalLine))
                ∧ forallb non_blank cs = true
                ∧ ¬ (length (filter (λ c, non_blank c = true) cs) = 1
                     ∧ 1 < length cs)
                (* (f) the chunks spell the text, up to 20% *)
                ∧ ∃ merged line,
                    normalizeText (JStr (concat (chunk_texts cs))) = Ok merged
                    ∧ normalizeText (JStr t) = Ok line
                    ∧ within_20_percent levenshteinDistance merged line
        else
          (* (d) no chunk array where the input has none *)
          isArray ch = false.

(** Clause (a), and the line clauses for every line. *)
Definition response_contract (normalizeText : JValue → Result jsstring)
    (levenshteinDistance : jsstring → jsstring → nat)
    (originalLyricsForApi : list Line) (geminiResponse : JValue) : Prop :=
  ∃ lines,
    prop geminiResponse (u "romanized_lyrics") = Ok (JArr lines)
    ∧ length lines = length originalLyricsForApi
    ∧ ∀ index romanizedLine originalLine,
        lines !! index = Some romanizedLine →
        originalLyricsForApi !! index = Some originalLine →
        line_contract normalizeText levenshteinDistance originalLine index
          romanizedLine.

(* ================================================================== *)
(** ** Outcomes of an attempt *)
(* ================================================================== *)

(** The attempt numbered [attempt], made from the loop state [st], gets a
    response that parses, and whose final form fails validation with
    [currentError] as first reported error. *)
Definition fails_validation_with
    (normalizeText : JValue → Result jsstring)
    (levenshteinDistance : jsstring → jsstring → nat)
    (numberToString : Qc → jsstring) (percentToFixed1 : nat → nat → jsstring)
    (merge_into_non_array : JValue → JValue → Result JValue)
    (callGeminiAPI : nat → list Turn → Schema → Result jsstring)
    (JSON_parse : jsstring → Result JValue)
    (lyricsForApi : list Line) (hasAnyChunks : bool)
    (attempt : nat) (st : LoopState) (currentError : jsstring) : Prop :=
  ∃ responseText parsedJson finalResponse validationResult,
    callGeminiAPI attempt (currentContents st)
      (schema_for hasAnyChunks attempt st) = Ok responseText
    ∧ JSON_parse responseText = Ok parsedJson
    ∧ finalResponse_of merge_into_non_array attempt st parsedJson
      = Ok finalResponse
    ∧ validate normalizeText levenshteinDistance numberToString
        percentToFixed1 lyricsForApi finalResponse = Ok validationResult
    ∧ isValid validationResult = false
    ∧ head (errors validationResult) = Some currentError.

(** The position a fixed line asks to replace, if its declared index
    denotes one. *)
Definition fix_target (fixedLine : JValue) : option nat :=
  match prop fixedLine (u "original_line_index") with
  | Ok index => toIndexKey index
  | Throw _ => None
  end.

(** A fixed line whose properties can be read (anything but [null]). *)
Definition readable (fixedLine : JValue) : Prop :=
  ∃ index, prop fixedLine (u "original_line_index") = Ok index.

(** The loop state an iteration leaves behind. *)
Definition state_after (s : Step) : LoopState :=
  match s with
  | Return _ st | Next st | Fail _ st => st
  end.


(* ================================================================== *)
(** ** Sample collaborators and documents *)
(* ================================================================== *)

(** Stand-ins for the collaborators, used to run the engine on examples. *)

(** A script test that accepts Basic Latin only. *)
Definition ascii_only (s : jsstring) : bool := forallb (λ c, (c <? 128)%N) s.

Definition sample_normalizeText (v : JValue) : Result jsstring :=
  match v with
  | JStr s => Ok (trim s)
  | _ => Throw (TypeError (u "normalizeText expects a string"))
  end.

(** Edit distance by the textbook recursion. *)
Fixpoint levenshtein (a : jsstring) : jsstring → nat :=
  match a with
  | [] => λ b, length b
  | x :: a' =>
      fix against (b : jsstring) : nat :=
        match b with
        | [] => length a
        | y :: b' =>
            if decide (x = y) then levenshtein a' b'
            else S ((levenshtein a' b `min` against b') `min` levenshtein a' b')
        end
  end.

Definition sample_numberToString (q : Qc) : jsstring :=
  match Qnum (this q) with
  | Zneg _ => u "-" ++ dec (Z.to_nat (- Qnum (this q)))
  | n => dec (Z.to_nat n)
  end.

Definition sample_percentToFixed1 (distance maxLength : nat) : jsstring :=
  dec (100 * distance / maxLength) ++ u ".0".

Definition sample_merge_into_non_array (_ _ : JValue) : Result JValue :=
  Throw (TypeError (u "Cannot assign to read only property")).

(** A transformer that answers the [n]-th attempt with the [n]-th entry
    of a script. *)
Definition scripted (script : list (Result jsstring))
    : nat → list Turn → Schema → Result jsstring :=
  λ attempt _ _,
    default (Throw (Error (u "Gemini API call failed"))) (script !! (attempt - 1)).

(** A parser that knows the texts of a table. *)
Definition table_parse (table : list (jsstring * JValue))
    : jsstring → Result JValue :=
  λ s,
    match list_find (λ e, e.1 = s) table with
    | Some (_, e) => Ok e.2
    | None => Throw (SyntaxError (u "Unexpected token"))
    end.

Definition default_settings : TranslationSettings :=
  {| overrideGeminiRomanizePrompt := false; customGeminiRomanizePrompt := [] |}.

Definition plain_line (t : jsstring) (i : nat) : Line :=
  {| text := t; original_line_index := Some i; chunk := None |}.

Definition response_line (t : jsstring) (i : nat) : JValue :=
  JObj [(u "text", JStr t); (u "original_line_index", JNat i)].

(** Two kana words. *)
Definition kon : jsstring := [12371; 12435]%N.
Definition nichi : jsstring := [12395; 12385]%N.

(** Four lines; the second and the fourth have the same content, the
    third is Latin. *)
Definition four_lines : list Line :=
  [plain_line kon 0; plain_line nichi 1; plain_line (u "hello") 2;
   plain_line nichi 3].

(** Four lines to romanize; the second and the fourth have the same
    content. *)
Definition wa : jsstring := [12399]%N.

Definition four_kana_lines : list Line :=
  [plain_line kon 0; plain_line nichi 1; plain_line wa 2; plain_line nichi 3].

(** A Latin line with syllable chunks. *)
Definition chunked_hello : Line :=
  {| text := u "hello";
     original_line_index := Some 0;
     chunk := Some [{| chunk_text := u "hel"; chunkIndex := Some 0 |};
                    {| chunk_text := u "lo"; chunkIndex := Some 1 |}] |}.

(** A Latin line as [reconstructLyrics] returns it when no line sent to
    the transformer has chunks. *)
Definition latin_line_out (line : Line) (i : nat) : JValue :=
  reconstructedLine [] false (latin line i).

Definition two_slots_response : JValue :=
  JObj [(u "romanized_lyrics",
         JArr [response_line (u "kon") 0; response_line (u "nichi") 1])].








(** A stored response whose second line is wrong, and two fixed lines:
    one for the second line, one aimed outside the array. *)
Definition stored_response : JValue :=
  JObj [(u "romanized_lyrics",
         JArr [response_line (u "kon") 0; response_line (u "niichi") 5])].

Definition sample_fixes : list JValue :=
  [response_line (u "nichi") 1; response_line (u "zzz") 7].

Definition sample_romanize (MAX_RETRIES : nat)
    (script : list (Result jsstring)) (table : list (jsstring * JValue))
    : list Line → Result (list (option JValue)) * LoopState :=
  romanize ascii_only sample_normalizeText levenshtein sample_numberToString
    sample_percentToFixed1 sample_merge_into_non_array MAX_RETRIES
    default_settings (scripted script) (table_parse table).

(** *** Sample services *)

Definition sample_CACHE_EXPIRY : gmap jsstring Z :=
  {[ u "aggressive" := 7200000%Z; u "moderate" := 3600000%Z ]}.

Definition sample_PROVIDERS : list Provider :=
  [KPOE; CUSTOM_KPOE; LRCLIB; LOCAL; GOOGLE; GEMINI].

Definition sample_isEmptyLyrics (l : option LyricsData) : bool :=
  match l with
  | Some d => match data d with [] => true | _ => false end
  | None => true
  end.

Definition sample_parseKPoeFormat (v : JValue) : LyricsData :=
  {| data := match v with JArr l => l | _ => [] end;
     metadata := None; translationMeta := None; other_properties := [] |}.

Definition sample_settings : LyricsSettings :=
  {| lyricsProvider := Some KPOE; lyricsSourceOrder := [];
     cacheStrategy := u "aggressive"; customKpoeUrl := [] |}.

Definition sample_doc : LyricsData :=
  {| data := [JObj [(u "text", JStr (u "la la"))]];
     metadata := None; translationMeta := None; other_properties := [] |}.

Definition sample_song : SongInfo :=
  {| title := Some (u "Song"); artist := Some (u "Artist"); album := None;
     duration := None; songId := None; videoId := None; subtitle := false |}.

Definition sample_key : jsstring :=
  createCacheKey sample_numberToString sample_song.

(** Settings are the sample ones, and the KPoe service always finds the
    sample document. *)
Definition sample_external : ∀ X, Op X → option (Result X) :=
  λ X op,
    match op in Op X return option (Result X) with
    | settingsGet => Some (Ok sample_settings)
    | getLyricsSettings => Some (Ok sample_settings)
    | KPoeService_fetch _ _ _ _ => Some (Ok (Some sample_doc))
    | _ => None
    end.

Definition empty_state (now : Z) : State :=
  {| cache := ∅; ongoing := ∅; now := now; next_promise := 0;
     started := []; history := [] |}.

Definition empty_world : World :=
  {| lyricsDB := ∅; translationsDB := ∅; localLyricsDB := []; settled := ∅;
     provider_requests := 0 |}.

(** A lyrics record stored at time 5000. *)
Definition sample_record : LyricsDBRecord :=
  {| lr_lyrics := sample_doc; lr_version := versionNumber 5000;
     lr_timestamp := 5000; lr_duration := None |}.

Definition world_with_record : World :=
  with_lyricsDB {[ sample_key := sample_record ]} empty_world.

(** A song info that [validateSongInfo] rejects: it is [null] or
    [undefined], or its title or its artist is missing or empty. *)
Definition lacks (field : option jsstring) : Prop :=
  field = None ∨ field = Some [].

Definition invalid_song_info (songInfo : option SongInfo) : Prop :=
  match songInfo with
  | None => True
  | Some info => lacks (title info) ∨ lacks (artist info)
  end.

Definition untitled_song : SongInfo :=
  {| title := Some []; artist := Some (u "Artist"); album := None;
     duration := None; songId := None; videoId := None; subtitle := false |}.

(** The memory cache holds no translation for [key] at version
    [originalVersion]: nothing under the key, or a record of another
    version. *)
Definition memory_misses (s : State) (key : jsstring)
    (originalVersion : Version) : Prop :=
  match cache s !! key with
  | None => True
  | Some (translationRecord r) => record_originalVersion r ≠ originalVersion
  | Some _ => False
  end.

#[global] Instance memory_misses_dec s key originalVersion :
  Decision (memory_misses s key originalVersion).
Proof.
  unfold memory_misses. destruct (cache s !! key) as [[ | r | ]|]; apply _.
Defined.

Definition translated_doc : LyricsData :=
  {| data := [JObj [(u "text", JStr (u "la la"));
                    (u "translatedText", JStr (u "ra ra"))]];
     metadata := None; translationMeta := None; other_properties := [] |}.

Definition translation_key : jsstring :=
  sample_key ++ u " - translate - en".

(** A translation made from the lyrics of version 5000. *)
Definition stale_translation : TranslationRecord :=
  {| translatedLyrics := translated_doc;
     record_originalVersion := versionNumber 5000 |}.

Definition state_with_stale_translation : State :=
  setCached translation_key (translationRecord stale_translation)
    (empty_state 9000).

Definition world_with_stale_translation : World :=
  with_translationsDB
    {[ translation_key :=
         {| tr_translatedLyrics := translated_doc;
            tr_originalVersion := versionNumber 5000 |} ]}
    empty_world.

(** *** The registry along a task *)

(** The part of the shared state the in-flight registry lives in. *)
Definition registry (s : State)
    : gmap jsstring nat * nat * list (nat * Call) * list RegistryEvent :=
  (ongoing s, next_promise s, started s, history s).

(** A task that leaves the registry as it finds it, whatever it is
    answered and whatever the shared state is when it continues. *)
Inductive quiet {R} : Task R → Prop :=
| quiet_Done r : quiet (Done r)
| quiet_Suspended {X} (op : Op X) k :
    (∀ r s, quiet (k r s).1) →
    (∀ r s, registry (k r s).2 = registry s) →
    quiet (Suspended op k).

Definition quiet_async {R} (m : Async R) : Prop :=
  ∀ s, quiet (m s).1 ∧ registry (m s).2 = registry s.

(** A task that is suspended, leaves the registry alone while it goes
    on, and on every path removes the entry of [key] in the piece that
    finishes it, and only there. *)
Inductive releases_when_settled (key : jsstring) {R} : Task R → Prop :=
| releases_Suspended {X} (op : Op X) k :
    (∀ r s,
       (∃ result s', k r s = (Done result, deleteOngoingFetch key s')
                     ∧ registry s' = registry s)
       ∨ (releases_when_settled key (k r s).1
          ∧ registry (k r s).2 = registry s)) →
    releases_when_settled key (Suspended op k).

(** *** Sample schedules *)

Definition initial_config : Config :=
  {| world := empty_world; shared := empty_state 1000; pool := [] |}.

Definition sample_steps : list Action → Config → option Config :=
  steps sample_CACHE_EXPIRY sample_PROVIDERS sample_isEmptyLyrics
    sample_parseKPoeFormat sample_numberToString id sample_external.

Definition outcome (t : option nat * Task Value) : option (Result Value) :=
  match t.2 with
  | Done r => Some r
  | Suspended _ _ => None
  end.

(** The first call (task 0) misses the caches and starts a fetch (task
    1), which sends its request to the provider. *)
Definition first_call_fetching : list Action :=
  [ invoke_getOrFetch (Some sample_song) false;
    resume 0; resume 0; resume 0;
    resume 1 ].

Definition fetch_in_flight : Config :=
  default initial_config (sample_steps first_call_fetching initial_config).

(** A second call (task 2) is made while the fetch is in flight and
    reaches the registry check before the fetch settles. *)
Definition second_call_joins : list Action :=
  first_call_fetching
  ++ [ invoke_getOrFetch (Some sample_song) false;
       resume 2; resume 2; resume 2;
       elapse 10;
       resume 1; resume 1;
       resume 0; resume 2 ].

(** A second call (task 2) is made while the fetch is in flight; it has
    read the persistent cache and is waiting for the local lyrics when
    the fetch settles, and reaches the registry check after that. *)
Definition second_call_late : list Action :=
  first_call_fetching
  ++ [ invoke_getOrFetch (Some sample_song) false;
       resume 2; resume 2;
       elapse 10;
       resume 1; resume 1;
       resume 2;
       resume 3;
       elapse 10;
       resume 3; resume 3;
       resume 0; resume 2 ].

(** The entry a fetch at time [t] gives. *)
Definition fetched_at (t : Z) : Value :=
  lyricsEntry {| lyrics := with_fetchedAt sample_doc t;
                 version := versionNumber t |}.

(* ================================================================== *)
(** ** Reading a quoted string back *)
(* ================================================================== *)

(** Value of a lower-case hexadecimal digit. *)
Definition hex_value (c : N) : N :=
  if (c <? 58)%N then (c - 48)%N else (c - 87)%N.

(** The character a two-unit escape stands for. *)
Definition unescape (x : N) : N :=
  if decide (x = 98%N) then 8%N
  else if decide (x = 116%N) then 9%N
  else if decide (x = 110%N) then 10%N
  else if decide (x = 102%N) then 12%N
  else if decide (x = 114%N) then 13%N
  else x.

(** Reads the inside of a string literal up to its closing quote, and
    returns the string it denotes with what follows the quote. *)
Fixpoint unquote_units (s : jsstring) : option (jsstring * jsstring) :=
  match s with
  | [] => None
  | c :: r =>
      if decide (c = 34%N) then Some ([], r)
      else if decide (c = 92%N) then
        match r with
        | x :: r1 =>
            if decide (x = 117%N) then
              match r1 with
              | h1 :: h2 :: h3 :: h4 :: r2 =>
                  '(t, rest) ← unquote_units r2;
                  Some ((4096 * hex_value h1 + 256 * hex_value h2
                         + 16 * hex_value h3 + hex_value h4)%N :: t, rest)
              | _ => None
              end
            else
              '(t, rest) ← unquote_units r1;
              Some (unescape x :: t, rest)
        | [] => None
        end
      else
        '(t, rest) ← unquote_units r;
        Some (c :: t, rest)
  end.

(** A decimal digit. *)
Definition is_digit (c : N) : Prop := (48 ≤ c ≤ 57)%N.

(** *** More sample services *)


Definition none_settings : LyricsSettings :=
  {| lyricsProvider := Some KPOE; lyricsSourceOrder := [];
     cacheStrategy := u "none"; customKpoeUrl := [] |}.

(** The cache strategy is 'none', and the KPoe service finds the sample
    document. *)
Definition none_external : ∀ X, Op X → option (Result X) :=
  λ X op,
    match op in Op X return option (Result X) with
    | settingsGet => Some (Ok none_settings)
    | getLyricsSettings => Some (Ok none_settings)
    | KPoeService_fetch _ _ _ _ => Some (Ok (Some sample_doc))
    | _ => None
    end.



(** Translation settings without a target override, and a translation
    provider that answers with the sample translation. *)
Definition translating_external : ∀ X, Op X → option (Result X) :=
  λ X op,
    match op in Op X return option (Result X) with
    | getTranslationSettings =>
        Some (Ok {| overrideTranslateTarget := false;
                    customTranslateTarget := [] |})
    | performTranslation _ _ _ =>
        Some (Ok {| result_data := Some (data translated_doc);
                    result_meta := None |})
    | _ => None
    end.

Definition empty_doc : LyricsData :=
  {| data := []; metadata := None; translationMeta := None;
     other_properties := [] |}.

(** The memory cache holds lyrics for the sample song: none, or the
    sample document fetched at time 1000. *)
Definition state_with_empty_lyrics : State :=
  setCached sample_key
    (lyricsEntry {| lyrics := empty_doc; version := versionNumber 1000 |})
    (empty_state 2000).

Definition state_with_lyrics : State :=
  setCached sample_key (fetched_at 1000) (empty_state 2000).

(* ================================================================== *)
(** ** Merging translated texts, and the display mode *)
(* ================================================================== *)

(** [{ ...line, translatedText: translatedTexts[index] || line.text }]:
    [line.text] is read only when the translated text is falsy. *)
Definition translated_line (translatedTexts : list JValue) (index : nat)
    (line : JValue) : Result JValue :=
  let translated := default JUndefined (translatedTexts !! index) in
  translatedText ←
    (if truthy translated then Ok translated else prop line (u "text"));
  Ok (JObj (set_field (spread line) (u "translatedText") translatedText)).

(** [originalLyrics.data.map((line, index) => ...)]: the lines are
    mapped in order, and the first exception ends the map. *)
Fixpoint map_indexed_from {A B} (f : nat → A → Result B) (i : nat)
    (l : list A) : Result (list B) :=
  match l with
  | [] => Ok []
  | x :: r => y ← f i x; r' ← map_indexed_from f (S i) r; Ok (y :: r')
  end.

(** [TranslationService.mergeTranslatedTexts]. *)
Definition mergeTranslatedTexts (originalLyrics : LyricsData)
    (translatedTexts : list JValue) : Result (list JValue) :=
  map_indexed_from (translated_line translatedTexts) 0 (data originalLyrics).

(** [determineFinalDisplayMode] of the lyrics manager. *)
Definition determineFinalDisplayMode (intendedMode : jsstring)
    (hasTranslation hasRomanization : bool) : jsstring :=
  let both_branch :=
    if bool_decide (intendedMode = u "both") then
      if hasTranslation && hasRomanization then Some (u "both")
      else if hasTranslation then Some (u "translate")
      else if hasRomanization then Some (u "romanize")
      else None
    else None in
  match both_branch with
  | Some mode => mode
  | None =>
      if bool_decide (intendedMode = u "translate") && hasTranslation then
        u "translate"
      else if bool_decide (intendedMode = u "romanize") && hasRomanization then
        u "romanize"
      else u "none"
  end.


(* ================================================================== *)
(** ** Choosing the translation provider *)
(* ================================================================== *)

(** The part of [TranslationSettings] that [translate] reads; the whole
    object goes to [GeminiService.translate]. *)
Record ProviderSettings := {
  translationProvider : option jsstring;
  geminiApiKey : option jsstring
}.

(** What [translateWithGoogle] resolves to. *)
Record GoogleResult := {
  google_data : list JValue;
  failedIndices : list nat
}.

Section Translate.

Variable toLowerCase : jsstring → jsstring.
(** [PROVIDERS.GEMINI] and [PROVIDERS.GOOGLE] of [constants.js]. *)
Variable PROVIDERS_GEMINI PROVIDERS_GOOGLE : jsstring.
(** The calls [translate] awaits, by their outcome: each is awaited
    where it is made. *)
Variable detectSourceLanguage : LyricsData → Result (option jsstring).
Variable GeminiService_translate :
  list JValue → jsstring → ProviderSettings → Result (list JValue).
Variable translateWithGoogle : LyricsData → jsstring → Result GoogleResult.

(** [line => ({ ...line, translatedText: line.text })]. *)
Definition own_text_line (line : JValue) : Result JValue :=
  text ← prop line (u "text");
  Ok (JObj (set_field (spread line) (u "translatedText") text)).

(** The body of the [try] block of [translate]. *)
Definition translate_with_gemini (originalLyrics : LyricsData)
    (targetLang : jsstring) (settings : ProviderSettings)
    : Result (list JValue) :=
  textsToTranslate ←
    mapM_result (λ line, prop line (u "text")) (data originalLyrics);
  translatedTexts ←
    GeminiService_translate textsToTranslate targetLang settings;
  mergeTranslatedTexts originalLyrics translatedTexts.

(** [TranslationService.translate]. *)
Definition TranslationService_translate (originalLyrics : LyricsData)
    (targetLang : jsstring) (settings : ProviderSettings)
    : Result TranslationResult :=
  let useGemini :=
    bool_decide (translationProvider settings = Some PROVIDERS_GEMINI)
    && truthy_string (geminiApiKey settings) in
  sourceLang ← detectSourceLanguage originalLyrics;
  let normalizedTarget := normalizeLanguageCode toLowerCase targetLang in
  let meta :=
    [(u "provider",
      JStr (if useGemini then PROVIDERS_GEMINI else PROVIDERS_GOOGLE));
     (u "sourceLang",
      JStr (if truthy_string sourceLang then default [] sourceLang
            else u "auto"));
     (u "fallbackUsed", JBool false);
     (u "skippedReason", JNull);
     (u "failedLines", JArr [])] in
  if truthy_string sourceLang
     && negb (bool_decide (normalizedTarget = []))
     && bool_decide (sourceLang = Some normalizedTarget)
  then
    let meta := set_field meta (u "provider") (JStr (u "pass-through")) in
    let meta :=
      set_field meta (u "skippedReason")
        (JStr (u "source-matches-target")) in
    data ← mapM_result own_text_line (data originalLyrics);
    Ok {| result_data := Some data; result_meta := Some meta |}
  else
    let google meta :=
      googleResult ← translateWithGoogle originalLyrics targetLang;
      let meta :=
        set_field meta (u "failedLines")
          (JArr (JNat <$> failedIndices googleResult)) in
      Ok {| result_data := Some (google_data googleResult);
            result_meta := Some meta |} in
    if useGemini then
      match translate_with_gemini originalLyrics targetLang settings with
      | Ok data => Ok {| result_data := Some data; result_meta := Some meta |}
      | Throw error =>
          let meta := set_field meta (u "fallbackUsed") (JBool true) in
          let meta := set_field meta (u "provider") (JStr PROVIDERS_GOOGLE) in
          google meta
      end
    else google meta.

End Translate.

(** Sample services for [TranslationService_translate]. *)
Definition gemini_settings : ProviderSettings :=
  {| translationProvider := Some (u "gemini");
     geminiApiKey := Some (u "key") |}.

Definition detects_english (originalLyrics : LyricsData)
    : Result (option jsstring) :=
  Ok (Some (u "en")).

Definition failing_gemini (texts : list JValue) (targetLang : jsstring)
    (settings : ProviderSettings) : Result (list JValue) :=
  Throw (Error (u "Gemini API error: 500 - unavailable")).

Definition echoing_google (originalLyrics : LyricsData)
    (targetLang : jsstring) : Result GoogleResult :=
  Ok {| google_data := data originalLyrics; failedIndices := [] |}.

Definition failing_google (originalLyrics : LyricsData)
    (targetLang : jsstring) : Result GoogleResult :=
  Throw (TypeError (u "Failed to fetch")).

(* ================================================================== *)
(** ** MessageHandler *)
(* ================================================================== *)

(** [try { body } catch (error) { handler }] in an [async] function. *)
Fixpoint catch_task {A} (t : Task A) (handler : JsError → Async A)
    (s : State) : Task A * State :=
  match t with
  | Done (Ok a) => (Done (Ok a), s)
  | Done (Throw error) => handler error s
  | Suspended op k =>
      (Suspended op
         (λ r s', let '(t', s'') := k r s' in catch_task t' handler s''), s)
  end.

Definition try_catch {A} (body : Async A) (handler : JsError → Async A)
    : Async A :=
  λ s, let '(t, s') := body s in catch_task t handler s'.

(** The properties of a [BackgroundMessage] that the lyrics and the
    translation handlers read. *)
Record BackgroundMessage := {
  message_songInfo : option SongInfo;
  message_forceReload : bool;
  message_action : jsstring;
  message_targetLang : jsstring
}.

(** The object a handler passes to [sendResponse]; a property that the
    object does not have, or that is [undefined], is [None]. *)
Record Response := {
  success : bool;
  response_error : option jsstring;
  response_lyrics : option LyricsData;
  response_translatedLyrics : option Value;
  response_metadata : option SongInfo
}.

(** [MessageHandler.toErrorMessage]: every exception of the model is an
    instance of [Error]. *)
Definition toErrorMessage (error : JsError) : jsstring := error_message error.

Section Handlers.

Variable CACHE_EXPIRY : gmap jsstring Z.
Variable isEmptyLyrics : option LyricsData → bool.
Variable parseKPoeFormat : JValue → LyricsData.
Variable numberToString : Qc → jsstring.

(** [MessageHandler.fetchLyrics]: the task ends with the response it
    has passed to [sendResponse], which is the last statement of the
    [try] block and of the [catch] block. *)
Definition MessageHandler_fetchLyrics (message : BackgroundMessage)
    : Async Response :=
  try_catch
    (result ←
       LyricsService_getOrFetch CACHE_EXPIRY parseKPoeFormat numberToString
         (message_songInfo message) (message_forceReload message);
     let lyrics :=
       match result with lyricsEntry e => Some (lyrics e) | _ => None end in
     mret {| success := true; response_error := None;
             response_lyrics := lyrics; response_translatedLyrics := None;
             response_metadata := message_songInfo message |})
    (λ error,
       let errorMessage := toErrorMessage error in
       mret {| success := false; response_error := Some errorMessage;
               response_lyrics := None; response_translatedLyrics := None;
               response_metadata := message_songInfo message |}).

(** [MessageHandler.translateLyrics]. *)
Definition MessageHandler_translateLyrics (message : BackgroundMessage)
    : Async Response :=
  try_catch
    (translatedLyrics ←
       TranslationService_getOrFetch CACHE_EXPIRY isEmptyLyrics
         parseKPoeFormat numberToString (message_songInfo message)
         (message_action message) (message_targetLang message)
         (message_forceReload message);
     mret {| success := true; response_error := None;
             response_lyrics := None;
             response_translatedLyrics := Some translatedLyrics;
             response_metadata := None |})
    (λ error,
       let errorMessage := toErrorMessage error in
       mret {| success := false; response_error := Some errorMessage;
               response_lyrics := None; response_translatedLyrics := None;
               response_metadata := None |}).

End Handlers.
(* ================================================================== *)
(** * Properties *)
(* ================================================================== *)

Arguments u : simpl never.
Arguments dec : simpl never.

(** ** Objects and arrays *)

Lemma get_set_field fs k v : get_field (set_field fs k v) k = v.
Proof.
  induction fs as [|[k' v'] fs IH]; simpl.
  - by rewrite decide_True.
  - destruct (decide (k' = k)) as [->|Hne]; simpl.
    + by rewrite decide_True.
    + by rewrite decide_False.
Qed.

Lemma get_set_field_ne fs k k' v :
  k ≠ k' → get_field (set_field fs k v) k' = get_field fs k'.
Proof.
  intros Hne. induction fs as [|[k0 v0] fs IH]; simpl.
  - by rewrite decide_False.
  - destruct (decide (k0 = k)) as [->|Hne0]; simpl.
    + by rewrite !decide_False.
    + destruct (decide (k0 = k')); done.
Qed.

Lemma array_set_end {A} (a : list (option A)) (x : A) :
  array_set a (length a) x = a ++ [Some x].
Proof.
  unfold array_set. rewrite decide_False by lia.
  by rewrite Nat.sub_diag.
Qed.

Lemma forEach_pure_from_app {A St} (body : St → A → nat → St) i l1 l2 s :
  forEach_pure_from body i (l1 ++ l2) s
  = forEach_pure_from body (i + length l1) l2 (forEach_pure_from body i l1 s).
Proof.
  revert i s. induction l1 as [|x l1 IH]; intros i s; simpl.
  - by rewrite Nat.add_0_r.
  - rewrite IH. f_equal. lia.
Qed.

(** ** Reconstruction follows the plan *)

(** When the plan lists the original indices in order, the write at
    [originalIndex] is a push. *)
Lemma reconstruct_from romanizedApiLyrics hasAnyChunks plan acc :
  (∀ j item, plan !! j = Some item → originalIndex item = length acc + j) →
  foldl (λ fullList planItem,
           array_set fullList (originalIndex planItem)
             (reconstructedLine romanizedApiLyrics hasAnyChunks planItem))
        acc plan
  = acc ++ ((λ item, Some (reconstructedLine romanizedApiLyrics hasAnyChunks item))
            <$> plan).
Proof.
  revert acc. induction plan as [|item plan IH]; intros acc Hidx; simpl.
  - by rewrite app_nil_r.
  - rewrite (Hidx 0 item eq_refl), Nat.add_0_r, array_set_end.
    rewrite IH.
    + by rewrite <- app_assoc.
    + intros j item' Hj. rewrite length_app. simpl.
      rewrite (Hidx (S j) item' Hj). lia.
Qed.

Lemma reconstructLyrics_ordered romanizedApiLyrics hasAnyChunks plan :
  (∀ j item, plan !! j = Some item → originalIndex item = j) →
  reconstructLyrics romanizedApiLyrics plan hasAnyChunks
  = (λ item, Some (reconstructedLine romanizedApiLyrics hasAnyChunks item))
    <$> plan.
Proof.
  intros Hidx. unfold reconstructLyrics.
  by rewrite reconstruct_from.
Qed.

Lemma reconstructedLine_index romanizedApiLyrics hasAnyChunks item :
  prop (reconstructedLine romanizedApiLyrics hasAnyChunks item)
       (u "original_line_index")
  = Ok (JNat (originalIndex item)).
Proof.
  destruct item; simpl; by rewrite get_set_field.
Qed.

(** ** Preparation *)

Section PreparationFacts.

Variable isPurelyLatinScript : jsstring → bool.

Lemma prepared_for_step done st keys line :
  prepared_for isPurelyLatinScript done st keys →
  ∃ keys',
    prepared_for isPurelyLatinScript (done ++ [line])
      (prepare_line isPurelyLatinScript st line (length done)) keys'.
Proof.
  intros (Hlen & Hkeys & Hnodup & Hmap & Hslot & Hplan).
  unfold prepare_line.
  destruct (isPurelyLatinScript (text line)) eqn:Hlatin.
  - (* a Latin line: no slot is touched *)
    exists keys. repeat split; simpl; try done.
    + rewrite !length_app. simpl. lia.
    + by apply Hmap.
    + by apply Hmap.
    + intros a k Ha. destruct (Hslot a k Ha) as (l & Hl & ?).
      exists l. split; [apply elem_of_app; by left | done].
    + intros j l Hj. apply lookup_app_Some in Hj as [Hj|[Hge Hj]].
      * specialize (Hplan j l Hj). destruct (isPurelyLatinScript (text l)).
        -- rewrite lookup_app_l; [done|]. rewrite Hlen. by eapply lookup_lt_Some.
        -- destruct Hplan as (a & Ha & Hk). exists a. split; [|done].
           rewrite lookup_app_l; [done|]. rewrite Hlen. by eapply lookup_lt_Some.
      * apply list_lookup_singleton_Some in Hj as [Hj ->].
        assert (j = length done) as -> by lia.
        rewrite Hlatin, lookup_app_r by lia.
        by rewrite Hlen, Nat.sub_diag.
  - destruct (contentToApiIndexMap st !! contentKey line) as [a|] eqn:Hkey.
    + (* the content already has a slot *)
      exists keys. repeat split; simpl; try done.
      * rewrite !length_app. simpl. lia.
      * by apply Hmap.
      * by apply Hmap.
      * intros a' k Ha. destruct (Hslot a' k Ha) as (l & Hl & ?).
        exists l. split; [apply elem_of_app; by left | done].
      * intros j l Hj. apply lookup_app_Some in Hj as [Hj|[Hge Hj]].
        -- specialize (Hplan j l Hj). destruct (isPurelyLatinScript (text l)).
           ++ rewrite lookup_app_l; [done|]. rewrite Hlen. by eapply lookup_lt_Some.
           ++ destruct Hplan as (a' & Ha & Hk). exists a'. split; [|done].
              rewrite lookup_app_l; [done|]. rewrite Hlen. by eapply lookup_lt_Some.
        -- apply list_lookup_singleton_Some in Hj as [Hj ->].
           assert (j = length done) as -> by lia.
           rewrite Hlatin. exists a. split.
           ++ rewrite lookup_app_r by lia. by rewrite Hlen, Nat.sub_diag.
           ++ by apply Hmap.
    + (* a new slot *)
      assert (contentKey line ∉ keys) as Hfresh.
      { intros Hin. apply list_elem_of_lookup in Hin as [a Ha].
        apply Hmap in Ha. congruence. }
      exists (keys ++ [contentKey line]). repeat split; simpl.
      * rewrite !length_app. simpl. lia.
      * rewrite !length_app. simpl. lia.
      * apply NoDup_app. repeat split; [done| |apply NoDup_singleton].
        intros k Hk Hk'. apply list_elem_of_singleton in Hk'. by subst.
      * intros Hk. destruct (decide (contentKey line = k)) as [<-|Hne].
        -- rewrite lookup_insert_eq in Hk. injection Hk as <-.
           rewrite lookup_app_r by lia. by rewrite Hkeys, Nat.sub_diag.
        -- rewrite lookup_insert_ne in Hk by done. apply Hmap in Hk.
           rewrite lookup_app_l; [done|]. by eapply lookup_lt_Some.
      * intros Hk. apply lookup_app_Some in Hk as [Hk|[Hge Hk]].
        -- assert (contentKey line ≠ k) as Hne.
           { intros <-. apply Hfresh. by eapply list_elem_of_lookup_2. }
           rewrite lookup_insert_ne by done. by apply Hmap.
        -- apply list_lookup_singleton_Some in Hk as [Hk <-].
           rewrite lookup_insert_eq. f_equal. lia.
      * intros a k Ha. apply lookup_app_Some in Ha as [Ha|[Hge Ha]].
        -- destruct (Hslot a k Ha) as (l & Hl & Hnl & Hck & Hline).
           exists l. repeat split; [apply elem_of_app; by left|done..|].
           rewrite lookup_app_l; [done|]. by eapply lookup_lt_Some.
        -- apply list_lookup_singleton_Some in Ha as [Ha <-].
           exists line. repeat split; [apply elem_of_app; right; by apply list_elem_of_singleton|done..|].
           assert (a = length (lyricsForApi st)) as -> by lia.
           rewrite lookup_app_r by lia. by rewrite Nat.sub_diag.
      * intros j l Hj. apply lookup_app_Some in Hj as [Hj|[Hge Hj]].
        -- specialize (Hplan j l Hj). destruct (isPurelyLatinScript (text l)).
           ++ rewrite lookup_app_l; [done|]. rewrite Hlen. by eapply lookup_lt_Some.
           ++ destruct Hplan as (a' & Ha & Hk). exists a'. split.
              ** rewrite lookup_app_l; [done|]. rewrite Hlen. by eapply lookup_lt_Some.
              ** rewrite lookup_app_l; [done|]. by eapply lookup_lt_Some.
        -- apply list_lookup_singleton_Some in Hj as [Hj ->].
           assert (j = length done) as -> by lia.
           rewrite Hlatin. exists (length (lyricsForApi st)). split.
           ++ rewrite lookup_app_r by lia. by rewrite Hlen, Nat.sub_diag.
           ++ rewrite lookup_app_r by lia. by rewrite Hkeys, Nat.sub_diag.
Qed.

Lemma prepared_for_from rest done st keys :
  prepared_for isPurelyLatinScript done st keys →
  ∃ keys',
    prepared_for isPurelyLatinScript (done ++ rest)
      (forEach_pure_from (prepare_line isPurelyLatinScript) (length done)
         rest st) keys'.
Proof.
  revert done st keys. induction rest as [|line rest IH];
    intros done st keys Hinv; simpl.
  - rewrite app_nil_r. by exists keys.
  - destruct (prepared_for_step done st keys line Hinv) as [keys1 Hstep].
    destruct (IH _ _ _ Hstep) as [keys2 Hrest].
    exists keys2. rewrite length_app in Hrest. simpl in Hrest.
    by rewrite Nat.add_1_r, <- app_assoc in Hrest.
Qed.

Lemma prepareLyrics_spec structuredInput :
  ∃ keys,
    prepared_for isPurelyLatinScript structuredInput
      (prepareLyrics isPurelyLatinScript structuredInput) keys.
Proof.
  apply (prepared_for_from structuredInput [] _ []).
  repeat split; simpl; try done.
  apply NoDup_nil_2.
Qed.

Lemma plan_lookup done st keys j item :
  prepared_for isPurelyLatinScript done st keys →
  reconstructionPlan st !! j = Some item → originalIndex item = j.
Proof.
  intros (Hlen & _ & _ & _ & _ & Hplan) Hj.
  assert (j < length done) as Hlt.
  { rewrite <- Hlen. by eapply lookup_lt_Some. }
  destruct (lookup_lt_is_Some_2 done j Hlt) as [line Hline].
  specialize (Hplan j line Hline).
  destruct (isPurelyLatinScript (text line)).
  - rewrite Hplan in Hj. by injection Hj as <-.
  - destruct Hplan as (a & Ha & _). rewrite Ha in Hj. by injection Hj as <-.
Qed.

Lemma plan_indices structuredInput :
  originalIndex
  <$> reconstructionPlan (prepareLyrics isPurelyLatinScript structuredInput)
  = seq 0 (length structuredInput).
Proof.
  destruct (prepareLyrics_spec structuredInput) as [keys Hinv].
  pose proof Hinv as (Hlen & _).
  apply list_eq. intros j. rewrite list_lookup_fmap.
  destruct (decide (j < length structuredInput)) as [Hlt|Hge].
  - rewrite lookup_seq_lt by done. simpl.
    destruct (lookup_lt_is_Some_2 (reconstructionPlan
                (prepareLyrics isPurelyLatinScript structuredInput)) j)
      as [item Hitem]; [by rewrite Hlen|].
    rewrite Hitem. simpl. f_equal. by eapply plan_lookup.
  - rewrite lookup_seq_ge by lia.
    rewrite lookup_ge_None_2; [done|]. rewrite Hlen. lia.
Qed.

End PreparationFacts.

(** ** The conversation loop *)

Section RomanizeFacts.

Variable isPurelyLatinScript : jsstring → bool.
Variable normalizeText : JValue → Result jsstring.
Variable levenshteinDistance : jsstring → jsstring → nat.
Variable numberToString : Qc → jsstring.
Variable percentToFixed1 : nat → nat → jsstring.
Variable merge_into_non_array : JValue → JValue → Result JValue.
Variable MAX_RETRIES : nat.
Variable settings : TranslationSettings.
Variable callGeminiAPI : nat → list Turn → Schema → Result jsstring.
Variable JSON_parse : jsstring → Result JValue.

Local Abbreviation validate' :=
  (validate normalizeText levenshteinDistance numberToString percentToFixed1).
Local Abbreviation attempt_step' :=
  (attempt_step normalizeText levenshteinDistance numberToString
     percentToFixed1 merge_into_non_array MAX_RETRIES callGeminiAPI
     JSON_parse).
Local Abbreviation attempts' :=
  (attempts normalizeText levenshteinDistance numberToString
     percentToFixed1 merge_into_non_array MAX_RETRIES callGeminiAPI
     JSON_parse).
Local Abbreviation romanize' :=
  (romanize isPurelyLatinScript normalizeText levenshteinDistance
     numberToString percentToFixed1 merge_into_non_array MAX_RETRIES
     settings callGeminiAPI JSON_parse).

Lemma catch_block_not_Return attempt st e out st' :
  catch_block MAX_RETRIES attempt st e ≠ Return out st'.
Proof. unfold catch_block. repeat case_match; done. Qed.

(** A result is only ever returned for a response that passed
    validation, and it is the reconstruction of that response. *)
Lemma attempt_step_Return lfa plan h ip attempt st out st' :
  attempt_step' lfa plan h ip attempt st = Return out st' →
  ∃ finalResponse romanized_lyrics vr,
    validate' lfa finalResponse = Ok vr
    ∧ isValid vr = true
    ∧ prop finalResponse (u "romanized_lyrics") = Ok (JArr romanized_lyrics)
    ∧ out = reconstructLyrics romanized_lyrics plan h.
Proof.
  unfold attempt_step. cbv zeta. intros Hstep.
  repeat case_match;
    try (by apply catch_block_not_Return in Hstep);
    try discriminate.
  all: injection Hstep as <- _; eauto 10.
Qed.

Lemma attempts_Ok lfa plan h ip remaining attempt st out st' :
  attempts' lfa plan h ip remaining attempt st = (Ok out, st') →
  ∃ finalResponse romanized_lyrics vr,
    validate' lfa finalResponse = Ok vr
    ∧ isValid vr = true
    ∧ prop finalResponse (u "romanized_lyrics") = Ok (JArr romanized_lyrics)
    ∧ out = reconstructLyrics romanized_lyrics plan h.
Proof.
  revert attempt st. induction remaining as [|remaining IH];
    intros attempt st Hrun; simpl in Hrun; [done|].
  destruct (attempt_step' lfa plan h ip attempt st) eqn:Hstep.
  - injection Hrun as <- <-. by eapply attempt_step_Return.
  - by eapply IH.
  - done.
Qed.

End RomanizeFacts.

(** ** The validator *)

Lemma strict_eq_nat_true v n : strict_eq_nat v n = true ↔ v = JNat n.
Proof.
  unfold strict_eq_nat, JNat. destruct v; try (split; [done|by intros [=]]).
  rewrite bool_decide_eq_true. split; [by intros ->|by intros [=]].
Qed.

Lemma isString_true v : isString v = true ↔ ∃ s, v = JStr s.
Proof. destruct v; simpl; split; try done; try (by intros [? [=]]); eauto. Qed.

Lemma is_empty_chunk_Ok c b :
  is_empty_chunk c = Ok b →
  b = negb (non_blank c) ∧ is_non_empty_chunk c = Ok (non_blank c).
Proof.
  unfold is_empty_chunk, is_non_empty_chunk, non_blank.
  destruct (prop c (u "text")) as [t|e]; simpl; [|done].
  destruct t; simpl; try (by intros [= <-]); try done.
  - destruct b0; simpl; [done|]. by intros [= <-].
  - destruct (negb (bool_decide (q = 0%Qc))); simpl; [done|]. by intros [= <-].
  - destruct (negb (bool_decide (s = []))) eqn:Hs; simpl.
    + intros [= <-]. by rewrite negb_involutive.
    + intros [= <-]. apply negb_false_iff, bool_decide_eq_true in Hs as ->.
      done.
Qed.

Lemma non_blank_chunk c :
  non_blank c = true →
  is_empty_chunk c = Ok false ∧ is_non_empty_chunk c = Ok true
  ∧ ∃ s, prop c (u "text") = Ok (JStr s) ∧ truthy (JStr s) = true.
Proof.
  unfold is_empty_chunk, is_non_empty_chunk, non_blank.
  destruct (prop c (u "text")) as [t|e]; simpl; [|done].
  destruct t; try done. intros Hs.
  assert (s ≠ []) as Hne.
  { intros ->. by rewrite bool_decide_eq_true_2 in Hs. }
  simpl. rewrite (bool_decide_eq_false_2 (s = [])) by done. simpl.
  rewrite Hs. apply negb_true_iff in Hs. rewrite Hs.
  repeat split. exists s. split; [done|].
  by rewrite bool_decide_eq_false_2.
Qed.

Lemma filterM_chunks cs l :
  filterM is_empty_chunk cs = Ok l →
  l = filter (λ c, non_blank c = false) cs
  ∧ filterM is_non_empty_chunk cs = Ok (filter (λ c, non_blank c = true) cs).
Proof.
  revert l. induction cs as [|c cs IH]; intros l; simpl.
  - by intros [= <-].
  - destruct (is_empty_chunk c) as [b|e] eqn:Hc; simpl; [|done].
    destruct (filterM is_empty_chunk cs) as [l'|e] eqn:Hcs; simpl; [|done].
    intros [= <-]. destruct (IH l' eq_refl) as [-> Hne].
    apply is_empty_chunk_Ok in Hc as [-> Hc']. rewrite Hc', Hne. simpl.
    rewrite !filter_cons. by destruct (non_blank c).
Qed.

Lemma forallb_non_blank_filter cs :
  filter (λ c, non_blank c = false) cs = [] → forallb non_blank cs = true.
Proof.
  induction cs as [|c cs IH]; [done|]. rewrite filter_cons. simpl.
  case_decide as Hc; [done|]. intros Hcs.
  rewrite (IH Hcs). by destruct (non_blank c).
Qed.

Lemma filter_non_blank_all cs :
  forallb non_blank cs = true →
  filter (λ c, non_blank c = false) cs = []
  ∧ filter (λ c, non_blank c = true) cs = cs.
Proof.
  induction cs as [|c cs IH]; [done|]. rewrite !filter_cons. simpl.
  intros [Hc Hcs]%andb_true_iff.
  rewrite decide_False by congruence. rewrite decide_True by done.
  destruct (IH Hcs) as [-> ->]. done.
Qed.

Lemma filterM_non_blank cs :
  forallb non_blank cs = true →
  filterM is_empty_chunk cs = Ok []
  ∧ filterM is_non_empty_chunk cs = Ok cs.
Proof.
  induction cs as [|c cs IH]; [done|]. simpl.
  intros [Hc Hcs]%andb_true_iff.
  destruct (non_blank_chunk c Hc) as (-> & -> & _).
  destruct (IH Hcs) as [-> ->]. done.
Qed.

Section ValidatorFacts.

Variable normalizeText : JValue → Result jsstring.
Variable levenshteinDistance : jsstring → jsstring → nat.
Variable numberToString : Qc → jsstring.
Variable percentToFixed1 : nat → nat → jsstring.

Local Abbreviation ToString' := (ToString numberToString).
Local Abbreviation validateTextCoherence' :=
  (validateTextCoherence normalizeText levenshteinDistance numberToString
     percentToFixed1).
Local Abbreviation validateChunkDistribution' :=
  (validateChunkDistribution normalizeText levenshteinDistance numberToString
     percentToFixed1).
Local Abbreviation validate_line' :=
  (validate_line normalizeText levenshteinDistance numberToString
     percentToFixed1).
Local Abbreviation validate' :=
  (validate normalizeText levenshteinDistance numberToString percentToFixed1).

Lemma join_empty_strings l :
  join_empty numberToString (JStr <$> l) = concat l.
Proof.
  unfold join_empty. induction l as [|s l IH]; [done|].
  rewrite fmap_cons, map_cons, concat_cons. simpl. by f_equal.
Qed.

Lemma mapM_chunk_texts cs :
  forallb non_blank cs = true →
  mapM_result (λ c, t ← prop c (u "text"); Ok (or_empty t)) cs
  = Ok (JStr <$> chunk_texts cs).
Proof.
  induction cs as [|c cs IH]; [done|].
  intros H. simpl in H. apply andb_true_iff in H as [Hc Hcs].
  cbn [mapM_result]. rewrite (IH Hcs).
  destruct (non_blank_chunk c Hc) as (_ & _ & s & Hs & Ht).
  unfold chunk_texts. rewrite fmap_cons, Hs. simpl.
  unfold or_empty. by rewrite Ht.
Qed.

Lemma exceeds_20_percent_false a b :
  a ≠ b →
  exceeds_20_percent (levenshteinDistance a b) (length a `max` length b) = false
  ↔ 100 * levenshteinDistance a b ≤ 20 * (length a `max` length b).
Proof.
  intros Hne. unfold exceeds_20_percent.
  destruct (decide (length a `max` length b = 0)) as [Hz|Hnz].
  - destruct a, b; simpl in *; try lia. done.
  - rewrite bool_decide_eq_false. lia.
Qed.

(** The coherence check on a line whose chunks are all non-blank and
    whose text is a string. *)
Lemma validateTextCoherence_spec romanizedLine lineIndex cs t :
  prop romanizedLine (u "chunk") = Ok (JArr cs) →
  prop romanizedLine (u "text") = Ok (JStr t) →
  forallb non_blank cs = true →
  validateTextCoherence' romanizedLine lineIndex = Ok []
  ↔ ∃ merged line,
      normalizeText (JStr (concat (chunk_texts cs))) = Ok merged
      ∧ normalizeText (JStr t) = Ok line
      ∧ within_20_percent levenshteinDistance merged line.
Proof.
  intros Hch Ht Hcs. unfold validateTextCoherence.
  rewrite Hch. cbn [mbind Result_bind as_array].
  rewrite (mapM_chunk_texts cs Hcs). cbn [mbind Result_bind].
  rewrite join_empty_strings, Ht. cbn [mbind Result_bind].
  assert (or_empty (JStr t) = JStr t) as ->.
  { unfold or_empty. simpl. by destruct t. }
  destruct (normalizeText (JStr (concat (chunk_texts cs)))) as [merged|e];
    simpl; [|split; [done|by intros (? & ? & [=] & _)]].
  destruct (normalizeText (JStr t)) as [line|e];
    simpl; [|split; [done|by intros (? & ? & _ & [=] & _)]].
  destruct (decide (merged ≠ line)) as [Hne|Heq].
  - destruct (exceeds_20_percent _ _) eqn:Hex.
    + split; [done|]. intros (? & ? & [= <-] & [= <-] & [Heq|Hle]); [done|].
      apply exceeds_20_percent_false in Hle; [|done]. congruence.
    + split; [|done]. intros _. exists merged, line. repeat split.
      right. by apply exceeds_20_percent_false.
  - split; [|done]. intros _. exists merged, line. repeat split.
    left. by destruct (decide (merged = line)).
Qed.

Lemma validateChunkDistribution_spec originalLine romanizedLine lineIndex cs t :
  prop romanizedLine (u "chunk") = Ok (JArr cs) →
  prop romanizedLine (u "text") = Ok (JStr t) →
  validateChunkDistribution' originalLine romanizedLine lineIndex = Ok []
  ↔ forallb non_blank cs = true
    ∧ ¬ (length (filter (λ c, non_blank c = true) cs) = 1 ∧ 1 < length cs)
    ∧ ∃ merged line,
        normalizeText (JStr (concat (chunk_texts cs))) = Ok merged
        ∧ normalizeText (JStr t) = Ok line
        ∧ within_20_percent levenshteinDistance merged line.
Proof.
  intros Hch Ht. unfold validateChunkDistribution.
  rewrite Hch. cbn [mbind Result_bind as_array]. split.
  - destruct (filterM is_empty_chunk cs) as [l|e] eqn:Hl;
      cbn [mbind Result_bind]; [|done].
    apply filterM_chunks in Hl as [-> ->]. cbn [mbind Result_bind].
    destruct (validateTextCoherence' romanizedLine lineIndex) as [coh|e] eqn:Hcoh;
      cbn [mbind Result_bind]; [|done].
    intros [= Herr]. apply app_eq_nil in Herr as [He1 Herr].
    apply app_eq_nil in Herr as [He2 ->].
    assert (forallb non_blank cs = true) as Hall.
    { apply forallb_non_blank_filter.
      destruct (decide (0 < length (filter (λ c, non_blank c = false) cs)))
        as [Hlen|Hlen]; [done|].
      destruct (filter (λ c, non_blank c = false) cs); [done|simpl in Hlen; lia]. }
    split; [done|]. split.
    + by destruct (decide (length (filter (λ c, non_blank c = true) cs) = 1
                           ∧ 1 < length cs)).
    + by eapply validateTextCoherence_spec.
  - intros (Hall & Hconc & Hcoh).
    destruct (filterM_non_blank cs Hall) as [-> ->].
    cbn [mbind Result_bind].
    apply (validateTextCoherence_spec romanizedLine lineIndex) in Hcoh as ->;
      [|done..].
    cbn [mbind Result_bind]. simpl.
    rewrite decide_False; [done|].
    intros [Hone Hmany]. lia.
Qed.

(** A line that meets its contract adds no error. *)
Lemma validate_line_contract orig acc romanizedLine index originalLine :
  orig !! index = Some originalLine →
  line_contract normalizeText levenshteinDistance originalLine index
    romanizedLine →
  validate_line' orig acc romanizedLine index = Ok acc.
Proof.
  intros Ho (Hidx & t & ch & Ht & Hch & Hchunks).
  unfold validate_line. rewrite Ho, Hidx. cbn [mbind Result_bind].
  rewrite Ht. cbn [mbind Result_bind]. rewrite Hch. cbn [mbind Result_bind].
  assert (strict_eq_nat (JNat index) index = true) as ->
    by by apply strict_eq_nat_true.
  simpl isString. cbv iota.
  destruct (has_chunks originalLine).
  - destruct Hchunks as (cs & -> & Hlen & Hrest). simpl.
    rewrite decide_False by lia.
    apply (validateChunkDistribution_spec originalLine romanizedLine index)
      in Hrest as ->; [|done..].
    cbn [mbind Result_bind]. simpl. rewrite !app_nil_r. by destruct acc.
  - rewrite Hchunks. simpl. rewrite !app_nil_r. by destruct acc.
Qed.

(** Errors only accumulate, and a line that adds none meets its
    contract. *)
Lemma validate_line_Ok orig acc romanizedLine index originalLine acc' :
  orig !! index = Some originalLine →
  validate_line' orig acc romanizedLine index = Ok acc' →
  ∃ lineErrors,
    acc'.1 = acc.1 ++ lineErrors
    ∧ (lineErrors = [] →
       line_contract normalizeText levenshteinDistance originalLine index
         romanizedLine).
Proof.
  intros Ho. unfold validate_line. rewrite Ho.
  destruct (prop romanizedLine (u "original_line_index")) as [idx|e] eqn:Hidx;
    cbn [mbind Result_bind]; [|done].
  destruct (prop romanizedLine (u "text")) as [t|e] eqn:Ht;
    cbn [mbind Result_bind]; [|done].
  destruct (prop romanizedLine (u "chunk")) as [ch|e] eqn:Hch;
    cbn [mbind Result_bind]; [|done].
  match goal with
  | |- context [?e3 ≫= _] => destruct e3 as [e3v|e] eqn:He3
  end; cbn [mbind Result_bind]; [|done].
  intros [= <-]. eexists. split; [done|].
  intros Herr. apply app_eq_nil in Herr as [He1 Herr].
  apply app_eq_nil in Herr as [He2 ->].
  destruct (strict_eq_nat idx index) eqn:Hi; [|done].
  apply strict_eq_nat_true in Hi as ->.
  destruct (isString t) eqn:Hs; [|done].
  apply isString_true in Hs as [s ->].
  split; [done|]. exists s, ch. split; [done|]. split; [done|].
  destruct (has_chunks originalLine); simpl in He3.
  - destruct (isArray ch) eqn:Harr; simpl in He3; [|done].
    destruct ch; try done. simpl in He3.
    case_decide as Hlen; [done|].
    exists elements. split; [done|]. split; [lia|].
    by eapply validateChunkDistribution_spec.
  - destruct (isArray ch); [done|done].
Qed.

Lemma validate_line_skip orig acc romanizedLine index :
  orig !! index = None →
  validate_line' orig acc romanizedLine index = Ok acc.
Proof. intros Ho. unfold validate_line. by rewrite Ho. Qed.

Lemma forEach_validate_contract orig lines i acc :
  (∀ k romanizedLine originalLine,
     lines !! k = Some romanizedLine →
     orig !! (i + k) = Some originalLine →
     line_contract normalizeText levenshteinDistance originalLine (i + k)
       romanizedLine) →
  forEach_from (validate_line' orig) i lines acc = Ok acc.
Proof.
  revert i. induction lines as [|romanizedLine lines IH]; intros i Hall;
    cbn [forEach_from]; [done|].
  assert (validate_line' orig acc romanizedLine i = Ok acc) as ->.
  { destruct (orig !! i) as [originalLine|] eqn:Ho.
    - eapply validate_line_contract; [done|].
      specialize (Hall 0 romanizedLine originalLine).
      rewrite Nat.add_0_r in Hall. by apply Hall.
    - by apply validate_line_skip. }
  cbn [mbind Result_bind]. apply IH.
  intros k rl o Hk Ho. specialize (Hall (S k) rl o).
  rewrite Nat.add_succ_r in Hall. by apply Hall.
Qed.

Lemma forEach_validate_Ok orig lines i acc acc' :
  forEach_from (validate_line' orig) i lines acc = Ok acc' →
  ∃ added,
    acc'.1 = acc.1 ++ added
    ∧ (added = [] →
       ∀ k romanizedLine originalLine,
         lines !! k = Some romanizedLine →
         orig !! (i + k) = Some originalLine →
         line_contract normalizeText levenshteinDistance originalLine (i + k)
           romanizedLine).
Proof.
  revert i acc. induction lines as [|romanizedLine lines IH]; intros i acc;
    cbn [forEach_from].
  - intros [= <-]. exists []. split; [by rewrite app_nil_r|]. by intros _ k.
  - destruct (validate_line' orig acc romanizedLine i) as [acc1|e] eqn:Hline;
      cbn [mbind Result_bind]; [|done].
    intros Hrest. apply IH in Hrest as (added2 & Hacc' & Hrest).
    destruct (orig !! i) as [originalLine|] eqn:Ho.
    + destruct (validate_line_Ok orig acc romanizedLine i originalLine acc1 Ho Hline)
        as (added1 & Hacc1 & Hfirst).
      exists (added1 ++ added2). split.
      * by rewrite Hacc', Hacc1, app_assoc.
      * intros [-> ->]%app_eq_nil [|k] rl o Hk Hok.
        -- rewrite Nat.add_0_r in *. simpl in Hk.
           injection Hk as <-. rewrite Ho in Hok. injection Hok as <-.
           by apply Hfirst.
        -- rewrite Nat.add_succ_r. apply Hrest; [done..|].
           by rewrite Nat.add_succ_r in Hok.
    + rewrite validate_line_skip in Hline by done. injection Hline as <-.
      exists added2. split; [done|].
      intros -> [|k] rl o Hk Hok.
      * rewrite Nat.add_0_r in Hok. congruence.
      * rewrite Nat.add_succ_r. apply Hrest; [done..|].
        by rewrite Nat.add_succ_r in Hok.
Qed.

Lemma truthy_prop_array v k l : prop v k = Ok (JArr l) → truthy v = true.
Proof. by destruct v. Qed.

(** C4.  [validate] returns a result with [isValid = true] if and only if
    the response meets the shape contract: (a) the top-level
    [romanized_lyrics] is an array with one line per structured line, and
    for every line (b) the declared index is the position, (c) the text
    is a string, (d) a chunk array is present exactly when the input line
    has chunks, (e) in which case the counts match, no chunk is empty and
    the text is not concentrated in one chunk out of several, and (f) the
    concatenated chunk texts are, after normalization, within 20% of edit
    distance of the normalized line text. *)
Theorem C4_validate_accepts_exactly_the_contract
    originalLyricsForApi geminiResponse :
  (∃ result,
     validate' originalLyricsForApi geminiResponse = Ok result
     ∧ isValid result = true)
  ↔ response_contract normalizeText levenshteinDistance
      originalLyricsForApi geminiResponse.
Proof.
  unfold validate, response_contract. split.
  - intros (result & Hvalidate & Hvalid).
    destruct (truthy geminiResponse) eqn:Htruthy; simpl in Hvalidate;
      [|by injection Hvalidate as <-].
    destruct (prop geminiResponse (u "romanized_lyrics")) as [rl|e] eqn:Hrl;
      cbn [mbind Result_bind] in Hvalidate; [|done].
    destruct rl as [| | | | |lines|]; try (by injection Hvalidate as <-).
    destruct (decide (length lines ≠ length originalLyricsForApi)) as [Hlen|Hlen];
      [by injection Hvalidate as <-|].
    destruct (forEach _ lines _) as [acc|e] eqn:Hloop;
      cbn [mbind Result_bind] in Hvalidate; [|done].
    injection Hvalidate as <-. simpl in Hvalid.
    apply bool_decide_eq_true in Hvalid.
    apply forEach_validate_Ok in Hloop as (added & Hacc & Hall).
    simpl in Hacc. exists lines. split; [done|]. split; [lia|].
    intros k rl o Hk Ho. apply (Hall) with (k := k); [|done..].
    rewrite Hacc in Hvalid. by destruct added.
  - intros (lines & Hrl & Hlen & Hall).
    rewrite (truthy_prop_array _ _ _ Hrl), Hrl. simpl.
    rewrite decide_False by lia.
    unfold forEach. rewrite forEach_validate_contract; [|done].
    cbn [mbind Result_bind]. eexists. split; [done|]. done.
Qed.

End ValidatorFacts.

(** ** Output of the engine *)

Lemma text_ne_chunk : u "text" ≠ u "chunk".
Proof. by vm_compute. Qed.

Lemma text_ne_index : u "text" ≠ u "original_line_index".
Proof. by vm_compute. Qed.

Lemma chunk_ne_index : u "chunk" ≠ u "original_line_index".
Proof. by vm_compute. Qed.

Lemma reconstructedLine_latin_text romanizedApiLyrics hasAnyChunks data i :
  prop (reconstructedLine romanizedApiLyrics hasAnyChunks (latin data i))
       (u "text")
  = Ok (JStr (text data)).
Proof.
  simpl. f_equal.
  rewrite get_set_field_ne by (symmetry; apply text_ne_index).
  rewrite get_set_field_ne by (symmetry; apply text_ne_chunk).
  apply get_set_field.
Qed.

Section OutputFacts.

Variable isPurelyLatinScript : jsstring → bool.

(** Reconstruction along the plan of [prepareLyrics]: one line per
    input line, at its place. *)
Lemma reconstruct_prepared structuredInput romanizedApiLyrics hasAnyChunks :
  let plan :=
    reconstructionPlan (prepareLyrics isPurelyLatinScript structuredInput) in
  ∃ out : list JValue,
    reconstructLyrics romanizedApiLyrics plan hasAnyChunks = Some <$> out
    ∧ length out = length structuredInput
    ∧ ∀ i line,
        structuredInput !! i = Some line →
        ∃ o, out !! i = Some o
             ∧ prop o (u "original_line_index") = Ok (JNat i)
             ∧ if isPurelyLatinScript (text line) then
                 o = reconstructedLine romanizedApiLyrics hasAnyChunks
                       (latin line i)
                 ∧ prop o (u "text") = Ok (JStr (text line))
               else
                 ∃ a, plan !! i = Some (api a i)
                      ∧ o = reconstructedLine romanizedApiLyrics
                              hasAnyChunks (api a i).
Proof.
  intros plan.
  destruct (prepareLyrics_spec isPurelyLatinScript structuredInput)
    as [keys Hinv].
  pose proof Hinv as (Hlen & _ & _ & _ & _ & Hplan).
  exists (reconstructedLine romanizedApiLyrics hasAnyChunks <$> plan).
  split; [|split].
  - rewrite reconstructLyrics_ordered.
    + by rewrite <- list_fmap_compose.
    + intros j item. by eapply plan_lookup.
  - by rewrite length_fmap.
  - intros i line Hline. specialize (Hplan i line Hline).
    rewrite list_lookup_fmap.
    destruct (isPurelyLatinScript (text line)).
    + fold plan in Hplan. rewrite Hplan. cbn [fmap option_fmap option_map].
      eexists. split; [done|].
      split; [by rewrite reconstructedLine_index|]. split; [done|].
      apply reconstructedLine_latin_text.
    + destruct Hplan as (a & Ha & _). fold plan in Ha. rewrite Ha.
      cbn [fmap option_fmap option_map]. eexists. split; [done|]. split; [by rewrite reconstructedLine_index|].
      by exists a.
Qed.

End OutputFacts.

(* ================================================================== *)
(** * The claims about the romanization engine *)
(* ================================================================== *)

Section RomanizerClaims.

Variable isPurelyLatinScript : jsstring → bool.
Variable normalizeText : JValue → Result jsstring.
Variable levenshteinDistance : jsstring → jsstring → nat.
Variable numberToString : Qc → jsstring.
Variable percentToFixed1 : nat → nat → jsstring.
Variable merge_into_non_array : JValue → JValue → Result JValue.
Variable MAX_RETRIES : nat.
Variable settings : TranslationSettings.
Variable callGeminiAPI : nat → list Turn → Schema → Result jsstring.
Variable JSON_parse : jsstring → Result JValue.

Local Abbreviation validate' :=
  (validate normalizeText levenshteinDistance numberToString percentToFixed1).
Local Abbreviation attempt_step' :=
  (attempt_step normalizeText levenshteinDistance numberToString
     percentToFixed1 merge_into_non_array MAX_RETRIES callGeminiAPI
     JSON_parse).
Local Abbreviation attempts' :=
  (attempts normalizeText levenshteinDistance numberToString
     percentToFixed1 merge_into_non_array MAX_RETRIES callGeminiAPI
     JSON_parse).
Local Abbreviation romanize' :=
  (romanize isPurelyLatinScript normalizeText levenshteinDistance
     numberToString percentToFixed1 merge_into_non_array MAX_RETRIES
     settings callGeminiAPI JSON_parse).

(** C1.  For a document of N lines, the plan built by [prepareLyrics]
    has N entries whose original indices are 0, 1, ..., N-1 in this
    order, so each index appears exactly once; reconstructing along it,
    from whatever response, gives N lines without a hole, the i-th one
    carrying index i and standing for input line i (the line itself when
    it is Latin, the response line of its slot otherwise); and whenever
    [romanize] returns a document, that document has these N lines. *)
Theorem C1_output_keeps_every_line (structuredInput : list Line) :
  let prepared := prepareLyrics isPurelyLatinScript structuredInput in
  let plan := reconstructionPlan prepared in
  length plan = length structuredInput
  ∧ originalIndex <$> plan = seq 0 (length structuredInput)
  ∧ (∀ romanizedApiLyrics hasAnyChunks,
       ∃ out : list JValue,
         reconstructLyrics romanizedApiLyrics plan hasAnyChunks = Some <$> out
         ∧ length out = length structuredInput
         ∧ ∀ i line,
             structuredInput !! i = Some line →
             ∃ o, out !! i = Some o
                  ∧ prop o (u "original_line_index") = Ok (JNat i)
                  ∧ if isPurelyLatinScript (text line) then
                      prop o (u "text") = Ok (JStr (text line))
                    else
                      ∃ a, plan !! i = Some (api a i)
                           ∧ o = reconstructedLine romanizedApiLyrics
                                   hasAnyChunks (api a i))
  ∧ (∀ fullList st,
       romanize' structuredInput = (Ok fullList, st) →
       ∃ out : list JValue,
         fullList = Some <$> out
         ∧ length out = length structuredInput
         ∧ ∀ i line,
             structuredInput !! i = Some line →
             ∃ o, out !! i = Some o
                  ∧ prop o (u "original_line_index") = Ok (JNat i)
                  ∧ (isPurelyLatinScript (text line) = true →
                     prop o (u "text") = Ok (JStr (text line)))).
Proof.
  intros prepared plan.
  assert (∀ romanizedApiLyrics hasAnyChunks,
            ∃ out : list JValue,
              reconstructLyrics romanizedApiLyrics plan hasAnyChunks
              = Some <$> out
              ∧ length out = length structuredInput
              ∧ ∀ i line,
                  structuredInput !! i = Some line →
                  ∃ o, out !! i = Some o
                       ∧ prop o (u "original_line_index") = Ok (JNat i)
                       ∧ if isPurelyLatinScript (text line) then
                           prop o (u "text") = Ok (JStr (text line))
                         else
                           ∃ a, plan !! i = Some (api a i)
                                ∧ o = reconstructedLine romanizedApiLyrics
                                        hasAnyChunks (api a i)) as Hrec.
  { intros r h.
    destruct (reconstruct_prepared isPurelyLatinScript structuredInput r h)
      as (out & Hout & Hlen & Hlines).
    exists out. split; [done|]. split; [done|].
    intros i line Hline. destruct (Hlines i line Hline) as (o & Ho & Hidx & Hc).
    exists o. split; [done|]. split; [done|].
    destruct (isPurelyLatinScript (text line)); [by destruct Hc|done]. }
  split; [|split; [|split]].
  - destruct (prepareLyrics_spec isPurelyLatinScript structuredInput)
      as [keys Hinv].
    by destruct Hinv as (Hlen & _).
  - apply plan_indices.
  - exact Hrec.
  - intros fullList st Hrun.
    assert (∃ r h, fullList = reconstructLyrics r plan h) as (r & h & ->).
    { unfold romanize in Hrun. cbv zeta in Hrun. fold prepared in Hrun.
      destruct (decide (length (lyricsForApi prepared) = 0)).
      - injection Hrun as <- _. eauto.
      - apply attempts_Ok in Hrun as (resp & rl & vr & _ & _ & _ & ->). eauto. }
    destruct (Hrec r h) as (out & Hout & Hlen & Hlines).
    exists out. split; [done|]. split; [done|].
    intros i line Hline. destruct (Hlines i line Hline) as (o & Ho & Hidx & Hc).
    exists o. split; [done|]. split; [done|].
    intros Hlatin. by rewrite Hlatin in Hc.
Qed.

End RomanizerClaims.

(** The engine run on [four_lines] with a transformer whose first answer
    is valid. *)
Lemma C1_output_keeps_every_line_witness :
  ∃ out st,
    sample_romanize 5 [Ok (u "r1")] [(u "r1", two_slots_response)] four_lines
    = (Ok (Some <$> out), st)
    ∧ length out = 4.
Proof.
  destruct (C1_output_keeps_every_line ascii_only sample_normalizeText
              levenshtein sample_numberToString sample_percentToFixed1
              sample_merge_into_non_array 5 default_settings
              (scripted [Ok (u "r1")])
              (table_parse [(u "r1", two_slots_response)]) four_lines)
    as (_ & _ & _ & Hrun).
  destruct (sample_romanize 5 [Ok (u "r1")] [(u "r1", two_slots_response)]
              four_lines) as [[fullList|e] st] eqn:Hsample.
  - destruct (Hrun fullList st Hsample) as (out & -> & Hlen & _).
    by exists out, st.
  - by vm_compute in Hsample.
Defined.

Section DedupClaim.

Variable isPurelyLatinScript : jsstring → bool.


End DedupClaim.


(** ** A document that is Latin throughout *)

Section AllLatin.

Variable isPurelyLatinScript : jsstring → bool.

Lemma prepare_all_latin rest i st :
  Forall (λ line, isPurelyLatinScript (text line) = true) rest →
  forEach_pure_from (prepare_line isPurelyLatinScript) i rest st
  = {| lyricsForApi := lyricsForApi st;
       reconstructionPlan :=
         reconstructionPlan st ++ imap (λ k line, latin line (i + k)) rest;
       contentToApiIndexMap := contentToApiIndexMap st |}.
Proof.
  intros Hall. revert i st.
  induction Hall as [|line rest Hline Hrest IH]; intros i st; simpl.
  - rewrite app_nil_r. by destruct st.
  - rewrite IH. unfold prepare_line at 1 2 3. rewrite Hline. simpl.
    f_equal. rewrite <- app_assoc. simpl. rewrite Nat.add_0_r.
    do 2 f_equal. apply imap_ext. intros k l _. simpl. f_equal. lia.
Qed.

Lemma prepareLyrics_all_latin structuredInput :
  Forall (λ line, isPurelyLatinScript (text line) = true) structuredInput →
  prepareLyrics isPurelyLatinScript structuredInput
  = {| lyricsForApi := [];
       reconstructionPlan := imap (λ k line, latin line k) structuredInput;
       contentToApiIndexMap := ∅ |}.
Proof.
  intros Hall. unfold prepareLyrics, forEach_pure.
  by rewrite prepare_all_latin.
Qed.

End AllLatin.

Lemma latin_line_out_chunk line i :
  prop (latin_line_out line i) (u "chunk") = Ok JUndefined.
Proof.
  unfold latin_line_out. simpl. f_equal.
  rewrite get_set_field_ne by (symmetry; apply chunk_ne_index).
  rewrite get_set_field. by destruct (chunk line).
Qed.

Section AllLatinClaim.

Variable isPurelyLatinScript : jsstring → bool.
Variable normalizeText : JValue → Result jsstring.
Variable levenshteinDistance : jsstring → jsstring → nat.
Variable numberToString : Qc → jsstring.
Variable percentToFixed1 : nat → nat → jsstring.
Variable merge_into_non_array : JValue → JValue → Result JValue.
Variable MAX_RETRIES : nat.
Variable settings : TranslationSettings.
Variable callGeminiAPI : nat → list Turn → Schema → Result jsstring.
Variable JSON_parse : jsstring → Result JValue.

Local Abbreviation romanize' :=
  (romanize isPurelyLatinScript normalizeText levenshteinDistance
     numberToString percentToFixed1 merge_into_non_array MAX_RETRIES
     settings callGeminiAPI JSON_parse).

(** C9, amended.  For a document whose lines are all purely Latin,
    [romanize] makes no call to the transformer and returns the lines in
    their order, each with its text and with its position as index; the
    chunk arrays of the lines are not carried over. *)
Theorem C9_all_latin_short_circuit (structuredInput : list Line) :
  Forall (λ line, isPurelyLatinScript (text line) = true) structuredInput →
  ∃ st,
    romanize' structuredInput
    = (Ok (imap (λ i line, Some (latin_line_out line i)) structuredInput), st)
    ∧ requests st = []
    ∧ ∀ i line,
        structuredInput !! i = Some line →
        prop (latin_line_out line i) (u "text") = Ok (JStr (text line))
        ∧ prop (latin_line_out line i) (u "original_line_index")
          = Ok (JNat i)
        ∧ prop (latin_line_out line i) (u "chunk") = Ok JUndefined.
Proof.
  intros Hall. unfold romanize. cbv zeta.
  rewrite (prepareLyrics_all_latin _ _ Hall).
  cbn [lyricsForApi reconstructionPlan length existsb].
  rewrite decide_True by done.
  assert (reconstructLyrics []
            (imap (λ k line, latin line k) structuredInput) false
          = imap (λ i line, Some (latin_line_out line i)) structuredInput)
    as ->.
  { rewrite reconstructLyrics_ordered.
    + by rewrite fmap_imap.
    + intros j item Hj. apply list_lookup_imap_Some in Hj as (line & _ & ->).
      done. }
  eexists. split; [reflexivity|]. split; [reflexivity|].
  intros i line _. split; [|split].
    + apply reconstructedLine_latin_text.
    + apply (reconstructedLine_index [] false (latin line i)).
    + apply latin_line_out_chunk.
Qed.

End AllLatinClaim.

Lemma C9_all_latin_short_circuit_witness :
  ∃ st,
    sample_romanize 5 [] [] [plain_line (u "hello") 0; plain_line (u "world") 1]
    = (Ok [Some (latin_line_out (plain_line (u "hello") 0) 0);
           Some (latin_line_out (plain_line (u "world") 1) 1)], st)
    ∧ requests st = [].
Proof.
  destruct (C9_all_latin_short_circuit ascii_only sample_normalizeText
              levenshtein sample_numberToString sample_percentToFixed1
              sample_merge_into_non_array 5 default_settings (scripted [])
              (table_parse [])
              [plain_line (u "hello") 0; plain_line (u "world") 1])
    as (st & Hrun & Hreq & _).
  - repeat constructor.
  - by exists st.
Defined.

(** The claim as stated fails on a Latin line that has chunks: the line
    comes back without them. *)
Lemma C9_chunks_are_not_carried_over :
  ascii_only (text chunked_hello) = true
  ∧ ∃ o st,
      sample_romanize 5 [] [] [chunked_hello] = (Ok [Some o], st)
      ∧ requests st = []
      ∧ prop o (u "chunk") = Ok JUndefined
      ∧ prop (JObj (line_fields chunked_hello)) (u "chunk")
        = Ok (JArr (chunk_obj <$> default [] (chunk chunked_hello)))
      ∧ JArr (chunk_obj <$> default [] (chunk chunked_hello)) ≠ JUndefined.
Proof.
  split; [by vm_compute|].
  eexists _, _. split; [by vm_compute|].
  split; [done|]. split; [by vm_compute|]. split; [by vm_compute|done].
Qed.

(** ** Error-repeat tracking *)

Section ErrorRepeat.

Variable normalizeText : JValue → Result jsstring.
Variable levenshteinDistance : jsstring → jsstring → nat.
Variable numberToString : Qc → jsstring.
Variable percentToFixed1 : nat → nat → jsstring.
Variable merge_into_non_array : JValue → JValue → Result JValue.
Variable MAX_RETRIES : nat.
Variable callGeminiAPI : nat → list Turn → Schema → Result jsstring.
Variable JSON_parse : jsstring → Result JValue.
Variable lyricsForApi : list Line.
Variable reconstructionPlan : list ReconstructionPlanItem.
Variable hasAnyChunks : bool.
Variable initialPrompt : PromptText.

Local Abbreviation attempt_step' :=
  (attempt_step normalizeText levenshteinDistance numberToString
     percentToFixed1 merge_into_non_array MAX_RETRIES callGeminiAPI
     JSON_parse lyricsForApi reconstructionPlan hasAnyChunks initialPrompt).
Local Abbreviation fails' :=
  (fails_validation_with normalizeText levenshteinDistance numberToString
     percentToFixed1 merge_into_non_array callGeminiAPI JSON_parse
     lyricsForApi hasAnyChunks).




Lemma attempt_step_requests attempt st :
  requests (state_after (attempt_step' attempt st))
  = requests st ++ [(currentContents st, schema_for hasAnyChunks attempt st)].
Proof.
  unfold attempt_step, catch_block, keep_first_response, track_error,
    fresh_conversation, log_request.
  cbv zeta. repeat case_match; done.
Qed.



End ErrorRepeat.



(** ** Merging selective fixes *)

Lemma apply_fix_readable lyrics fixedLine n :
  readable fixedLine →
  ∃ merged,
    apply_fix lyrics fixedLine n = Ok merged
    ∧ length merged = length lyrics
    ∧ ∀ i, fix_target fixedLine ≠ Some i → merged !! i = lyrics !! i.
Proof.
  intros [index Hindex]. unfold apply_fix, fix_target. rewrite Hindex.
  cbn [mbind Result_bind].
  destruct (toIndexKey index) as [i|]; [|by eexists].
  destruct (lyrics !! i) as [current|] eqn:Hcurrent; [|by eexists].
  destruct (truthy current); [|by eexists].
  eexists. split; [done|]. split; [by rewrite length_insert|].
  intros j Hj. rewrite list_lookup_insert_ne; [done|congruence].
Qed.


Lemma forEach_apply_fix fixes n lyrics :
  Forall readable fixes →
  ∃ merged,
    forEach_from apply_fix n fixes lyrics = Ok merged
    ∧ length merged = length lyrics
    ∧ ∀ i, (∀ fixedLine, fixedLine ∈ fixes → fix_target fixedLine ≠ Some i) →
           merged !! i = lyrics !! i.
Proof.
  intros Hall. revert n lyrics.
  induction Hall as [|fixedLine fixes Hfix Hrest IH]; intros n lyrics;
    cbn [forEach_from].
  - exists lyrics. split; [done|]. split; [done|]. done.
  - destruct (apply_fix_readable lyrics fixedLine n Hfix)
      as (merged1 & -> & Hlen1 & Hframe1).
    cbn [mbind Result_bind].
    destruct (IH (S n) merged1) as (merged & -> & Hlen & Hframe).
    exists merged. split; [done|]. split; [congruence|].
    intros i Hi. rewrite Hframe, Hframe1; [done| |].
    + apply Hi. by left.
    + intros f Hf. apply Hi. by right.
Qed.







Section MergeFacts.

Variable merge_into_non_array : JValue → JValue → Result JValue.

Lemma mergeSelectiveFixes_array lastValidResponse lyrics fixes :
  prop lastValidResponse (u "romanized_lyrics") = Ok (JArr lyrics) →
  Forall readable fixes →
  ∃ merged,
    mergeSelectiveFixes merge_into_non_array lastValidResponse (JArr fixes)
    = Ok (JObj (set_field (spread lastValidResponse) (u "romanized_lyrics")
                  (JArr merged)))
    ∧ length merged = length lyrics
    ∧ ∀ i, (∀ fixedLine, fixedLine ∈ fixes → fix_target fixedLine ≠ Some i) →
           merged !! i = lyrics !! i.
Proof.
  intros Hrl Hall. unfold mergeSelectiveFixes.
  rewrite (truthy_prop_array _ _ _ Hrl), Hrl. simpl.
  destruct (forEach_apply_fix fixes 0 lyrics Hall) as (merged & Hm & Hlen & Hframe).
  unfold forEach. rewrite Hm. cbn [mbind Result_bind]. by exists merged.
Qed.



End MergeFacts.




(* ================================================================== *)
(** * The claims about the services *)
(* ================================================================== *)

(** ** Running a task against a handler *)

Lemma run_async_ret {E R} (h : ∀ X, Op X → E → option (Result X * E))
    (a : R) e s :
  run_async h (mret a) e s = Some (Ok a, e, s).
Proof. done. Qed.

Lemma run_async_throw {E R} (h : ∀ X, Op X → E → option (Result X * E))
    (err : JsError) e s :
  run_async h (throw (A := R) err) e s = Some (Throw err, e, s).
Proof. done. Qed.

Lemma run_async_await {E R X} (h : ∀ X, Op X → E → option (Result X * E))
    (op : Op X) (f : X → Async R) e s :
  run_async h (await op ≫= f) e s
  = match h _ op e with
    | Some (Ok x, e') => run_async h (f x) e' s
    | Some (Throw err, e') => Some (Throw err, e', s)
    | None => None
    end.
Proof.
  unfold run_async, mbind, Async_bind, await. cbn.
  destruct (h X op e) as [[[x|err] e']|]; cbn; try done.
Qed.

Lemma run_async_read {E R A} (h : ∀ X, Op X → E → option (Result X * E))
    (g : State → A) (f : A → Async R) e s :
  run_async h (read g ≫= f) e s = run_async h (f (g s)) e s.
Proof. done. Qed.

(** ** Expiry of persistent lyrics entries *)

Section Expiry.

Variable CACHE_EXPIRY : gmap jsstring Z.
Variable external : ∀ X, Op X → option (Result X).


End Expiry.


(** ** Song info is checked first *)

Lemma validateSongInfo_invalid songInfo :
  invalid_song_info songInfo → validateSongInfo songInfo = Throw song_info_error.
Proof.
  destruct songInfo as [info|]; [|done].
  unfold validateSongInfo, lacks. cbn.
  by intros [[-> | ->] | [-> | ->]]; cbn; rewrite ?orb_true_r.
Qed.

Section SongInfoFirst.

Variable CACHE_EXPIRY : gmap jsstring Z.
Variable isEmptyLyrics : option LyricsData → bool.
Variable parseKPoeFormat : JValue → LyricsData.
Variable numberToString : Qc → jsstring.

(** C10, as amended.  When the song info is null or undefined, or lacks
    a non-empty title or a non-empty artist, [LyricsService.getOrFetch]
    throws 'Song info must include title and artist' in its first
    synchronous piece: it waits for no store, setting or provider, and
    the shared state (cache and registry) is left as it was.
    [TranslationService.getOrFetch] does the same when the song info is
    an object; when it is null or undefined it throws a TypeError
    instead, from building its cache key, again with no state change. *)
Theorem C10_invalid_song_info_is_rejected_first songInfo forceReload s :
  invalid_song_info songInfo →
  LyricsService_getOrFetch CACHE_EXPIRY parseKPoeFormat numberToString
    songInfo forceReload s
  = (Done (Throw song_info_error), s)
  ∧ (∀ action targetLang,
       match songInfo with
       | Some _ =>
           TranslationService_getOrFetch CACHE_EXPIRY isEmptyLyrics
             parseKPoeFormat numberToString songInfo action targetLang
             forceReload s
           = (Done (Throw song_info_error), s)
       | None =>
           ∃ message,
             TranslationService_getOrFetch CACHE_EXPIRY isEmptyLyrics
               parseKPoeFormat numberToString songInfo action targetLang
               forceReload s
             = (Done (Throw (TypeError message)), s)
       end).
Proof.
  intros Hinvalid.
  assert (Hlyrics : LyricsService_getOrFetch CACHE_EXPIRY parseKPoeFormat
            numberToString songInfo forceReload s
          = (Done (Throw song_info_error), s)).
  { unfold LyricsService_getOrFetch, mbind, Async_bind, lift.
    by rewrite validateSongInfo_invalid. }
  split; [done|]. intros action targetLang.
  destruct songInfo as [info|].
  - unfold TranslationService_getOrFetch.
    unfold mbind at 1. unfold Async_bind, lift. cbn.
    unfold mbind at 1. unfold Async_bind. by rewrite Hlyrics.
  - by eexists.
Qed.

End SongInfoFirst.

Lemma C10_invalid_song_info_is_rejected_first_witness :
  LyricsService_getOrFetch sample_CACHE_EXPIRY sample_parseKPoeFormat
    sample_numberToString (Some untitled_song) false (empty_state 0)
  = (Done (Throw song_info_error), empty_state 0).
Proof.
  apply (C10_invalid_song_info_is_rejected_first sample_CACHE_EXPIRY
           sample_isEmptyLyrics sample_parseKPoeFormat sample_numberToString
           (Some untitled_song) false (empty_state 0)).
  simpl. left. right. reflexivity.
Defined.

(** C10, as stated, fails for [TranslationService.getOrFetch] on a null
    song info: the error it throws is a TypeError, not the error of
    [validateSongInfo]. *)
Lemma C10_translation_of_null_song_info :
  invalid_song_info None
  ∧ ∃ message,
      TranslationService_getOrFetch sample_CACHE_EXPIRY sample_isEmptyLyrics
        sample_parseKPoeFormat sample_numberToString None (u "translate")
        (u "en") false (empty_state 0)
      = (Done (Throw (TypeError message)), empty_state 0)
      ∧ TypeError message ≠ song_info_error.
Proof.
  split; [done|]. eexists. split; [reflexivity|]. discriminate.
Qed.

(** ** Cached translations and the version of the lyrics *)

Lemma run_async_update {E R} (h : ∀ X, Op X → E → option (Result X * E))
    (g : State → State) (f : unit → Async R) e s :
  run_async h (update g ≫= f) e s = run_async h (f ()) e (g s).
Proof. done. Qed.

Lemma run_async_ret_bind {E R A} (h : ∀ X, Op X → E → option (Result X * E))
    (a : A) (f : A → Async R) e s :
  run_async h (mret a ≫= f) e s = run_async h (f a) e s.
Proof. done. Qed.

Section StaleTranslations.

Variable external : ∀ X, Op X → option (Result X).

Lemma getCached_memory_miss key originalVersion w s :
  memory_misses s key originalVersion →
  run_async (world_handler external) (getCached key originalVersion) w s
  = match translationsDB w !! key with
    | Some dbCached =>
        if decide (tr_originalVersion dbCached = originalVersion) then
          let annotated :=
            annotateCacheHit (tr_translatedLyrics dbCached) (u "db") (now s) in
          Some (Ok (Some annotated), w,
                setCached key
                  (translationRecord
                     {| translatedLyrics := annotated;
                        record_originalVersion := tr_originalVersion dbCached |})
                  s)
        else
          Some (Ok None,
                with_translationsDB (delete key (translationsDB w)) w, s)
    | None => Some (Ok None, w, s)
    end.
Proof.
  unfold memory_misses, getCached. intros Hmiss.
  rewrite run_async_read. cbv beta.
  assert (Hdb : run_async (world_handler external)
    (mret None ≫= λ memoryHit : option LyricsData,
       match memoryHit with
       | Some hit => mret (Some hit)
       | None =>
           dbCached ← await (translationsDB_get key);
           match dbCached with
           | Some dbCached =>
               if decide (tr_originalVersion dbCached = originalVersion) then
                 now ← Date_now;
                 let annotated :=
                   annotateCacheHit (tr_translatedLyrics dbCached) (u "db") now in
                 _ ← update (setCached key
                               (translationRecord
                                  {| translatedLyrics := annotated;
                                     record_originalVersion :=
                                       tr_originalVersion dbCached |}));
                 mret (Some annotated)
               else
                 _ ← await (translationsDB_delete key);
                 mret None
           | None => mret None
           end
       end) w s
    = match translationsDB w !! key with
      | Some dbCached =>
          if decide (tr_originalVersion dbCached = originalVersion) then
            let annotated :=
              annotateCacheHit (tr_translatedLyrics dbCached) (u "db") (now s) in
            Some (Ok (Some annotated), w,
                  setCached key
                    (translationRecord
                       {| translatedLyrics := annotated;
                          record_originalVersion := tr_originalVersion dbCached |})
                    s)
          else
            Some (Ok None,
                  with_translationsDB (delete key (translationsDB w)) w, s)
      | None => Some (Ok None, w, s)
      end).
  { rewrite run_async_ret_bind, run_async_await. cbn [world_handler].
    destruct (translationsDB w !! key) as [dbCached|]; [|done].
    destruct (decide (tr_originalVersion dbCached = originalVersion)); [done|].
    by rewrite run_async_await. }
  destruct (cache s !! key) as [[ | r | ]|]; try done.
  by rewrite decide_False.
Qed.

Lemma getCached_memory_hit key w s r :
  cache s !! key = Some (translationRecord r) →
  run_async (world_handler external)
    (getCached key (record_originalVersion r)) w s
  = let annotated :=
      annotateCacheHit (translatedLyrics r) (u "memory") (now s) in
    Some (Ok (Some annotated), w,
          mutate_cached key
            (translationRecord
               {| translatedLyrics := annotated;
                  record_originalVersion := record_originalVersion r |})
            s).
Proof.
  intros Hcached. unfold getCached.
  rewrite run_async_read. cbv beta. rewrite Hcached.
  by rewrite decide_True.
Qed.

(** C3, as amended.  When the memory cache holds a translation record
    or nothing under the key, [getCached] returns without error, and:
    - a document it returns comes from a record, in memory or in the
      persistent cache, whose [originalVersion] is the version asked
      for, so a record of another version is never returned;
    - when neither cache has a record of the version asked for, the
      lookup is a miss, a persistent record under the key is deleted on
      that read, and the shared state is left as it was;
    - so a memory record of another version is passed over and stays in
      the memory cache after a miss. *)
Theorem C3_stale_translation_is_never_served key originalVersion w s :
  (∀ v, cache s !! key = Some v → ∃ r, v = translationRecord r) →
  ∃ result w' s',
    run_async (world_handler external) (getCached key originalVersion) w s
    = Some (Ok result, w', s')
    ∧ (∀ doc, result = Some doc →
         (∃ r, cache s !! key = Some (translationRecord r)
               ∧ record_originalVersion r = originalVersion
               ∧ doc = annotateCacheHit (translatedLyrics r) (u "memory") (now s))
         ∨ (∃ d, translationsDB w !! key = Some d
                 ∧ tr_originalVersion d = originalVersion
                 ∧ doc = annotateCacheHit (tr_translatedLyrics d) (u "db") (now s)))
    ∧ (memory_misses s key originalVersion →
       (∀ d, translationsDB w !! key = Some d →
             tr_originalVersion d ≠ originalVersion) →
       result = None
       ∧ translationsDB w' = delete key (translationsDB w)
       ∧ s' = s)
    ∧ (∀ r, cache s !! key = Some (translationRecord r) →
            record_originalVersion r ≠ originalVersion →
            result = None →
            cache s' !! key = Some (translationRecord r)).
Proof.
  intros Htyped.
  destruct (decide (memory_misses s key originalVersion)) as [Hmiss|Hhit].
  - rewrite getCached_memory_miss by done.
    destruct (translationsDB w !! key) as [d|] eqn:Hdb.
    + destruct (decide (tr_originalVersion d = originalVersion)) as [Hsame|Hstale].
      * do 3 eexists. split; [reflexivity|]. split; [|split].
        -- intros doc [= <-]. right. by exists d.
        -- intros _ Hall. by destruct (Hall d).
        -- intros r _ _ [=].
      * do 3 eexists. split; [reflexivity|]. split; [|split]; try done.
    + do 3 eexists. split; [reflexivity|]. split; [|split]; try done.
      intros _ _. by rewrite delete_id.
  - unfold memory_misses in Hhit.
    destruct (cache s !! key) as [v|] eqn:Hcached; [|done].
    destruct (Htyped v eq_refl) as [r ->].
    apply dec_stable in Hhit. subst originalVersion.
    rewrite (getCached_memory_hit key w s r) by done.
    do 3 eexists. split; [reflexivity|]. split; [|split].
    + intros doc [= <-]. left. by exists r.
    + intros Hm. unfold memory_misses in Hm. by rewrite Hcached in Hm.
    + intros r' [= <-] Hstale. done.
Qed.

End StaleTranslations.

Lemma C3_stale_translation_is_never_served_witness :
  ∃ w',
    run_async (world_handler sample_external)
      (getCached translation_key (versionNumber 6000))
      world_with_stale_translation state_with_stale_translation
    = Some (Ok None, w', state_with_stale_translation)
    ∧ translationsDB w' !! translation_key = None.
Proof.
  destruct (C3_stale_translation_is_never_served sample_external
              translation_key (versionNumber 6000)
              world_with_stale_translation state_with_stale_translation)
    as (result & w' & s' & Hrun & _ & Hmiss & _).
  { intros v Hv. exists stale_translation.
    vm_compute in Hv. injection Hv as <-. reflexivity. }
  destruct Hmiss as (-> & Hdb & ->).
  { vm_compute. discriminate. }
  { intros d Hd. vm_compute in Hd. injection Hd as <-. discriminate. }
  exists w'. split; [exact Hrun|].
  rewrite Hdb. apply lookup_delete_eq.
Defined.

(** C3, as stated, fails for the memory cache: a memory record of
    another version is not returned, but it is not purged either.  Here
    the lyrics are at version 6000, the memory cache holds a translation
    of version 5000 and the persistent cache holds none: the lookup is a
    miss and the record is still in the memory cache afterwards. *)
Lemma C3_stale_memory_record_is_kept :
  record_originalVersion stale_translation ≠ versionNumber 6000
  ∧ cache state_with_stale_translation !! translation_key
    = Some (translationRecord stale_translation)
  ∧ ∃ s',
      run_async (world_handler sample_external)
        (getCached translation_key (versionNumber 6000))
        empty_world state_with_stale_translation
      = Some (Ok None, empty_world, s')
      ∧ cache s' !! translation_key = Some (translationRecord stale_translation).
Proof.
  split; [discriminate|]. split; [by vm_compute|].
  exists state_with_stale_translation. split; vm_compute; reflexivity.
Qed.

(** ** The in-flight registry *)

Lemma quiet_bind_task {A B} (t : Task A) (f : A → Async B) s :
  quiet t → (∀ a, quiet_async (f a)) →
  quiet (bind_task t f s).1 ∧ registry (bind_task t f s).2 = registry s.
Proof.
  intros Ht Hf. revert s.
  induction Ht as [[a|err]|X op k _ IH Hregistry]; intros s; cbn.
  - apply Hf.
  - split; [constructor|done].
  - split; [|done].
    constructor; intros r s'; specialize (IH r s'); specialize (Hregistry r s');
      destruct (k r s') as [t' s'']; cbn in *; destruct (IH s''); congruence.
Qed.

Lemma quiet_async_bind {A B} (m : Async A) (f : A → Async B) :
  quiet_async m → (∀ a, quiet_async (f a)) → quiet_async (m ≫= f).
Proof.
  intros Hm Hf s. unfold mbind, Async_bind.
  destruct (Hm s) as [Hquiet Hregistry]. destruct (m s) as [t s']. cbn in *.
  destruct (quiet_bind_task t f s' Hquiet Hf). split; [done|congruence].
Qed.

Lemma quiet_async_ret {A} (a : A) : quiet_async (mret a).
Proof. intros s. split; [constructor|done]. Qed.

Lemma quiet_async_throw {A} err : quiet_async (throw (A := A) err).
Proof. intros s. split; [constructor|done]. Qed.

Lemma quiet_async_await {X} (op : Op X) : quiet_async (await op).
Proof.
  intros s. split; [|done]. constructor; intros r s'; [constructor|done].
Qed.

Lemma quiet_async_read {A} (g : State → A) : quiet_async (read g).
Proof. intros s. split; [constructor|done]. Qed.

Lemma quiet_async_setCached key v : quiet_async (update (setCached key v)).
Proof. intros s. split; [constructor|done]. Qed.

Create HintDb quiet.
#[local] Hint Resolve quiet_async_ret quiet_async_throw quiet_async_await
  quiet_async_read quiet_async_setCached : quiet.

Ltac quiet_step :=
  first [ solve [auto with quiet]
        | apply quiet_async_bind; [|intros ?]
        | case_match ].

Lemma quiet_finally {A} (t : Task A) key s :
  quiet t →
  match t with
  | Done r => finally_task t (deleteOngoingFetch key) s
              = (Done r, deleteOngoingFetch key s)
  | Suspended _ _ =>
      releases_when_settled key (finally_task t (deleteOngoingFetch key) s).1
      ∧ (finally_task t (deleteOngoingFetch key) s).2 = s
  end.
Proof.
  intros Ht. revert s.
  induction Ht as [r|X op k _ IH Hregistry]; intros s; [done|].
  cbn. split; [|done]. constructor. intros r s'.
  specialize (Hregistry r s'). specialize (IH r s').
  destruct (k r s') as [t' s'']. cbn in *.
  destruct t' as [result|Y op' k'].
  - left. exists result, s''. by rewrite IH.
  - right. destruct (IH s'') as [Hreleases ->]. done.
Qed.

Lemma try_finally_await_releases {X A} (op : Op X) (f : X → Async A) key s :
  (∀ x, quiet_async (f x)) →
  releases_when_settled key
    (try_finally (await op ≫= f) (deleteOngoingFetch key) s).1
  ∧ (try_finally (await op ≫= f) (deleteOngoingFetch key) s).2 = s.
Proof.
  intros Hf.
  assert (Hbody : quiet ((await op ≫= f) s).1).
  { apply quiet_async_bind; auto with quiet. }
  unfold try_finally.
  destruct ((await op ≫= f) s) as [t s'] eqn:Heq.
  cbn in Heq. injection Heq as <- <-.
  exact (quiet_finally _ key s Hbody).
Qed.

Section Registry.

Variable PROVIDERS_values : list Provider.
Variable isEmptyLyrics : option LyricsData → bool.
Variable parseKPoeFormat : JValue → LyricsData.

Lemma quiet_checkLocalLyrics songInfo :
  quiet_async (checkLocalLyrics parseKPoeFormat songInfo).
Proof. unfold checkLocalLyrics. repeat quiet_step. Qed.

#[local] Hint Resolve quiet_checkLocalLyrics : quiet.

Lemma quiet_fetchFromProvider provider songInfo settings fetchOptions forceReload :
  quiet_async (fetchFromProvider parseKPoeFormat provider songInfo settings
                 fetchOptions forceReload).
Proof.
  unfold fetchFromProvider.
  destruct provider; repeat quiet_step.
Qed.

Lemma quiet_provider_loop providers songInfo settings fetchOptions forceReload
    lyrics :
  quiet_async (provider_loop isEmptyLyrics parseKPoeFormat providers songInfo
                 settings fetchOptions forceReload lyrics).
Proof.
  revert lyrics. induction providers as [|provider rest IH]; intros lyrics; cbn.
  - auto with quiet.
  - apply quiet_async_bind; [apply quiet_fetchFromProvider|].
    intros found. case_match; auto with quiet.
Qed.

Lemma quiet_async_Date_now : quiet_async Date_now.
Proof. apply quiet_async_read. Qed.

#[local] Hint Resolve quiet_async_Date_now quiet_provider_loop : quiet.

Lemma fetchNewLyrics_releases songInfo cacheKey forceReload s :
  releases_when_settled cacheKey
    (fetchNewLyrics PROVIDERS_values isEmptyLyrics parseKPoeFormat songInfo
       cacheKey forceReload s).1
  ∧ (fetchNewLyrics PROVIDERS_values isEmptyLyrics parseKPoeFormat songInfo
       cacheKey forceReload s).2 = s.
Proof.
  unfold fetchNewLyrics. apply try_finally_await_releases.
  intros settings. repeat quiet_step.
Qed.

End Registry.

Lemma run_bind_task {E A B} (h : ∀ X, Op X → E → option (Result X * E))
    (t : Task A) (f : A → Async B) e s :
  (let '(t', s') := bind_task t f s in run h t' e s')
  = match run h t e s with
    | Some (Ok a, e', s') => run_async h (f a) e' s'
    | Some (Throw err, e', s') => Some (Throw err, e', s')
    | None => None
    end.
Proof.
  revert t e s. fix IH 1. intros [[a|err]|X op k] e s; [done..|].
  cbn. destruct (h X op e) as [[r e']|]; [|done].
  specialize (IH (k r s).1 e' (k r s).2).
  destruct (k r s) as [t' s']. exact IH.
Qed.

Lemma run_async_bind {E A B} (h : ∀ X, Op X → E → option (Result X * E))
    (m : Async A) (f : A → Async B) e s :
  run_async h (m ≫= f) e s
  = match run_async h m e s with
    | Some (Ok a, e', s') => run_async h (f a) e' s'
    | Some (Throw err, e', s') => Some (Throw err, e', s')
    | None => None
    end.
Proof.
  unfold run_async at 1 2, mbind, Async_bind.
  destruct (m s) as [t s']. apply run_bind_task.
Qed.

Lemma run_until_blocked_bind_task {E A B}
    (h : ∀ X, Op X → E → option (Result X * E))
    (t : Task A) (f : A → Async B) e s a e' s' :
  run h t e s = Some (Ok a, e', s') →
  (let '(t', s'') := bind_task t f s in run_until_blocked h t' e s'')
  = run_async_until_blocked h (f a) e' s'.
Proof.
  revert t e s. fix IH 1. intros [[b|err]|X op k] e s; cbn.
  - by intros [= -> -> ->].
  - done.
  - destruct (h X op e) as [[r e'']|]; [|done].
    specialize (IH (k r s).1 e'' (k r s).2).
    destruct (k r s) as [t' s'']. exact IH.
Qed.

Lemma run_async_until_blocked_bind {E A B}
    (h : ∀ X, Op X → E → option (Result X * E))
    (m : Async A) (f : A → Async B) e s a e' s' :
  run_async h m e s = Some (Ok a, e', s') →
  run_async_until_blocked h (m ≫= f) e s
  = run_async_until_blocked h (f a) e' s'.
Proof.
  unfold run_async, run_async_until_blocked at 1, mbind, Async_bind.
  destruct (m s) as [t s'']. apply run_until_blocked_bind_task.
Qed.

Lemma run_async_until_blocked_read {E R A}
    (h : ∀ X, Op X → E → option (Result X * E))
    (g : State → A) (f : A → Async R) e s :
  run_async_until_blocked h (read g ≫= f) e s
  = run_async_until_blocked h (f (g s)) e s.
Proof. done. Qed.

Section Coalescing.

Variable CACHE_EXPIRY : gmap jsstring Z.
Variable PROVIDERS_values : list Provider.
Variable isEmptyLyrics : option LyricsData → bool.
Variable parseKPoeFormat : JValue → LyricsData.
Variable numberToString : Qc → jsstring.
Variable external : ∀ X, Op X → option (Result X).

Lemma getOrFetch_joins songInfo w s fetchPromise :
  let cacheKey := createCacheKey numberToString songInfo in
  truthy_string (title songInfo) = true →
  truthy_string (artist songInfo) = true →
  cache s !! cacheKey = None →
  run_async (world_handler external) (getFromDB CACHE_EXPIRY cacheKey) w s
  = Some (Ok None, w, s) →
  run_async (world_handler external) (checkLocalLyrics parseKPoeFormat songInfo)
    w s
  = Some (Ok None, w, s) →
  ongoing s !! cacheKey = Some fetchPromise →
  settled w !! fetchPromise = None →
  run_async_until_blocked (world_handler external)
    (LyricsService_getOrFetch CACHE_EXPIRY parseKPoeFormat numberToString
       (Some songInfo) false) w s
  = (Suspended (awaitPromise fetchPromise) (λ r s', (Done r, s')), w, s).
Proof.
  intros cacheKey Htitle Hartist Hcache Hdb Hlocal Hongoing Hsettled.
  unfold LyricsService_getOrFetch, validateSongInfo.
  rewrite Htitle, Hartist. cbn [negb orb].
  change (lift (Ok songInfo)) with (read (λ _, songInfo)).
  rewrite !run_async_until_blocked_read. fold cacheKey. rewrite Hcache.
  erewrite run_async_until_blocked_bind; last first.
  { cbn [negb]. rewrite run_async_bind, Hdb, run_async_bind, Hlocal.
    apply run_async_ret. }
  unfold join_or_fetch. rewrite run_async_until_blocked_read, Hongoing.
  unfold run_async_until_blocked, await. cbn. by rewrite Hsettled.
Qed.

(** C2, as amended.  For a song with title and artist and its key:
    - a call with forceReload = false that misses the memory cache, the
      persistent cache and the local lyrics, and finds a fetch
      registered under the key, sends nothing to a provider, registers
      nothing and is left waiting for the registered promise, whose
      result is then its own: with the call that started the fetch it
      shares one provider fetch and one result;
    - a call that reaches the registry check when no fetch is registered
      under the key starts exactly one fetch and registers its promise;
    - the fetch leaves the registry alone while it runs, and removes
      the entry of the key exactly once, in the piece in which it
      settles, whether it settles with a result or with an error. *)
Theorem C2_calls_share_the_fetch_in_flight songInfo w s :
  let cacheKey := createCacheKey numberToString songInfo in
  (∀ fetchPromise,
     truthy_string (title songInfo) = true →
     truthy_string (artist songInfo) = true →
     cache s !! cacheKey = None →
     run_async (world_handler external) (getFromDB CACHE_EXPIRY cacheKey) w s
     = Some (Ok None, w, s) →
     run_async (world_handler external)
       (checkLocalLyrics parseKPoeFormat songInfo) w s
     = Some (Ok None, w, s) →
     ongoing s !! cacheKey = Some fetchPromise →
     settled w !! fetchPromise = None →
     run_async_until_blocked (world_handler external)
       (LyricsService_getOrFetch CACHE_EXPIRY parseKPoeFormat numberToString
          (Some songInfo) false) w s
     = (Suspended (awaitPromise fetchPromise) (λ r s', (Done r, s')), w, s))
  ∧ (∀ forceReload,
       ongoing s !! cacheKey = None →
       ∃ s',
         join_or_fetch songInfo cacheKey forceReload s
         = (Suspended (awaitPromise (next_promise s)) (λ r s', (Done r, s')), s')
         ∧ started s'
           = started s
             ++ [(next_promise s,
                  callFetchNewLyrics songInfo cacheKey forceReload)]
         ∧ ongoing s' = <[cacheKey := next_promise s]> (ongoing s)
         ∧ history s' = history s ++ [registered cacheKey (next_promise s)]
         ∧ cache s' = cache s)
  ∧ (∀ forceReload,
       releases_when_settled cacheKey
         (fetchNewLyrics PROVIDERS_values isEmptyLyrics parseKPoeFormat
            songInfo cacheKey forceReload s).1
       ∧ (fetchNewLyrics PROVIDERS_values isEmptyLyrics parseKPoeFormat
            songInfo cacheKey forceReload s).2 = s).
Proof.
  intros cacheKey. split; [|split].
  - intros fetchPromise. by apply getOrFetch_joins.
  - intros forceReload Hnone. eexists. split.
    + unfold join_or_fetch, mbind, Async_bind, read. cbn [bind_task].
      rewrite Hnone. reflexivity.
    + done.
  - intros forceReload. apply fetchNewLyrics_releases.
Qed.

End Coalescing.

Lemma C2_calls_share_the_fetch_in_flight_witness :
  run_async_until_blocked (world_handler sample_external)
    (LyricsService_getOrFetch sample_CACHE_EXPIRY sample_parseKPoeFormat
       sample_numberToString (Some sample_song) false)
    (world fetch_in_flight) (shared fetch_in_flight)
  = (Suspended (awaitPromise 0) (λ r s', (Done r, s')),
     world fetch_in_flight, shared fetch_in_flight).
Proof.
  apply (C2_calls_share_the_fetch_in_flight sample_CACHE_EXPIRY
           sample_PROVIDERS sample_isEmptyLyrics sample_parseKPoeFormat
           sample_numberToString sample_external sample_song
           (world fetch_in_flight) (shared fetch_in_flight));
    vm_compute; reflexivity.
Defined.

(** The second call reaches the registry check while the fetch of the
    first is registered: one request goes to the provider, and both
    calls get what the fetch gives. *)
Lemma second_call_joins_one_request :
  ∃ c,
    sample_steps second_call_joins initial_config = Some c
    ∧ provider_requests (world c) = 1
    ∧ outcome <$> pool c
      = [Some (Ok (fetched_at 1010)); Some (Ok (fetched_at 1010));
         Some (Ok (fetched_at 1010))]
    ∧ history (shared c) = [registered sample_key 0; released sample_key].
Proof.
  eexists. split; [vm_compute; reflexivity|]. by vm_compute.
Qed.

(** C2, as stated, fails when the second call reaches the registry
    check after the fetch has settled.  The second call is made while
    the first is pending and its fetch is registered; it has missed the
    memory and persistent caches and is waiting for the local lyrics
    when the fetch settles.  It then finds no entry and starts a fetch
    of its own: two requests go to the provider, and the two calls get
    different results. *)
Lemma C2_late_second_call_fetches_again :
  outcome <$> pool fetch_in_flight = [None; None]
  ∧ ongoing (shared fetch_in_flight) !! sample_key = Some 0
  ∧ ∃ c,
      sample_steps second_call_late initial_config = Some c
      ∧ provider_requests (world c) = 2
      ∧ outcome <$> pool c
        = [Some (Ok (fetched_at 1010)); Some (Ok (fetched_at 1010));
           Some (Ok (fetched_at 1020)); Some (Ok (fetched_at 1020))]
      ∧ fetched_at 1010 ≠ fetched_at 1020
      ∧ history (shared c)
        = [registered sample_key 0; released sample_key;
           registered sample_key 1; released sample_key].
Proof.
  split; [by vm_compute|]. split; [by vm_compute|].
  eexists. split; [vm_compute; reflexivity|].
  split; [by vm_compute|]. split; [by vm_compute|].
  split; [by intros [=]|]. by vm_compute.
Qed.

(* ================================================================== *)
(** * Further properties of the romanization engine *)
(* ================================================================== *)

Section RomanizeLoop.

Variable isPurelyLatinScript : jsstring → bool.
Variable normalizeText : JValue → Result jsstring.
Variable levenshteinDistance : jsstring → jsstring → nat.
Variable numberToString : Qc → jsstring.
Variable percentToFixed1 : nat → nat → jsstring.
Variable merge_into_non_array : JValue → JValue → Result JValue.
Variable MAX_RETRIES : nat.
Variable settings : TranslationSettings.
Variable callGeminiAPI : nat → list Turn → Schema → Result jsstring.
Variable JSON_parse : jsstring → Result JValue.

Local Abbreviation validate' :=
  (validate normalizeText levenshteinDistance numberToString percentToFixed1).
Local Abbreviation attempt_step' :=
  (attempt_step normalizeText levenshteinDistance numberToString
     percentToFixed1 merge_into_non_array MAX_RETRIES callGeminiAPI
     JSON_parse).
Local Abbreviation attempts' :=
  (attempts normalizeText levenshteinDistance numberToString
     percentToFixed1 merge_into_non_array MAX_RETRIES callGeminiAPI
     JSON_parse).
Local Abbreviation romanize' :=
  (romanize isPurelyLatinScript normalizeText levenshteinDistance
     numberToString percentToFixed1 merge_into_non_array MAX_RETRIES
     settings callGeminiAPI JSON_parse).

Lemma attempt_step_one_request lfa plan h ip attempt st :
  length (requests (state_after (attempt_step' lfa plan h ip attempt st)))
  = S (length (requests st)).
Proof.
  rewrite (attempt_step_requests normalizeText levenshteinDistance
             numberToString percentToFixed1 merge_into_non_array MAX_RETRIES
             callGeminiAPI JSON_parse lfa plan h ip attempt st).
  rewrite length_app. simpl. lia.
Qed.

Lemma attempts_requests_le lfa plan h ip remaining attempt st :
  length (requests (attempts' lfa plan h ip remaining attempt st).2)
  ≤ length (requests st) + remaining.
Proof.
  revert attempt st. induction remaining as [|remaining IH]; intros attempt st;
    simpl; [lia|].
  pose proof (attempt_step_one_request lfa plan h ip attempt st) as Hone.
  destruct (attempt_step' lfa plan h ip attempt st) as [out st'|st'|e st'];
    simpl in *; [lia| |lia].
  specialize (IH (S attempt) st'). lia.
Qed.

(** X1.  Whatever the transformer answers, [romanize] sends it at most
    [MAX_RETRIES] requests; when no line needs the transformer (every
    line is Latin, or there is no line) it sends none and succeeds. *)
Theorem romanize_requests_are_bounded structuredInput :
  length (requests (romanize' structuredInput).2) ≤ MAX_RETRIES
  ∧ (lyricsForApi (prepareLyrics isPurelyLatinScript structuredInput) = [] →
     requests (romanize' structuredInput).2 = []
     ∧ ∃ fullList, (romanize' structuredInput).1 = Ok fullList).
Proof.
  unfold romanize. cbv zeta. split.
  - case_decide; simpl; [lia|].
    etrans; [apply attempts_requests_le|]. simpl. lia.
  - intros ->. case_decide; [simpl; eauto|done].
Qed.

(** The loop gives up only in its [catch] block, on the last attempt. *)
Lemma catch_block_Fail attempt st e e' st' :
  catch_block MAX_RETRIES attempt st e = Fail e' st' →
  attempt = MAX_RETRIES
  ∧ e' = Error (failed_after MAX_RETRIES ++ u ": " ++ error_message e).
Proof.
  unfold catch_block. case_decide; [by intros [= <- _]|].
  by destruct e.
Qed.

Lemma catch_block_last st e :
  ∃ e', catch_block MAX_RETRIES MAX_RETRIES st e = Fail e' st.
Proof. unfold catch_block. rewrite decide_True by done. eauto. Qed.

Lemma attempt_step_Fail lfa plan h ip attempt st e st' :
  attempt_step' lfa plan h ip attempt st = Fail e st' →
  attempt = MAX_RETRIES
  ∧ ∃ detail, e = Error (failed_after MAX_RETRIES ++ u ": " ++ detail).
Proof.
  unfold attempt_step. cbv zeta. intros Hstep.
  repeat case_match; try discriminate;
    apply catch_block_Fail in Hstep as [-> ->]; eauto.
Qed.

Lemma attempt_step_last lfa plan h ip st st' :
  attempt_step' lfa plan h ip MAX_RETRIES st ≠ Next st'.
Proof.
  unfold attempt_step. cbv zeta. intros Hstep.
  repeat case_match; try discriminate; try done;
    match type of Hstep with
    | catch_block _ _ ?s ?e = _ =>
        destruct (catch_block_last s e) as [e' He']; congruence
    end.
Qed.

Lemma attempts_Throw lfa plan h ip remaining attempt st e st' :
  attempt + remaining = S MAX_RETRIES →
  0 < remaining →
  attempts' lfa plan h ip remaining attempt st = (Throw e, st') →
  length (requests st') = length (requests st) + remaining
  ∧ ∃ detail, e = Error (failed_after MAX_RETRIES ++ u ": " ++ detail).
Proof.
  revert attempt st. induction remaining as [|remaining IH];
    intros attempt st Hsum Hpos; [lia|].
  simpl.
  pose proof (attempt_step_one_request lfa plan h ip attempt st) as Hone.
  destruct (attempt_step' lfa plan h ip attempt st) as [out st1|st1|e1 st1]
    eqn:Hstep; simpl in Hone; [done| |].
  - intros Hrun.
    assert (attempt ≠ MAX_RETRIES) as Hne.
    { intros ->. by apply attempt_step_last in Hstep. }
    destruct (IH (S attempt) st1) as [Hlen Hmsg]; [lia|lia|done|].
    split; [lia|done].
  - intros [= <- <-]. apply attempt_step_Fail in Hstep as [-> Hmsg].
    split; [lia|done].
Qed.

(** X2.  With at least one attempt allowed, [romanize] fails only once
    all [MAX_RETRIES] attempts have been made, and the error it throws
    is then an [Error] whose message starts with 'Gemini romanization
    failed after MAX_RETRIES attempts: '; the closing 'Unexpected error'
    of the loop is never reached. *)
Theorem romanize_fails_only_after_all_attempts structuredInput e st :
  0 < MAX_RETRIES →
  romanize' structuredInput = (Throw e, st) →
  length (requests st) = MAX_RETRIES
  ∧ ∃ detail, e = Error (failed_after MAX_RETRIES ++ u ": " ++ detail).
Proof.
  intros Hpos. unfold romanize. cbv zeta. case_decide; [done|].
  intros Hrun. apply attempts_Throw in Hrun as [Hlen Hmsg]; [|lia|lia].
  simpl in Hlen. done.
Qed.

End RomanizeLoop.

Lemma romanize_requests_are_bounded_witness :
  requests (sample_romanize 5 [] [] [plain_line (u "hello") 0]).2 = [].
Proof.
  apply (romanize_requests_are_bounded ascii_only sample_normalizeText
           levenshtein sample_numberToString sample_percentToFixed1
           sample_merge_into_non_array 5 default_settings (scripted [])
           (table_parse []) [plain_line (u "hello") 0]).
  reflexivity.
Defined.

Lemma romanize_fails_only_after_all_attempts_witness :
  ∃ e st,
    sample_romanize 2 [] [] four_lines = (Throw e, st)
    ∧ length (requests st) = 2.
Proof.
  destruct (sample_romanize 2 [] [] four_lines) as [[fullList|e] st] eqn:Hsample.
  - by vm_compute in Hsample.
  - exists e, st. split; [done|].
    apply (romanize_fails_only_after_all_attempts ascii_only
             sample_normalizeText levenshtein sample_numberToString
             sample_percentToFixed1 sample_merge_into_non_array 2
             default_settings (scripted []) (table_parse []) four_lines e st);
      [lia|exact Hsample].
Defined.

(* ================================================================== *)
(** * Further properties of the response validator *)
(* ================================================================== *)

Section ValidatorReport.

Variable normalizeText : JValue → Result jsstring.
Variable levenshteinDistance : jsstring → jsstring → nat.
Variable numberToString : Qc → jsstring.
Variable percentToFixed1 : nat → nat → jsstring.

Local Abbreviation validate' :=
  (validate normalizeText levenshteinDistance numberToString percentToFixed1).
Local Abbreviation validate_line' :=
  (validate_line normalizeText levenshteinDistance numberToString
     percentToFixed1).

(** What one line adds to the report: nothing, or one entry under its
    index with the errors found on it. *)
Lemma validate_line_report orig acc romanizedLine index acc' :
  validate_line' orig acc romanizedLine index = Ok acc' →
  acc' = acc
  ∨ ∃ lineErrors,
      lineErrors ≠ [] ∧ index < length orig
      ∧ acc' = (acc.1 ++ lineErrors, acc.2 ++ [(index, lineErrors)]).
Proof.
  unfold validate_line.
  destruct (orig !! index) as [originalLine|] eqn:Ho; [|by intros [= <-]; left].
  apply lookup_lt_Some in Ho.
  destruct (prop romanizedLine (u "original_line_index")) as [idx|e];
    cbn [mbind Result_bind]; [|done].
  destruct (prop romanizedLine (u "text")) as [t|e];
    cbn [mbind Result_bind]; [|done].
  destruct (prop romanizedLine (u "chunk")) as [ch|e];
    cbn [mbind Result_bind]; [|done].
  match goal with
  | |- context [?e3 ≫= _] => destruct e3 as [e3v|e]
  end; cbn [mbind Result_bind]; [|done].
  intros [= <-]. cbn [fst snd].
  match goal with
  | |- context [decide (0 < length ?l)] => generalize l
  end.
  intros lineErrors. case_decide as Hpos.
  - right. exists lineErrors. repeat split; try done.
    intros ->. simpl in Hpos. lia.
  - left. destruct lineErrors; [|simpl in Hpos; lia].
    rewrite !app_nil_r. by destruct acc.
Qed.

Lemma forEach_validate_report orig lines i acc acc' :
  forEach_from (validate_line' orig) i lines acc = Ok acc' →
  ∃ added,
    acc'.1 = acc.1 ++ concat (snd <$> added)
    ∧ acc'.2 = acc.2 ++ added
    ∧ Forall (λ d, i ≤ d.1 ∧ d.1 < length orig ∧ d.2 ≠ []) added
    ∧ ∀ j k dj dk,
        j < k → added !! j = Some dj → added !! k = Some dk → dj.1 < dk.1.
Proof.
  revert i acc. induction lines as [|romanizedLine lines IH]; intros i acc;
    cbn [forEach_from].
  - intros [= <-]. exists []. rewrite !app_nil_r.
    repeat split; [constructor|]. by intros j k dj dk _ ?.
  - destruct (validate_line' orig acc romanizedLine i) as [acc1|e] eqn:Hline;
      cbn [mbind Result_bind]; [|done].
    intros Hrest.
    apply IH in Hrest as (rest & H1 & H2 & Hrest & Hsorted).
    assert (Forall (λ d, i ≤ d.1 ∧ d.1 < length orig ∧ d.2 ≠ []) rest)
      as Hrest'.
    { eapply Forall_impl; [done|]. intros d (? & ? & ?).
      repeat split; try done. lia. }
    apply validate_line_report in Hline
      as [->|(lineErrors & Hne & Hlt & ->)].
    + by exists rest.
    + exists ((i, lineErrors) :: rest). cbn [fst snd] in *.
      rewrite H1, H2. simpl. rewrite <- !app_assoc.
      repeat split; [by constructor|].
      intros [|j] [|k] dj dk Hjk Hj Hk; simpl in *; try lia.
      * injection Hj as <-. simpl.
        eapply Forall_lookup_1 in Hrest as (? & _); [|done]. lia.
      * eapply Hsorted; [|done..]. lia.
Qed.

(** X6.  A report of [validate] is consistent: it is valid exactly when
    it lists no error; the per-line entries name lines of the request,
    in increasing order, each with at least one error; and the error
    list is the concatenation of the per-line errors, unless the
    response was rejected as a whole (no array, or a wrong line count),
    in which case there is one error and no per-line entry. *)
Theorem validate_report_is_consistent originalLyricsForApi geminiResponse vr :
  validate normalizeText levenshteinDistance numberToString percentToFixed1
    originalLyricsForApi geminiResponse = Ok vr →
  (isValid vr = true ↔ errors vr = [])
  ∧ (errors vr = concat (snd <$> detailedErrors vr)
     ∨ (detailedErrors vr = [] ∧ ∃ message, errors vr = [message]))
  ∧ Forall (λ d, d.1 < length originalLyricsForApi ∧ d.2 ≠ [])
      (detailedErrors vr)
  ∧ ∀ j k dj dk,
      j < k → detailedErrors vr !! j = Some dj →
      detailedErrors vr !! k = Some dk → dj.1 < dk.1.
Proof.
  unfold validate.
  assert (∀ message,
            let vr := {| isValid := false; errors := [message];
                         detailedErrors := [] |} in
            (isValid vr = true ↔ errors vr = [])
            ∧ (errors vr = concat (snd <$> detailedErrors vr)
               ∨ (detailedErrors vr = [] ∧ ∃ message, errors vr = [message]))
            ∧ Forall (λ d, d.1 < length originalLyricsForApi ∧ d.2 ≠ [])
                (detailedErrors vr)
            ∧ ∀ j k dj dk,
                j < k → detailedErrors vr !! j = Some dj →
                detailedErrors vr !! k = Some dk → dj.1 < dk.1) as Hwhole.
  { intros message. simpl. repeat split; try done; eauto. }
  destruct (truthy geminiResponse); simpl; [|intros [= <-]; apply Hwhole].
  destruct (prop geminiResponse (u "romanized_lyrics")) as [rl|e];
    cbn [mbind Result_bind]; [|done].
  destruct rl as [| | | | |lines|]; try (intros [= <-]; apply Hwhole).
  case_decide; [intros [= <-]; apply Hwhole|].
  destruct (forEach _ lines _) as [acc|e] eqn:Hloop;
    cbn [mbind Result_bind]; [|done].
  intros [= <-]. simpl.
  apply forEach_validate_report in Hloop as (added & H1 & H2 & Hall & Hsorted).
  simpl in H1, H2. rewrite H1, H2.
  split; [|split; [by left|split]].
  - rewrite bool_decide_eq_true. split.
    + by intros ?%nil_length_inv.
    + by intros ->.
  - eapply Forall_impl; [done|]. by intros d (_ & ? & ?).
  - done.
Qed.

End ValidatorReport.

Lemma validate_report_is_consistent_witness :
  ∃ vr,
    validate sample_normalizeText levenshtein sample_numberToString
      sample_percentToFixed1
      (lyricsForApi (prepareLyrics ascii_only four_lines))
      stored_response = Ok vr
    ∧ (isValid vr = true ↔ errors vr = []).
Proof.
  eexists. split; [vm_compute; reflexivity|].
  eapply (validate_report_is_consistent sample_normalizeText levenshtein
            sample_numberToString sample_percentToFixed1
            (lyricsForApi (prepareLyrics ascii_only four_lines))
            stored_response).
  vm_compute. reflexivity.
Defined.

(* ================================================================== *)
(** * Content keys *)
(* ================================================================== *)

Lemma hex_value_digit n : (n < 16)%N → hex_value (hex_digit n) = n.
Proof.
  intros Hn. unfold hex_value, hex_digit.
  destruct (N.ltb_spec n 10).
  - destruct (N.ltb_spec (48 + n) 58); lia.
  - destruct (N.ltb_spec (87 + n) 58); lia.
Qed.

Lemma unquote_unicode_escape c r :
  (c < 65536)%N →
  unquote_units (unicode_escape c ++ r)
  = '(t, rest) ← unquote_units r; Some (c :: t, rest).
Proof.
  intros Hc. unfold unicode_escape. cbn [app unquote_units].
  rewrite decide_False by done. rewrite decide_True by done.
  rewrite decide_True by done.
  rewrite !hex_value_digit by (apply N.mod_lt; done).
  replace (4096 * (c / 4096 mod 16) + 256 * (c / 256 mod 16)
           + 16 * (c / 16 mod 16) + c mod 16)%N with c; [done|].
  assert (c / 4096 < 16)%N by (apply N.Div0.div_lt_upper_bound; lia).
  rewrite (N.mod_small (c / 4096) 16) by done.
  pose proof (N.div_mod c 16 ltac:(done)).
  pose proof (N.div_mod (c / 16) 16 ltac:(done)).
  pose proof (N.div_mod (c / 16 / 16) 16 ltac:(done)).
  rewrite !N.Div0.div_div in *.
  change (16 * 16)%N with 256%N in *. change (256 * 16)%N with 4096%N in *.
  assert (c / 4096 mod 16 = c / 4096)%N by (by apply N.mod_small).
  lia.
Qed.

Lemma surrogate_bounds c :
  is_high_surrogate c || is_low_surrogate c = true →
  (c < 65536)%N ∧ c ≠ 34%N ∧ c ≠ 92%N.
Proof.
  unfold is_high_surrogate, is_low_surrogate.
  rewrite orb_true_iff, !andb_true_iff, !N.leb_le. lia.
Qed.

Lemma unquote_raw c r :
  c ≠ 34%N → c ≠ 92%N →
  unquote_units (c :: r) = '(t, rest) ← unquote_units r; Some (c :: t, rest).
Proof. intros. cbn [unquote_units]. by rewrite !decide_False by done. Qed.

Lemma unquote_quote_unit c r :
  is_high_surrogate c = false →
  unquote_units (quote_unit c ++ r)
  = '(t, rest) ← unquote_units r; Some (c :: t, rest).
Proof.
  intros Hhigh. unfold quote_unit.
  repeat case_decide; subst; try done.
  destruct ((c <? 32)%N || is_high_surrogate c || is_low_surrogate c) eqn:Hesc.
  - apply unquote_unicode_escape.
    rewrite <- orb_assoc in Hesc. apply orb_true_iff in Hesc as [Hlow|Hsur].
    + apply N.ltb_lt in Hlow. lia.
    + by apply surrogate_bounds in Hsur as [? _].
  - by apply unquote_raw.
Qed.

(** Reading back what [quote_units] wrote, up to the closing quote,
    gives the string and what follows. *)
Lemma unquote_quote_units s r :
  unquote_units (quote_units s ++ 34%N :: r) = Some (s, r).
Proof.
  remember (length s) as n eqn:Hn. revert s Hn.
  induction (lt_wf n) as [n _ IH]. intros [|c s] Hn; [done|].
  simpl in Hn. cbn [quote_units].
  destruct (is_high_surrogate c) eqn:Hhigh.
  - assert (is_high_surrogate c || is_low_surrogate c = true) as Hc
      by (by rewrite Hhigh).
    apply surrogate_bounds in Hc as (Hlt & H34 & H92).
    destruct s as [|d s].
    + rewrite unquote_unicode_escape by done. by cbn.
    + destruct (is_low_surrogate d) eqn:Hlow.
      * assert (is_high_surrogate d || is_low_surrogate d = true) as Hd
          by (by rewrite Hlow, orb_true_r).
        apply surrogate_bounds in Hd as (_ & H34' & H92').
        cbn [app]. rewrite !unquote_raw by done.
        rewrite (IH (length s)); [done| |done]. simpl in Hn. lia.
      * rewrite <- app_assoc, unquote_unicode_escape by done.
        rewrite (IH (length (d :: s))); [done| |done]. lia.
  - rewrite <- app_assoc, unquote_quote_unit by done.
    rewrite (IH (length s)); [done| |done]. lia.
Qed.

(** So a quoted string determines the string and what follows it. *)
Lemma quoteJSONString_inj s1 s2 r1 r2 :
  quoteJSONString s1 ++ r1 = quoteJSONString s2 ++ r2 → s1 = s2 ∧ r1 = r2.
Proof.
  unfold quoteJSONString. rewrite <- !app_assoc. cbn [app].
  intros [= Heq].
  pose proof (unquote_quote_units s1 r1) as H1.
  rewrite Heq, unquote_quote_units in H1. by injection H1 as <- <-.
Qed.

(** *** Decimal numbers *)

Lemma u_inj s1 s2 : u s1 = u s2 → s1 = s2.
Proof.
  revert s2. induction s1 as [|c s1 IH]; intros [|c' s2]; try done.
  simpl. intros [= Hc Hs]. f_equal; [|by apply IH].
  rewrite <- (ascii_N_embedding c), <- (ascii_N_embedding c'). by rewrite Hc.
Qed.

Lemma dec_inj n m : dec n = dec m → n = m.
Proof. unfold dec. intros Heq%u_inj. by apply (inj pretty). Qed.

Lemma pretty_N_char_digit x : is_digit (N_of_ascii (pretty_N_char x)).
Proof.
  unfold pretty_N_char, is_digit. repeat case_match; simpl; lia.
Qed.

Lemma pretty_N_go_digits x s :
  Forall is_digit (u s) → Forall is_digit (u (pretty_N_go x s)).
Proof.
  revert s. induction (N.lt_wf_0 x) as [x _ IH]. intros s Hs.
  assert (x = 0 ∨ 0 < x)%N as [->|Hpos] by lia; [by rewrite pretty_N_go_0|].
  rewrite pretty_N_go_step by done. apply IH.
  - by apply N.div_lt.
  - simpl. constructor; [apply pretty_N_char_digit|done].
Qed.

Lemma dec_digits n : Forall is_digit (dec n).
Proof.
  unfold dec, pretty, pretty_nat, pretty, pretty_N. case_decide.
  - repeat constructor; unfold is_digit; simpl; lia.
  - apply pretty_N_go_digits. constructor.
Qed.

(** A run of items, closed by something that is not an item,
    determines the run and what follows. *)
Lemma run_inj {A} (P : A → Prop) l1 l2 x1 x2 r1 r2 :
  Forall P l1 → Forall P l2 → ¬ P x1 → ¬ P x2 →
  l1 ++ x1 :: r1 = l2 ++ x2 :: r2 → l1 = l2 ∧ x1 :: r1 = x2 :: r2.
Proof.
  intros H1 H2 Hx1 Hx2. revert l2 H2.
  induction H1 as [|a l1 Ha _ IH]; intros l2 H2; destruct H2 as [|b l2 Hb H2];
    simpl; intros [= ? Heq]; subst; try done.
  apply IH in Heq as [-> ?]; done.
Qed.

Lemma dec_closed_inj n m c r1 r2 :
  ¬ is_digit c →
  dec n ++ c :: r1 = dec m ++ c :: r2 → n = m ∧ r1 = r2.
Proof.
  intros Hc Heq.
  apply (run_inj is_digit) in Heq as [Hdec [= <-]];
    auto using dec_digits.
  split; [by apply dec_inj|done].
Qed.

(** *** Chunks and lines *)

Lemma stringify_chunk_inj c1 c2 r1 r2 :
  stringify_chunk c1 ++ r1 = stringify_chunk c2 ++ r2 → c1 = c2 ∧ r1 = r2.
Proof.
  unfold stringify_chunk. rewrite <- !app_assoc.
  intros Heq. apply app_inv_head in Heq.
  apply app_inv_head in Heq. apply app_inv_head in Heq.
  apply quoteJSONString_inj in Heq as [Htext Heq].
  destruct c1 as [t1 [i1|]], c2 as [t2 [i2|]];
    cbn [chunkIndex chunk_text] in *; subst.
  - rewrite <- !app_assoc in Heq.
    apply app_inv_head in Heq. apply app_inv_head in Heq.
    apply app_inv_head in Heq.
    change (u "}" ++ r1) with (125%N :: r1) in Heq.
    change (u "}" ++ r2) with (125%N :: r2) in Heq.
    apply dec_closed_inj in Heq as [-> ->]; [done|].
    unfold is_digit. lia.
  - by vm_compute in Heq.
  - by vm_compute in Heq.
  - by injection Heq as ->.
Qed.

Lemma stringify_chunk_head c :
  ∃ r, stringify_chunk c = 123%N :: r.
Proof. unfold stringify_chunk. by eexists. Qed.

Lemma join_chunks_cons c cs :
  join_with (u ",") (stringify_chunk <$> c :: cs)
  = stringify_chunk c
    ++ match cs with
       | [] => []
       | _ => u "," ++ join_with (u ",") (stringify_chunk <$> cs)
       end.
Proof. destruct cs; simpl; [by rewrite app_nil_r|done]. Qed.

Lemma join_chunks_inj cs1 cs2 r1 r2 :
  join_with (u ",") (stringify_chunk <$> cs1) ++ 93%N :: r1
  = join_with (u ",") (stringify_chunk <$> cs2) ++ 93%N :: r2 →
  cs1 = cs2 ∧ r1 = r2.
Proof.
  revert cs2. induction cs1 as [|c1 cs1 IH]; intros [|c2 cs2].
  - by intros [= ->].
  - rewrite join_chunks_cons. destruct (stringify_chunk_head c2) as [r ->].
    done.
  - rewrite join_chunks_cons. destruct (stringify_chunk_head c1) as [r ->].
    done.
  - rewrite !join_chunks_cons, <- !app_assoc.
    intros Heq. apply stringify_chunk_inj in Heq as [-> Heq].
    destruct cs1 as [|c1' cs1], cs2 as [|c2' cs2]; cbv iota beta in Heq.
    + by injection Heq as ->.
    + by vm_compute in Heq.
    + by vm_compute in Heq.
    + rewrite <- !app_assoc in Heq. apply app_inv_head in Heq.
      apply IH in Heq as [-> ->]. done.
Qed.

(** The content key of a line determines its text and its chunks. *)
Lemma contentKey_inj line1 line2 :
  contentKey line1 = contentKey line2 →
  text line1 = text line2 ∧ chunk line1 = chunk line2.
Proof.
  unfold contentKey. intros Heq.
  apply app_inv_head in Heq. apply app_inv_head in Heq.
  apply app_inv_head in Heq.
  apply quoteJSONString_inj in Heq as [Htext Heq].
  split; [done|].
  destruct (chunk line1) as [cs1|], (chunk line2) as [cs2|]; try done.
  rewrite <- !app_assoc in Heq.
  apply app_inv_head in Heq. apply app_inv_head in Heq.
  apply app_inv_head in Heq.
  change (u "]" ++ u "}") with (93%N :: u "}") in Heq.
  apply join_chunks_inj in Heq as [-> _]. done.
Qed.

(* ================================================================== *)
(** * Further properties of preparation and reconstruction *)
(* ================================================================== *)

Section PreparedSlots.

Variable isPurelyLatinScript : jsstring → bool.

(** The slot of a line that is not Latin holds that line: its text, its
    chunks when it has some, and the position of the slot. *)
Lemma prepared_slot structuredInput i line :
  let prepared := prepareLyrics isPurelyLatinScript structuredInput in
  structuredInput !! i = Some line →
  isPurelyLatinScript (text line) = false →
  ∃ a, reconstructionPlan prepared !! i = Some (api a i)
       ∧ lyricsForApi prepared !! a = Some (apiLine_of line a).
Proof.
  intros prepared Hi Hnl.
  destruct (prepareLyrics_spec isPurelyLatinScript structuredInput)
    as [keys (_ & _ & _ & _ & Hslot & Hplan)].
  fold prepared in Hslot, Hplan.
  specialize (Hplan i line Hi). rewrite Hnl in Hplan.
  destruct Hplan as (a & Ha & Hk). exists a. split; [done|].
  destruct (Hslot a _ Hk) as (line' & _ & _ & Hkey & ->).
  apply contentKey_inj in Hkey as [Htext Hchunk].
  unfold apiLine_of, has_chunks. by rewrite Htext, Hchunk.
Qed.

(** X4.  Two lines that are sent to the transformer share a slot
    exactly when they have the same text and the same chunks: lines of
    different content are never merged. *)
Theorem prepareLyrics_shares_slots_exactly structuredInput i j li lj a b :
  let plan :=
    reconstructionPlan (prepareLyrics isPurelyLatinScript structuredInput) in
  structuredInput !! i = Some li →
  structuredInput !! j = Some lj →
  plan !! i = Some (api a i) →
  plan !! j = Some (api b j) →
  a = b ↔ text li = text lj ∧ chunk li = chunk lj.
Proof.
  intros plan Hi Hj Hpi Hpj.
  destruct (prepareLyrics_spec isPurelyLatinScript structuredInput)
    as [keys (_ & _ & Hnodup & _ & _ & Hplan)].
  fold plan in Hplan.
  pose proof (Hplan i li Hi) as Hli. pose proof (Hplan j lj Hj) as Hlj.
  destruct (isPurelyLatinScript (text li)); [congruence|].
  destruct (isPurelyLatinScript (text lj)); [congruence|].
  destruct Hli as (a' & Ha' & Hka). destruct Hlj as (b' & Hb' & Hkb).
  assert (a' = a) as -> by congruence. assert (b' = b) as -> by congruence.
  split.
  - intros ->. apply contentKey_inj. congruence.
  - intros [Htext Hchunk]. eapply NoDup_lookup; [done..|].
    rewrite Hkb. unfold contentKey. by rewrite Htext, Hchunk.
Qed.

(** X5.  What is sent to the transformer: every line of the request
    has a text that is not purely Latin, carries its position in the
    request as [original_line_index], has a chunk array only if it is
    not empty, and stands for a line of the document, whose text (and
    chunks, if any) it has; and every line of the document that is not
    Latin has its slot in the request. *)
Theorem lyricsForApi_holds_the_lines_to_romanize structuredInput :
  let prepared := prepareLyrics isPurelyLatinScript structuredInput in
  (∀ a apiLine,
     lyricsForApi prepared !! a = Some apiLine →
     isPurelyLatinScript (text apiLine) = false
     ∧ original_line_index apiLine = Some a
     ∧ chunk apiLine ≠ Some []
     ∧ ∃ i line, structuredInput !! i = Some line
                 ∧ reconstructionPlan prepared !! i = Some (api a i)
                 ∧ apiLine = apiLine_of line a)
  ∧ (∀ i line,
       structuredInput !! i = Some line →
       isPurelyLatinScript (text line) = false →
       ∃ a, reconstructionPlan prepared !! i = Some (api a i)
            ∧ lyricsForApi prepared !! a = Some (apiLine_of line a)).
Proof.
  intros prepared. split; [|by apply prepared_slot].
  intros a apiLine Ha.
  destruct (prepareLyrics_spec isPurelyLatinScript structuredInput)
    as [keys (_ & Hkeys & Hnodup & _ & Hslot & Hplan)].
  fold prepared in Hkeys, Hslot, Hplan.
  destruct (lookup_lt_is_Some_2 keys a) as [k Hk].
  { rewrite Hkeys. by eapply lookup_lt_Some. }
  destruct (Hslot a k Hk)
    as (line & [i Hi]%list_elem_of_lookup & Hnl & Hkey & Hl).
  assert (apiLine = apiLine_of line a) as -> by congruence.
  repeat split; try done.
  - unfold apiLine_of, has_chunks. simpl. by destruct (chunk line) as [[|??]|].
  - exists i, line. repeat split; try done.
    specialize (Hplan i line Hi). rewrite Hnl in Hplan.
    destruct Hplan as (a' & Hp & Hk').
    assert (a' = a) as ->; [|done].
    eapply NoDup_lookup; [done..|]. by rewrite Hk, Hkey.
Qed.

End PreparedSlots.

Lemma prepareLyrics_shares_slots_exactly_witness :
  0 = 1
  ↔ text (plain_line kon 0) = text (plain_line nichi 1)
    ∧ chunk (plain_line kon 0) = chunk (plain_line nichi 1).
Proof.
  apply (prepareLyrics_shares_slots_exactly ascii_only four_kana_lines 0 1
           (plain_line kon 0) (plain_line nichi 1) 0 1); reflexivity.
Defined.

Lemma lyricsForApi_holds_the_lines_to_romanize_witness :
  ∃ a,
    reconstructionPlan (prepareLyrics ascii_only four_kana_lines) !! 3
    = Some (api a 3)
    ∧ lyricsForApi (prepareLyrics ascii_only four_kana_lines) !! a
      = Some (apiLine_of (plain_line nichi 3) a).
Proof.
  apply (lyricsForApi_holds_the_lines_to_romanize ascii_only four_kana_lines);
    reflexivity.
Defined.

(* ================================================================== *)
(** * The document that comes back *)
(* ================================================================== *)

Section ValidatedOutput.

Variable isPurelyLatinScript : jsstring → bool.
Variable normalizeText : JValue → Result jsstring.
Variable levenshteinDistance : jsstring → jsstring → nat.
Variable numberToString : Qc → jsstring.
Variable percentToFixed1 : nat → nat → jsstring.
Variable merge_into_non_array : JValue → JValue → Result JValue.
Variable MAX_RETRIES : nat.
Variable settings : TranslationSettings.
Variable callGeminiAPI : nat → list Turn → Schema → Result jsstring.
Variable JSON_parse : jsstring → Result JValue.

Local Abbreviation validate' :=
  (validate normalizeText levenshteinDistance numberToString percentToFixed1).
Local Abbreviation romanize' :=
  (romanize isPurelyLatinScript normalizeText levenshteinDistance
     numberToString percentToFixed1 merge_into_non_array MAX_RETRIES
     settings callGeminiAPI JSON_parse).

(** A response that [validate] accepts meets the shape contract. *)
Lemma validate_valid_contract lfa response vr :
  validate' lfa response = Ok vr →
  isValid vr = true →
  response_contract normalizeText levenshteinDistance lfa response.
Proof.
  unfold validate, response_contract. intros Hvalidate Hvalid.
  destruct (truthy response); simpl in Hvalidate;
    [|by injection Hvalidate as <-].
  destruct (prop response (u "romanized_lyrics")) as [rl|e] eqn:Hrl;
    cbn [mbind Result_bind] in Hvalidate; [|done].
  destruct rl as [| | | | |lines|]; try (by injection Hvalidate as <-).
  destruct (decide (length lines ≠ length lfa)) as [Hlen|Hlen];
    [by injection Hvalidate as <-|].
  destruct (forEach _ lines _) as [acc|e] eqn:Hloop;
    cbn [mbind Result_bind] in Hvalidate; [|done].
  injection Hvalidate as <-. simpl in Hvalid.
  apply bool_decide_eq_true in Hvalid.
  apply forEach_validate_Ok in Hloop as (added & Hacc & Hall).
  simpl in Hacc. exists lines. split; [done|]. split; [lia|].
  intros k rl o Hk Ho. apply (Hall) with (k := k); [|done..].
  rewrite Hacc in Hvalid. by destruct added.
Qed.

(** X3.  In a document that [romanize] returns, every line that is not
    Latin comes back at its place with the romanized line the
    transformer gave for it: its text is a string, and it has a chunk
    array exactly when the input line has chunks, in which case it has
    as many chunks as the input line, none of them blank. *)
Theorem romanize_keeps_the_structure_of_each_line structuredInput fullList st
    i line :
  romanize' structuredInput = (Ok fullList, st) →
  structuredInput !! i = Some line →
  isPurelyLatinScript (text line) = false →
  ∃ o t ch,
    fullList !! i = Some (Some o)
    ∧ prop o (u "original_line_index") = Ok (JNat i)
    ∧ prop o (u "text") = Ok (JStr t)
    ∧ prop o (u "chunk") = Ok ch
    ∧ if has_chunks line then
        ∃ cs, ch = JArr cs
              ∧ length cs = length (default [] (chunk line))
              ∧ forallb non_blank cs = true
      else isArray ch = false.
Proof.
  intros Hrun Hi Hnl.
  destruct (prepared_slot isPurelyLatinScript structuredInput i line Hi Hnl)
    as (a & Hplan & Hslot).
  unfold romanize in Hrun. cbv zeta in Hrun.
  set (prepared := prepareLyrics isPurelyLatinScript structuredInput) in *.
  destruct (decide (length (lyricsForApi prepared) = 0)) as [Hempty|_].
  { apply lookup_lt_Some in Hslot. lia. }
  apply attempts_Ok in Hrun
    as (finalResponse & lines & vr & Hvalidate & Hvalid & Hlines & ->).
  apply validate_valid_contract in Hvalidate
    as (lines' & Hlines' & Hlen & Hall); [|done].
  assert (lines' = lines) as -> by congruence.
  destruct (lookup_lt_is_Some_2 lines a) as [rl Hrl].
  { rewrite Hlen. by eapply lookup_lt_Some. }
  destruct (Hall a rl _ Hrl Hslot) as (Hidx & t & ch & Ht & Hch & Hchunks).
  destruct (reconstruct_prepared isPurelyLatinScript structuredInput lines
              (existsb has_chunks (lyricsForApi prepared)))
    as (out & Hfull & _ & Hout).
  fold prepared in Hfull. rewrite Hfull. clear Hfull.
  destruct (Hout i line Hi) as (o & Ho & Hoi & Hrest).
  rewrite Hnl in Hrest. destruct Hrest as (a' & Hplan' & ->).
  fold prepared in Hplan'. assert (a' = a) as -> by congruence.
  destruct rl as [| | | | | |fs]; try done.
  exists (JObj (set_field fs (u "original_line_index") (JNat i))), t, ch.
  rewrite list_lookup_fmap.
  split; [by rewrite Ho; simpl; rewrite Hrl|].
  split; [by simpl in Hoi; rewrite Hrl in Hoi|].
  simpl in Ht, Hch |- *.
  split; [by rewrite get_set_field_ne by (symmetry; apply text_ne_index)|].
  split; [by rewrite get_set_field_ne by (symmetry; apply chunk_ne_index)|].
  assert (has_chunks (apiLine_of line a) = has_chunks line
          ∧ (has_chunks line = true →
             chunk (apiLine_of line a) = chunk line)) as [Hhas Hsame].
  { unfold apiLine_of, has_chunks. simpl.
    by destruct (chunk line) as [[|??]|]. }
  rewrite Hhas in Hchunks. destruct (has_chunks line); [|done].
  destruct Hchunks as (cs & -> & Hcount & Hblank & _).
  exists cs. rewrite <- Hsame by done. done.
Qed.

End ValidatedOutput.

Lemma romanize_keeps_the_structure_of_each_line_witness :
  ∃ fullList st o t,
    sample_romanize 5 [Ok (u "r1")] [(u "r1", two_slots_response)] four_lines
    = (Ok fullList, st)
    ∧ fullList !! 3 = Some (Some o)
    ∧ prop o (u "text") = Ok (JStr t).
Proof.
  destruct (sample_romanize 5 [Ok (u "r1")] [(u "r1", two_slots_response)]
              four_lines) as [[fullList|e] st] eqn:Hsample;
    [|by vm_compute in Hsample].
  destruct (romanize_keeps_the_structure_of_each_line ascii_only
              sample_normalizeText levenshtein sample_numberToString
              sample_percentToFixed1 sample_merge_into_non_array 5
              default_settings (scripted [Ok (u "r1")])
              (table_parse [(u "r1", two_slots_response)]) four_lines
              fullList st 3 (plain_line nichi 3) Hsample eq_refl eq_refl)
    as (o & t & ch & Ho & _ & Ht & _).
  by exists fullList, st, o, t.
Defined.

(* ================================================================== *)
(** * Further properties of the repair requests *)
(* ================================================================== *)

Lemma set_add_spec s i :
  NoDup s → NoDup (set_add s i) ∧ ∀ x, x ∈ set_add s i ↔ x ∈ s ∨ x = i.
Proof.
  intros Hs. unfold set_add. case_decide as Hin.
  - split; [done|]. intros x. split; [by left|]. by intros [?| ->].
  - split.
    + apply NoDup_app. repeat split; [done| |apply NoDup_singleton].
      intros x Hx ->%list_elem_of_singleton. done.
    + intros x. rewrite elem_of_app, list_elem_of_singleton. done.
Qed.

Lemma foldl_set_add_spec {A} (f : A → nat) l s :
  NoDup s →
  NoDup (foldl (λ s e, set_add s (f e)) s l)
  ∧ ∀ x, x ∈ foldl (λ s e, set_add s (f e)) s l ↔ x ∈ s ∨ x ∈ f <$> l.
Proof.
  revert s. induction l as [|e l IH]; intros s Hs; simpl.
  - split; [done|]. intros x. rewrite elem_of_nil. tauto.
  - destruct (set_add_spec s (f e) Hs) as [Hnd Hin].
    destruct (IH _ Hnd) as [Hnd' Hin']. split; [done|].
    intros x. rewrite Hin', Hin, elem_of_cons. tauto.
Qed.

Lemma problematic_line_spec lfa s line index s' :
  problematic_line lfa s line index = Ok s' →
  NoDup s → NoDup s' ∧ ∀ x, x ∈ s → x ∈ s'.
Proof.
  unfold problematic_line. intros Hrun Hs.
  destruct (lfa !! index) as [originalLine|]; [|by injection Hrun as <-].
  match type of Hrun with
  | (?m ≫= _) = _ => destruct m as [issues1|e]
  end; cbn [mbind Result_bind] in Hrun; [|done].
  destruct (prop line (u "original_line_index")) as [idx|e];
    cbn [mbind Result_bind] in Hrun; [|done].
  destruct (prop line (u "text")) as [t|e];
    cbn [mbind Result_bind] in Hrun; [|done].
  injection Hrun as <-. case_decide; [|done].
  destruct (set_add_spec s index Hs) as [Hnd Hin].
  split; [done|]. intros x Hx. apply Hin. by left.
Qed.

Lemma forEach_problematic_line_spec lfa lines i s s' :
  forEach_from (problematic_line lfa) i lines s = Ok s' →
  NoDup s → NoDup s' ∧ ∀ x, x ∈ s → x ∈ s'.
Proof.
  revert i s. induction lines as [|line lines IH]; intros i s;
    cbn [forEach_from].
  - by intros [= <-].
  - destruct (problematic_line lfa s line i) as [s1|e] eqn:Hline;
      cbn [mbind Result_bind]; [|done].
    intros Hrest Hs.
    destruct (problematic_line_spec _ _ _ _ _ Hline Hs) as [Hnd Hin].
    destruct (IH _ _ Hrest Hnd) as [Hnd' Hin']. split; [done|]. auto.
Qed.

(** X7.  The lines [getProblematicLines] returns are distinct lines of
    the request, each with its position as [original_line_index]; there
    are at most as many as the request has lines; and every line of the
    request that the validator reported an error for is among them. *)
Theorem getProblematicLines_flags_lines_of_the_request
    originalLyricsForApi response detailedErrors problematicLines :
  getProblematicLines originalLyricsForApi response detailedErrors
  = Ok problematicLines →
  NoDup (original_line_index <$> problematicLines)
  ∧ length problematicLines ≤ length originalLyricsForApi
  ∧ (∀ line, line ∈ problematicLines →
       ∃ index originalLine,
         originalLyricsForApi !! index = Some originalLine
         ∧ line = {| text := text originalLine;
                     original_line_index := Some index;
                     chunk := chunk originalLine |})
  ∧ (∀ d, d ∈ detailedErrors →
       d.1 < length originalLyricsForApi →
       Some d.1 ∈ original_line_index <$> problematicLines).
Proof.
  unfold getProblematicLines. cbv zeta.
  destruct (foldl_set_add_spec (λ e : nat * list jsstring, e.1)
              detailedErrors [] (NoDup_nil_2)) as [Hnd0 Hin0].
  set (reported := foldl _ [] detailedErrors) in *.
  destruct (prop response (u "romanized_lyrics")) as [rl|e];
    cbn [mbind Result_bind]; [|done].
  match goal with
  | |- (?m ≫= _) = _ → _ => destruct m as [indices|e] eqn:Hloop
  end; cbn [mbind Result_bind]; [|done].
  intros [= <-].
  assert (NoDup indices ∧ ∀ x, x ∈ reported → x ∈ indices) as [Hnd Hin].
  { destruct (truthy rl); [|by injection Hloop as <-].
    destruct (as_array rl) as [lines|e];
      cbn [mbind Result_bind] in Hloop; [|done].
    by eapply forEach_problematic_line_spec. }
  clear Hloop.
  match goal with
  | |- context [omap ?f indices] => set (pick := f) in *
  end.
  assert (∀ line, line ∈ omap pick indices ↔
            ∃ index originalLine,
              index ∈ indices
              ∧ originalLyricsForApi !! index = Some originalLine
              ∧ line = {| text := text originalLine;
                          original_line_index := Some index;
                          chunk := chunk originalLine |}) as Hpicked.
  { intros line. rewrite list_elem_of_omap. unfold pick. split.
    - intros (index & Hindex & Hline).
      destruct (originalLyricsForApi !! index) as [l|] eqn:Hl; [|done].
      injection Hline as <-. by exists index, l.
    - intros (index & l & Hindex & Hl & ->). exists index.
      split; [done|]. by rewrite Hl. }
  assert (original_line_index <$> omap pick indices
          = Some <$> filter (λ index, index < length originalLyricsForApi)
                       indices) as Hindices.
  { clear Hnd Hin Hpicked. induction indices as [|index indices IH]; [done|].
    csimpl. rewrite filter_cons. unfold pick at 1.
    destruct (originalLyricsForApi !! index) as [l|] eqn:Hl; csimpl.
    - apply lookup_lt_Some in Hl. rewrite decide_True by done.
      csimpl. by rewrite IH.
    - apply lookup_ge_None in Hl. rewrite decide_False by lia. done. }
  assert (NoDup (filter (λ index, index < length originalLyricsForApi)
                   indices)) as Hnd' by by apply NoDup_filter.
  split; [|split; [|split]].
  - rewrite Hindices. by apply (NoDup_fmap_2 _).
  - rewrite <- (length_fmap original_line_index), Hindices, length_fmap.
    trans (length (seq 0 (length originalLyricsForApi)));
      [|by rewrite length_seq].
    apply submseteq_length, NoDup_submseteq; [done|].
    intros x [Hx _]%list_elem_of_filter. apply elem_of_seq. lia.
  - intros line (index & l & _ & Hl & ->)%Hpicked. eauto.
  - intros d Hd Hlt. rewrite Hindices. apply list_elem_of_fmap.
    exists d.1. split; [done|]. apply list_elem_of_filter. split; [done|].
    apply Hin, Hin0. right. apply list_elem_of_fmap. by exists d.
Qed.

Lemma getProblematicLines_flags_lines_of_the_request_witness :
  ∃ problematicLines,
    getProblematicLines (lyricsForApi (prepareLyrics ascii_only four_lines))
      stored_response [(1, [u "Line 1: incorrect original_line_index"])]
    = Ok problematicLines
    ∧ length problematicLines ≤ 2.
Proof.
  eexists. split; [vm_compute; reflexivity|].
  eapply (getProblematicLines_flags_lines_of_the_request
            (lyricsForApi (prepareLyrics ascii_only four_lines))
            stored_response [(1, [u "Line 1: incorrect original_line_index"])]).
  vm_compute. reflexivity.
Defined.

(* ================================================================== *)
(** * Further properties of the lyrics service *)
(* ================================================================== *)

Lemma run_finally_task {E R} (h : ∀ X, Op X → E → option (Result X * E))
    (t : Task R) (cleanup : State → State) e s :
  (let '(t', s') := finally_task t cleanup s in run h t' e s')
  = match run h t e s with
    | Some (r, e', s') => Some (r, e', cleanup s')
    | None => None
    end.
Proof.
  revert t e s. fix IH 1. intros [r|X op k] e s; [done|].
  cbn. destruct (h X op e) as [[r e']|]; [|done].
  specialize (IH (k r s).1 e' (k r s).2).
  destruct (k r s) as [t' s']. exact IH.
Qed.

Lemma run_async_try_finally {E R}
    (h : ∀ X, Op X → E → option (Result X * E))
    (m : Async R) (cleanup : State → State) e s :
  run_async h (try_finally m cleanup) e s
  = match run_async h m e s with
    | Some (r, e', s') => Some (r, e', cleanup s')
    | None => None
    end.
Proof.
  unfold run_async, try_finally. destruct (m s) as [t s'].
  apply run_finally_task.
Qed.

Section ProviderOrder.

Variable PROVIDERS_values : list Provider.

(** X8.  The provider order starts with the preferred provider, which
    is the configured one when it is a lyrics provider of the table and
    KPoe otherwise; it never contains the translation providers Google
    and Gemini; it contains every other provider of the table; and it
    names no provider twice when the table does not. *)
Theorem getProviderOrder_is_the_preferred_then_the_rest settings :
  let allowed p := p ∈ PROVIDERS_values ∧ p ≠ GOOGLE ∧ p ≠ GEMINI in
  let preferred :=
    match lyricsProvider settings with
    | Some p => if decide (allowed p) then p else KPOE
    | None => KPOE
    end in
  head (getProviderOrder PROVIDERS_values settings) = Some preferred
  ∧ (GOOGLE ∉ getProviderOrder PROVIDERS_values settings)
  ∧ (GEMINI ∉ getProviderOrder PROVIDERS_values settings)
  ∧ (∀ p, allowed p → p ∈ getProviderOrder PROVIDERS_values settings)
  ∧ (NoDup PROVIDERS_values →
     NoDup (getProviderOrder PROVIDERS_values settings)).
Proof.
  intros allowed preferred. unfold getProviderOrder. cbv zeta.
  set (allProviders := filter (λ p, p ≠ GOOGLE ∧ p ≠ GEMINI) PROVIDERS_values).
  assert (∀ p, p ∈ allProviders ↔ allowed p) as Hall.
  { intros p. unfold allProviders, allowed.
    rewrite list_elem_of_filter. tauto. }
  assert (match lyricsProvider settings with
          | Some p => if decide (p ∈ allProviders) then p else KPOE
          | None => KPOE
          end = preferred) as ->.
  { unfold preferred. destruct (lyricsProvider settings) as [p|]; [|done].
    destruct (decide (p ∈ allProviders)) as [Hin|Hout].
    - by rewrite decide_True by by apply Hall.
    - by rewrite decide_False by (by intros ?%Hall). }
  assert (preferred ≠ GOOGLE ∧ preferred ≠ GEMINI) as [Hgoogle Hgemini].
  { unfold preferred. destruct (lyricsProvider settings) as [p|]; [|done].
    case_decide as Hp; [|done]. by destruct Hp as (_ & ? & ?). }
  split; [done|]. split; [|split; [|split]].
  - rewrite not_elem_of_cons. split; [done|].
    intros [_ Hin]%list_elem_of_filter. apply Hall in Hin. by destruct Hin as (_ & ? & _).
  - rewrite not_elem_of_cons. split; [done|].
    intros [_ Hin]%list_elem_of_filter. apply Hall in Hin. by destruct Hin as (_ & _ & ?).
  - intros p Hp. destruct (decide (p = preferred)) as [->|Hne].
    + apply list_elem_of_here.
    + apply list_elem_of_further, list_elem_of_filter. split; [done|].
      by apply Hall.
  - intros Hnodup. apply NoDup_cons. split.
    + by intros [? _]%list_elem_of_filter.
    + by apply NoDup_filter, NoDup_filter.
Qed.

End ProviderOrder.

Lemma getProviderOrder_is_the_preferred_then_the_rest_witness :
  NoDup (getProviderOrder sample_PROVIDERS sample_settings).
Proof.
  apply (getProviderOrder_is_the_preferred_then_the_rest sample_PROVIDERS
           sample_settings).
  compute_done.
Defined.

Section LyricsCache.

Variable CACHE_EXPIRY : gmap jsstring Z.
Variable PROVIDERS_values : list Provider.
Variable isEmptyLyrics : option LyricsData → bool.
Variable parseKPoeFormat : JValue → LyricsData.
Variable numberToString : Qc → jsstring.
Variable external : ∀ X, Op X → option (Result X).

Local Abbreviation getOrFetch' :=
  (LyricsService_getOrFetch CACHE_EXPIRY parseKPoeFormat numberToString).
Local Abbreviation fetchNewLyrics' :=
  (fetchNewLyrics PROVIDERS_values isEmptyLyrics parseKPoeFormat).
Local Abbreviation handler := (world_handler external).

Lemma validateSongInfo_valid songInfo :
  truthy_string (title songInfo) = true →
  truthy_string (artist songInfo) = true →
  validateSongInfo (Some songInfo) = Ok songInfo.
Proof. unfold validateSongInfo. by intros -> ->. Qed.





(** X12.  With the cache strategy 'none' the persistent cache is
    bypassed: [getFromDB] answers [null] even when the store holds a
    fresh record, leaving the record in place, and [fetchNewLyrics]
    asks the providers with [cache: 'no-store'], keeps what it fetched
    in the memory cache only and writes nothing to the store. *)
Theorem strategy_none_bypasses_the_persistent_cache
    songInfo cacheKey forceReload w w1 s settings doc :
  let entry :=
    {| lyrics := with_fetchedAt doc (now s);
       version := versionNumber (now s) |} in
  cacheStrategy settings = u "none" →
  external _ settingsGet = Some (Ok settings) →
  external _ getLyricsSettings = Some (Ok settings) →
  run_async handler
    (provider_loop isEmptyLyrics parseKPoeFormat
       (getProviderOrder PROVIDERS_values settings) songInfo settings
       noStore forceReload None) w s
  = Some (Ok (Some doc), w1, s) →
  isEmptyLyrics (Some doc) = false →
  run_async handler (getFromDB CACHE_EXPIRY cacheKey) w s = Some (Ok None, w, s)
  ∧ run_async handler (fetchNewLyrics' songInfo cacheKey forceReload) w s
    = Some (Ok (lyricsEntry entry), w1,
            deleteOngoingFetch cacheKey
              (setCached cacheKey (lyricsEntry entry) s)).
Proof.
  intros entry Hnone Hsettings Hsettings' Hloop Hdoc. split.
  - unfold getFromDB. rewrite run_async_await. cbn [world_handler].
    rewrite Hsettings. cbn [fmap option_fmap option_map].
    by rewrite decide_True by done.
  - unfold fetchNewLyrics.
    rewrite run_async_try_finally, run_async_await. cbn [world_handler].
    rewrite Hsettings'. cbn [fmap option_fmap option_map]. cbv zeta.
    rewrite (decide_True (P := cacheStrategy settings = u "none")) by done.
    rewrite run_async_bind, Hloop, Hdoc. cbn [andb].
    rewrite run_async_ret_bind, Hdoc.
    unfold Date_now. rewrite run_async_read, run_async_update.
    rewrite decide_False by (by intros []).
    by rewrite run_async_ret_bind, run_async_ret.
Qed.

(** X13.  With [forceReload] the memory cache, the persistent cache and
    the local lyrics are not consulted, whatever they hold: the call
    goes to the registry at once, where it joins the fetch in flight
    for the song if there is one, and otherwise starts a fetch and
    registers it. *)
Theorem getOrFetch_forced_goes_to_the_registry songInfo s :
  let cacheKey := createCacheKey numberToString songInfo in
  truthy_string (title songInfo) = true →
  truthy_string (artist songInfo) = true →
  (∀ fetchPromise,
     ongoing s !! cacheKey = Some fetchPromise →
     getOrFetch' (Some songInfo) true s
     = (Suspended (awaitPromise fetchPromise) (λ r s', (Done r, s')), s))
  ∧ (ongoing s !! cacheKey = None →
     ∃ s',
       getOrFetch' (Some songInfo) true s
       = (Suspended (awaitPromise (next_promise s)) (λ r s', (Done r, s')), s')
       ∧ started s'
         = started s
           ++ [(next_promise s, callFetchNewLyrics songInfo cacheKey true)]
       ∧ ongoing s' = <[cacheKey := next_promise s]> (ongoing s)
       ∧ cache s' = cache s).
Proof.
  intros cacheKey Htitle Hartist.
  assert (getOrFetch' (Some songInfo) true s
          = join_or_fetch songInfo cacheKey true s) as ->.
  { unfold LyricsService_getOrFetch.
    rewrite validateSongInfo_valid by done. done. }
  unfold join_or_fetch, mbind, Async_bind, read. cbn [bind_task]. split.
  - by intros fetchPromise ->.
  - intros ->. eexists. split; [reflexivity|]. done.
Qed.


End LyricsCache.




Lemma strategy_none_bypasses_the_persistent_cache_witness :
  run_async (world_handler none_external)
    (getFromDB sample_CACHE_EXPIRY sample_key) world_with_record
    (empty_state 6000)
  = Some (Ok None, world_with_record, empty_state 6000).
Proof.
  apply (strategy_none_bypasses_the_persistent_cache sample_CACHE_EXPIRY
           sample_PROVIDERS sample_isEmptyLyrics sample_parseKPoeFormat
           none_external sample_song sample_key false world_with_record
           (count_provider_request world_with_record) (empty_state 6000)
           none_settings sample_doc); reflexivity.
Defined.

Lemma getOrFetch_forced_goes_to_the_registry_witness :
  LyricsService_getOrFetch sample_CACHE_EXPIRY sample_parseKPoeFormat
    sample_numberToString (Some sample_song) true (shared fetch_in_flight)
  = (Suspended (awaitPromise 0) (λ r s', (Done r, s')),
     shared fetch_in_flight).
Proof.
  apply (getOrFetch_forced_goes_to_the_registry sample_CACHE_EXPIRY
           sample_parseKPoeFormat sample_numberToString sample_song
           (shared fetch_in_flight)); reflexivity.
Defined.


(* ================================================================== *)
(** * Further properties of the translation service *)
(* ================================================================== *)

Section TranslationCache.

Variable CACHE_EXPIRY : gmap jsstring Z.
Variable isEmptyLyrics : option LyricsData → bool.
Variable parseKPoeFormat : JValue → LyricsData.
Variable numberToString : Qc → jsstring.
Variable toLowerCase : jsstring → jsstring.
Variable external : ∀ X, Op X → option (Result X).

Local Abbreviation handler := (world_handler external).

Lemma getOrFetch_memory_hit songInfo s v :
  truthy_string (title songInfo) = true →
  truthy_string (artist songInfo) = true →
  cache s !! createCacheKey numberToString songInfo = Some v →
  LyricsService_getOrFetch CACHE_EXPIRY parseKPoeFormat numberToString
    (Some songInfo) false s
  = (Done (Ok v), s).
Proof.
  intros Htitle Hartist Hcache. unfold LyricsService_getOrFetch.
  rewrite validateSongInfo_valid by done.
  unfold mbind, Async_bind, lift, read. cbn [bind_task]. by rewrite Hcache.
Qed.

(** X15.  A translation found in the persistent cache for the current
    version of the lyrics is returned marked as served from 'db', and
    is copied into the memory cache; the next lookup for that version
    is served from memory, whatever the persistent cache then holds,
    marked as served from 'memory'. *)
Theorem getCached_persistent_hit_warms_the_memory_cache
    key originalVersion w s dbCached :
  let served :=
    annotateCacheHit (tr_translatedLyrics dbCached) (u "db") (now s) in
  memory_misses s key originalVersion →
  translationsDB w !! key = Some dbCached →
  tr_originalVersion dbCached = originalVersion →
  ∃ s1,
    run_async handler (getCached key originalVersion) w s
    = Some (Ok (Some served), w, s1)
    ∧ cache s1 !! key
      = Some (translationRecord
                {| translatedLyrics := served;
                   record_originalVersion := originalVersion |})
    ∧ ∀ w' s2,
        cache s2 !! key = cache s1 !! key →
        ∃ s3,
          run_async handler (getCached key originalVersion) w' s2
          = Some (Ok (Some (annotateCacheHit served (u "memory") (now s2))),
                  w', s3).
Proof.
  intros served Hmiss Hdb Hversion.
  rewrite getCached_memory_miss by done. rewrite Hdb.
  rewrite decide_True by done. eexists. split; [reflexivity|].
  rewrite Hversion. split.
  - cbn [cache setCached]. by rewrite lookup_insert_eq.
  - intros w' s2 Hsame. cbn [cache setCached] in Hsame.
    rewrite lookup_insert_eq in Hsame.
    pose proof (getCached_memory_hit external key w' s2 _ Hsame) as Hhit.
    cbn [record_originalVersion translatedLyrics] in Hhit.
    rewrite Hhit. eauto.
Qed.

(** X16.  A translation that [performAndCacheTranslation] has made is
    kept under its key, with the version of the lyrics it was made
    from, both in the memory cache and in the persistent cache; a
    lookup for that version then returns it from memory, and from the
    persistent cache once the memory cache has lost it. *)
Theorem performAndCacheTranslation_then_getCached
    translatedKey original originalVersion action targetLang w s
    settings translationResult :
  let resolvedTargetLang :=
    if overrideTranslateTarget settings
       && negb (bool_decide (customTranslateTarget settings = []))
    then customTranslateTarget settings else targetLang in
  external _ getTranslationSettings = Some (Ok settings) →
  external _ (performTranslation (Some original) action resolvedTargetLang)
  = Some (Ok translationResult) →
  ∃ translated w1 s1,
    run_async handler
      (performAndCacheTranslation toLowerCase translatedKey (Some original)
         originalVersion action targetLang) w s
    = Some (Ok (lyricsDocument translated), w1, s1)
    ∧ data translated
      = default (data original) (result_data translationResult)
    ∧ cache s1 !! translatedKey
      = Some (translationRecord
                {| translatedLyrics := translated;
                   record_originalVersion := originalVersion |})
    ∧ translationsDB w1 !! translatedKey
      = Some {| tr_translatedLyrics := translated;
                tr_originalVersion := originalVersion |}
    ∧ (∃ s2,
         run_async handler (getCached translatedKey originalVersion) w1 s1
         = Some (Ok (Some (annotateCacheHit translated (u "memory") (now s1))),
                 w1, s2))
    ∧ (∀ s', cache s' !! translatedKey = None →
         ∃ s2,
           run_async handler (getCached translatedKey originalVersion) w1 s'
           = Some (Ok (Some (annotateCacheHit translated (u "db") (now s'))),
                   w1, s2)).
Proof.
  intros resolvedTargetLang Hsettings Htranslate.
  unfold performAndCacheTranslation.
  rewrite run_async_await. cbn [world_handler]. rewrite Hsettings.
  cbn [fmap option_fmap option_map]. cbv zeta. fold resolvedTargetLang.
  rewrite run_async_await. cbn [world_handler]. rewrite Htranslate.
  cbn [fmap option_fmap option_map].
  assert (match result_data translationResult, Some original with
          | Some d, _ => mret d
          | None, Some original => mret (data original)
          | None, None =>
              throw (TypeError (u "Cannot read properties of null or undefined"))
          end
          = (mret (default (data original) (result_data translationResult))
             : Async (list JValue))) as ->.
  { by destruct (result_data translationResult). }
  rewrite run_async_ret_bind. unfold Date_now.
  rewrite run_async_read, run_async_update, run_async_await.
  cbn [world_handler]. rewrite run_async_ret.
  eexists _, _, _. split; [reflexivity|].
  split; [done|]. split; [|split; [|split]].
  - cbn [cache setCached]. by rewrite lookup_insert_eq.
  - cbn [translationsDB with_translationsDB]. by rewrite lookup_insert_eq.
  - match goal with
    | |- context [getCached _ _] =>
        erewrite (getCached_memory_hit external translatedKey _ _
                    {| translatedLyrics := _;
                       record_originalVersion := originalVersion |})
    end; [eauto|].
    cbn [cache setCached]. by rewrite lookup_insert_eq.
  - intros s' Hmiss.
    rewrite getCached_memory_miss
      by (unfold memory_misses; by rewrite Hmiss).
    cbn [translationsDB with_translationsDB]. rewrite lookup_insert_eq.
    cbn [tr_originalVersion]. rewrite decide_True by done. eauto.
Qed.

Local Abbreviation translate_getOrFetch :=
  (TranslationService_getOrFetch CACHE_EXPIRY isEmptyLyrics parseKPoeFormat
     numberToString).

(** X17.  When the lyrics to translate are in the memory cache:
    - if they are empty, [TranslationService.getOrFetch] throws
      'Original lyrics not found or empty' at once and changes nothing;
    - if the memory cache also holds a translation made from their
      version, that translation is returned at once, marked as served
      from 'memory', with no operation on any store or provider. *)
Theorem translation_of_cached_lyrics songInfo action targetLang s base :
  let cacheKey := createCacheKey numberToString songInfo in
  let translatedKey :=
    cacheKey ++ u " - " ++ action ++ u " - " ++ targetLang in
  truthy_string (title songInfo) = true →
  truthy_string (artist songInfo) = true →
  cache s !! cacheKey = Some (lyricsEntry base) →
  (isEmptyLyrics (Some (lyrics base)) = true →
   TranslationService_getOrFetch CACHE_EXPIRY isEmptyLyrics parseKPoeFormat
     numberToString (Some songInfo) action targetLang false s
   = (Done (Throw (Error (u "Original lyrics not found or empty"))), s))
  ∧ (∀ cached,
       isEmptyLyrics (Some (lyrics base)) = false →
       cache s !! translatedKey
       = Some (translationRecord
                 {| translatedLyrics := cached;
                    record_originalVersion := version base |}) →
       ∃ s',
         TranslationService_getOrFetch CACHE_EXPIRY isEmptyLyrics
           parseKPoeFormat numberToString (Some songInfo) action targetLang
           false s
         = (Done (Ok (lyricsDocument
                        (annotateCacheHit cached (u "memory") (now s)))), s')
         ∧ ongoing s' = ongoing s ∧ started s' = started s).
Proof.
  intros cacheKey translatedKey Htitle Hartist Hbase.
  pose proof (getOrFetch_memory_hit songInfo s _ Htitle Hartist Hbase) as Hhit.
  split.
  - intros Hempty.
    unfold TranslationService_getOrFetch, TranslationService_createCacheKey.
    unfold mbind at 1. unfold Async_bind, lift. cbn [bind_task].
    unfold mbind at 1. unfold Async_bind. rewrite Hhit. cbn [bind_task].
    cbv beta iota zeta.
    by destruct (isEmptyLyrics (Some (lyrics base))).
  - intros cached Hfull Hcached.
    unfold TranslationService_getOrFetch, TranslationService_createCacheKey.
    unfold mbind at 1. unfold Async_bind, lift. cbn [bind_task].
    unfold mbind at 1. unfold Async_bind. rewrite Hhit. cbn [bind_task].
    cbv beta iota zeta. fold cacheKey. fold translatedKey.
    destruct (isEmptyLyrics (Some (lyrics base))); [done|]. cbn [negb].
    unfold getCached.
    unfold mbind, Async_bind, read, Date_now, update, mret, Async_ret.
    cbn [bind_task]. cbv beta. rewrite Hcached. cbn [record_originalVersion].
    rewrite decide_True by done. cbn [bind_task translatedLyrics].
    eexists. split; [reflexivity|]. done.
Qed.

(** X18.  A call of [TranslationService.getOrFetch] that finds the
    lyrics in memory and no translation of their version in either
    cache goes to the registry: if a translation is registered under
    the key it waits for it and starts nothing; otherwise it starts
    exactly one translation, registers its promise, waits for it, and
    removes the registry entry when the promise settles, with a result
    or with an error, passing that outcome on. *)
Theorem translation_calls_register_and_release
    songInfo action targetLang w s base :
  let cacheKey := createCacheKey numberToString songInfo in
  let translatedKey :=
    cacheKey ++ u " - " ++ action ++ u " - " ++ targetLang in
  truthy_string (title songInfo) = true →
  truthy_string (artist songInfo) = true →
  cache s !! cacheKey = Some (lyricsEntry base) →
  isEmptyLyrics (Some (lyrics base)) = false →
  memory_misses s translatedKey (version base) →
  translationsDB w !! translatedKey = None →
  (∀ promise,
     ongoing s !! translatedKey = Some promise →
     settled w !! promise = None →
     run_async_until_blocked handler
       (TranslationService_getOrFetch CACHE_EXPIRY isEmptyLyrics
          parseKPoeFormat numberToString (Some songInfo) action targetLang
          false) w s
     = (Suspended (awaitPromise promise) (λ r s', (Done r, s')), w, s))
  ∧ (ongoing s !! translatedKey = None →
     settled w !! next_promise s = None →
     ∃ k s',
       run_async_until_blocked handler
         (TranslationService_getOrFetch CACHE_EXPIRY isEmptyLyrics
            parseKPoeFormat numberToString (Some songInfo) action targetLang
            false) w s
       = (Suspended (awaitPromise (next_promise s)) k, w, s')
       ∧ started s'
         = started s
           ++ [(next_promise s,
                callPerformAndCacheTranslation translatedKey
                  (Some (lyrics base)) (version base) action targetLang)]
       ∧ ongoing s' = <[translatedKey := next_promise s]> (ongoing s)
       ∧ ∀ r s'', k r s'' = (Done r, deleteOngoingFetch translatedKey s'')).
Proof.
  intros cacheKey translatedKey Htitle Hartist Hbase Hfull Hmiss Hdb.
  pose proof (getOrFetch_memory_hit songInfo s _ Htitle Hartist Hbase) as Hhit.
  assert (run_async handler
            (LyricsService_getOrFetch CACHE_EXPIRY parseKPoeFormat
               numberToString (Some songInfo) false) w s
          = Some (Ok (lyricsEntry base), w, s)) as Hrun.
  { unfold run_async. by rewrite Hhit. }
  assert (run_async handler (getCached translatedKey (version base)) w s
          = Some (Ok None, w, s)) as Hcached.
  { rewrite getCached_memory_miss by done. by rewrite Hdb. }
  assert (run_async_until_blocked handler
              (TranslationService_getOrFetch CACHE_EXPIRY isEmptyLyrics
                 parseKPoeFormat numberToString (Some songInfo) action
                 targetLang false) w s
            = run_async_until_blocked handler
              (match ongoing s !! translatedKey with
               | Some promise => await (awaitPromise promise)
               | None =>
                   translationPromise ←
                     call_async
                       (callPerformAndCacheTranslation translatedKey
                          (Some (lyrics base)) (version base) action
                          targetLang);
                   _ ← update (setOngoingFetch translatedKey translationPromise);
                   try_finally (await (awaitPromise translationPromise))
                     (deleteOngoingFetch translatedKey)
               end) w s) as Hreach.
  { unfold TranslationService_getOrFetch, TranslationService_createCacheKey.
    fold cacheKey. fold translatedKey.
    change (lift (Ok translatedKey)) with (read (λ _ : State, translatedKey)).
    rewrite run_async_until_blocked_read.
    erewrite run_async_until_blocked_bind by exact Hrun.
    cbv beta iota zeta. rewrite Hfull. cbn [negb].
    erewrite run_async_until_blocked_bind by exact Hcached.
    cbv beta iota. by rewrite run_async_until_blocked_read. }
  split.
  - intros promise Hongoing Hsettled.
    rewrite Hreach, Hongoing.
    unfold run_async_until_blocked, await. cbn. by rewrite Hsettled.
  - intros Hongoing Hsettled.
    eexists _, _. split; [|split; [|split]].
    + rewrite Hreach, Hongoing.
      unfold run_async_until_blocked, mbind, Async_bind, call_async, update,
        try_finally, await.
      cbn. rewrite Hsettled. reflexivity.
    + done.
    + done.
    + done.
Qed.

End TranslationCache.

(** X19.  Marking a cached translation as served sets exactly three
    properties of its translation metadata ([cached] to true,
    [cacheSource] to the cache it came from, [lastServedAt] to the
    time); every other metadata property and the rest of the document
    are as they were, and the marks of an earlier serving are
    overwritten, not accumulated. *)
Theorem annotateCacheHit_marks_the_serving translatedLyrics cacheSource now :
  let served := annotateCacheHit translatedLyrics cacheSource now in
  let meta := default [] (translationMeta served) in
  data served = data translatedLyrics
  ∧ metadata served = metadata translatedLyrics
  ∧ other_properties served = other_properties translatedLyrics
  ∧ is_Some (translationMeta served)
  ∧ get_field meta (u "cached") = JBool true
  ∧ get_field meta (u "cacheSource") = JStr cacheSource
  ∧ get_field meta (u "lastServedAt") = JNum (Qc_of_Z now)
  ∧ (∀ k, k ≠ u "cached" → k ≠ u "cacheSource" → k ≠ u "lastServedAt" →
          get_field meta k
          = get_field (default [] (translationMeta translatedLyrics)) k)
  ∧ (∀ earlierSource earlier k,
       get_field
         (default []
            (translationMeta
               (annotateCacheHit
                  (annotateCacheHit translatedLyrics earlierSource earlier)
                  cacheSource now))) k
       = get_field meta k).
Proof.
  intros served meta. unfold served, meta, annotateCacheHit. simpl.
  assert (u "cached" ≠ u "cacheSource") as H12 by by vm_compute.
  assert (u "cached" ≠ u "lastServedAt") as H13 by by vm_compute.
  assert (u "cacheSource" ≠ u "lastServedAt") as H23 by by vm_compute.
  repeat split; try done.
  - by rewrite !get_set_field_ne, get_set_field by done.
  - by rewrite get_set_field_ne, get_set_field by done.
  - by rewrite get_set_field.
  - intros k H1 H2 H3. by rewrite !get_set_field_ne by done.
  - intros earlierSource earlier k.
    set (fs := default [] (translationMeta translatedLyrics)).
    destruct (decide (k = u "lastServedAt")) as [->|H3];
      [by rewrite !get_set_field|].
    rewrite !(get_set_field_ne _ (u "lastServedAt")) by done.
    destruct (decide (k = u "cacheSource")) as [->|H2];
      [by rewrite !get_set_field|].
    rewrite !(get_set_field_ne _ (u "cacheSource")) by done.
    destruct (decide (k = u "cached")) as [->|H1];
      [by rewrite !get_set_field|].
    by rewrite !get_set_field_ne by done.
Qed.

Lemma annotateCacheHit_marks_the_serving_witness :
  get_field
    (default []
       (translationMeta (annotateCacheHit translated_doc (u "db") 7)))
    (u "provider")
  = JUndefined.
Proof.
  destruct (annotateCacheHit_marks_the_serving translated_doc (u "db") 7)
    as (_ & _ & _ & _ & _ & _ & _ & Hframe & _).
  rewrite Hframe; [reflexivity|by vm_compute..].
Defined.

Section LanguageCode.

Variable toLowerCase : jsstring → jsstring.



End LanguageCode.


Lemma getCached_persistent_hit_warms_the_memory_cache_witness :
  ∃ s1,
    run_async (world_handler sample_external)
      (getCached translation_key (versionNumber 5000))
      world_with_stale_translation (empty_state 9000)
    = Some (Ok (Some (annotateCacheHit translated_doc (u "db") 9000)),
            world_with_stale_translation, s1).
Proof.
  destruct (getCached_persistent_hit_warms_the_memory_cache sample_external
              translation_key (versionNumber 5000)
              world_with_stale_translation (empty_state 9000)
              {| tr_translatedLyrics := translated_doc;
                 tr_originalVersion := versionNumber 5000 |})
    as (s1 & Hrun & _); [by vm_compute|reflexivity|reflexivity|].
  by exists s1.
Defined.

Lemma performAndCacheTranslation_then_getCached_witness :
  ∃ translated w1 s1,
    run_async (world_handler translating_external)
      (performAndCacheTranslation id translation_key (Some sample_doc)
         (versionNumber 1000) (u "translate") (u "en"))
      empty_world (empty_state 3000)
    = Some (Ok (lyricsDocument translated), w1, s1)
    ∧ data translated = data translated_doc.
Proof.
  destruct (performAndCacheTranslation_then_getCached id
              translating_external translation_key sample_doc
              (versionNumber 1000) (u "translate") (u "en") empty_world
              (empty_state 3000)
              {| overrideTranslateTarget := false;
                 customTranslateTarget := [] |}
              {| result_data := Some (data translated_doc);
                 result_meta := None |})
    as (translated & w1 & s1 & Hrun & Hdata & _); [reflexivity..|].
  by exists translated, w1, s1.
Defined.

Lemma translation_of_cached_lyrics_witness :
  TranslationService_getOrFetch sample_CACHE_EXPIRY sample_isEmptyLyrics
    sample_parseKPoeFormat sample_numberToString (Some sample_song)
    (u "translate") (u "en") false state_with_empty_lyrics
  = (Done (Throw (Error (u "Original lyrics not found or empty"))),
     state_with_empty_lyrics).
Proof.
  apply (translation_of_cached_lyrics sample_CACHE_EXPIRY
           sample_isEmptyLyrics sample_parseKPoeFormat sample_numberToString
           sample_song (u "translate") (u "en") state_with_empty_lyrics
           {| lyrics := empty_doc; version := versionNumber 1000 |});
    reflexivity.
Defined.

Lemma translation_calls_register_and_release_witness :
  ∃ k s',
    run_async_until_blocked (world_handler sample_external)
      (TranslationService_getOrFetch sample_CACHE_EXPIRY sample_isEmptyLyrics
         sample_parseKPoeFormat sample_numberToString (Some sample_song)
         (u "translate") (u "en") false)
      empty_world state_with_lyrics
    = (Suspended (awaitPromise 0) k, empty_world, s')
    ∧ ongoing s' !! translation_key = Some 0.
Proof.
  destruct (translation_calls_register_and_release sample_CACHE_EXPIRY
              sample_isEmptyLyrics sample_parseKPoeFormat
              sample_numberToString sample_external sample_song
              (u "translate") (u "en") empty_world state_with_lyrics
              {| lyrics := with_fetchedAt sample_doc 1000;
                 version := versionNumber 1000 |})
    as [_ Hstart]; [first [reflexivity | by vm_compute]..|].
  destruct Hstart as (k & s' & Hrun & _ & Hongoing & _); [reflexivity..|].
  exists k, s'. split; [exact Hrun|].
  rewrite Hongoing. apply lookup_insert_eq.
Defined.

(* ================================================================== *)
(** * Selective fixes and the line count *)
(* ================================================================== *)

Section FixAndCount.

Variable normalizeText : JValue → Result jsstring.
Variable levenshteinDistance : jsstring → jsstring → nat.
Variable numberToString : Qc → jsstring.
Variable percentToFixed1 : nat → nat → jsstring.
Variable merge_into_non_array : JValue → JValue → Result JValue.

(** X21.  Merging fixed lines never changes the number of lines: when
    the stored response has a line count other than the request's,
    whatever fixed lines are merged into it, the merged response is
    rejected by [validate] with the same single line-count error. *)
Theorem selective_fix_cannot_repair_the_line_count
    originalLyricsForApi lastValidResponse lyrics fixes :
  prop lastValidResponse (u "romanized_lyrics") = Ok (JArr lyrics) →
  Forall readable fixes →
  length lyrics ≠ length originalLyricsForApi →
  ∃ merged,
    mergeSelectiveFixes merge_into_non_array lastValidResponse (JArr fixes)
    = Ok merged
    ∧ validate normalizeText levenshteinDistance numberToString
        percentToFixed1 originalLyricsForApi merged
      = Ok {| isValid := false;
              errors := [u "Line count mismatch: response has "
                         ++ dec (length lyrics) ++ u ", expected "
                         ++ dec (length originalLyricsForApi)];
              detailedErrors := [] |}.
Proof.
  intros Hrl Hfixes Hcount.
  destruct (mergeSelectiveFixes_array merge_into_non_array lastValidResponse
              lyrics fixes Hrl Hfixes) as (merged & -> & Hlen & _).
  eexists. split; [reflexivity|].
  unfold validate. cbn [truthy negb prop]. rewrite get_set_field.
  cbn [mbind Result_bind]. rewrite Hlen.
  by rewrite decide_True by done.
Qed.

End FixAndCount.

Lemma selective_fix_cannot_repair_the_line_count_witness :
  ∃ merged vr,
    mergeSelectiveFixes sample_merge_into_non_array stored_response
      (JArr sample_fixes) = Ok merged
    ∧ validate sample_normalizeText levenshtein sample_numberToString
        sample_percentToFixed1 [plain_line kon 0] merged
      = Ok vr
    ∧ isValid vr = false.
Proof.
  destruct (selective_fix_cannot_repair_the_line_count sample_normalizeText
              levenshtein sample_numberToString sample_percentToFixed1
              sample_merge_into_non_array [plain_line kon 0] stored_response
              [response_line (u "kon") 0; response_line (u "niichi") 5]
              sample_fixes) as (merged & Hmerge & Hvalidate).
  - reflexivity.
  - repeat constructor; by eexists.
  - simpl. lia.
  - eexists merged, _. split; [done|]. split; [exact Hvalidate|done].
Defined.

(* ================================================================== *)
(** * Translated texts and the display mode *)
(* ================================================================== *)

Lemma map_indexed_from_spec {A B} (f : nat → A → Result B) i l out :
  map_indexed_from f i l = Ok out →
  length out = length l
  ∧ ∀ k x, l !! k = Some x → ∃ y, out !! k = Some y ∧ f (i + k) x = Ok y.
Proof.
  revert i out. induction l as [|x l IH]; intros i out; simpl.
  - intros [= <-]. split; [done|]. by intros k x.
  - destruct (f i x) as [y|e] eqn:Hy; cbn [mbind Result_bind]; [|done].
    destruct (map_indexed_from f (S i) l) as [out'|e] eqn:Hrest;
      cbn [mbind Result_bind]; [|done].
    intros [= <-]. destruct (IH _ _ Hrest) as [Hlen Hall].
    split; [simpl; lia|]. intros [|k] x' Hx'; simpl in *.
    + injection Hx' as <-. exists y. by rewrite Nat.add_0_r.
    + destruct (Hall k x' Hx') as (y' & Hy' & Hf). exists y'.
      split; [done|]. by rewrite Nat.add_succ_r.
Qed.

Lemma map_indexed_from_total {A B} (f : nat → A → Result B) i l :
  (∀ k x, l !! k = Some x → ∃ y, f (i + k) x = Ok y) →
  ∃ out, map_indexed_from f i l = Ok out.
Proof.
  revert i. induction l as [|x l IH]; intros i Hall; simpl; [eauto|].
  destruct (Hall 0 x eq_refl) as [y Hy]. rewrite Nat.add_0_r in Hy.
  rewrite Hy. cbn [mbind Result_bind].
  destruct (IH (S i)) as [out ->]; [|cbn; eauto].
  intros k x' Hx'. specialize (Hall (S k) x' Hx').
  by rewrite Nat.add_succ_r in Hall.
Qed.

(** X22.  [mergeTranslatedTexts] keeps every line of the lyrics, in
    order, with all its properties, and gives each a [translatedText]:
    the translated text at the same index when there is a truthy one,
    and the line's own text otherwise.  It throws only when a line is
    [null] or [undefined] and has no translated text. *)
Theorem mergeTranslatedTexts_keeps_every_line originalLyrics translatedTexts :
  (Forall (λ line, line ≠ JNull ∧ line ≠ JUndefined) (data originalLyrics) →
   ∃ merged, mergeTranslatedTexts originalLyrics translatedTexts = Ok merged)
  ∧ ∀ merged,
      mergeTranslatedTexts originalLyrics translatedTexts = Ok merged →
      length merged = length (data originalLyrics)
      ∧ ∀ index line,
          data originalLyrics !! index = Some line →
          ∃ fields,
            merged !! index = Some (JObj fields)
            ∧ (let translated :=
                 default JUndefined (translatedTexts !! index) in
               if truthy translated
               then get_field fields (u "translatedText") = translated
               else prop line (u "text")
                    = Ok (get_field fields (u "translatedText")))
            ∧ ∀ k, k ≠ u "translatedText" →
                   get_field fields k = get_field (spread line) k.
Proof.
  unfold mergeTranslatedTexts. split.
  - intros Hlines. apply map_indexed_from_total. intros k line Hline.
    eapply Forall_lookup_1 in Hlines as [Hnull Hundef]; [|done].
    unfold translated_line. cbv zeta. simpl (0 + k).
    destruct (truthy (default JUndefined (translatedTexts !! k)));
      cbn [mbind Result_bind]; [eauto|].
    destruct line; try done; cbn; eauto.
  - intros merged [Hlen Hall]%map_indexed_from_spec. split; [done|].
    intros index line Hline.
    destruct (Hall index line Hline) as (y & Hy & Hf).
    unfold translated_line in Hf. cbv zeta in Hf. simpl (0 + index) in Hf.
    destruct (truthy (default JUndefined (translatedTexts !! index)))
      eqn:Htruthy; cbn [mbind Result_bind] in Hf.
    + injection Hf as <-. eexists. split; [done|].
      split; [apply get_set_field|].
      intros k Hk. by rewrite get_set_field_ne.
    + destruct (prop line (u "text")) as [t|e] eqn:Ht;
        cbn [mbind Result_bind] in Hf; [|done].
      injection Hf as <-. eexists. split; [done|].
      split; [by rewrite get_set_field|].
      intros k Hk. by rewrite get_set_field_ne.
Qed.

Lemma mergeTranslatedTexts_keeps_every_line_witness :
  ∃ merged,
    mergeTranslatedTexts sample_doc [] = Ok merged ∧ length merged = 1.
Proof.
  destruct (mergeTranslatedTexts_keeps_every_line sample_doc [])
    as [Htotal Hshape].
  destruct Htotal as [merged Hmerged].
  { repeat constructor; done. }
  exists merged. split; [done|]. by apply Hshape.
Defined.

(** X23.  The display mode that is finally used is one of 'both',
    'translate', 'romanize' and 'none'; it never needs data that is
    missing, and never shows more than was asked for; when the data
    for the intended mode is there, it is the intended mode, and
    'both' falls back to the one part that is available. *)
Theorem determineFinalDisplayMode_shows_what_is_available
    intendedMode hasTranslation hasRomanization :
  let mode :=
    determineFinalDisplayMode intendedMode hasTranslation hasRomanization in
  mode ∈ [u "both"; u "translate"; u "romanize"; u "none"]
  ∧ (mode = u "both" →
     intendedMode = u "both"
     ∧ hasTranslation = true ∧ hasRomanization = true)
  ∧ (mode = u "translate" →
     hasTranslation = true
     ∧ (intendedMode = u "translate"
        ∨ intendedMode = u "both" ∧ hasRomanization = false))
  ∧ (mode = u "romanize" →
     hasRomanization = true
     ∧ (intendedMode = u "romanize"
        ∨ intendedMode = u "both" ∧ hasTranslation = false))
  ∧ (hasTranslation = true → hasRomanization = true →
     intendedMode ∈ [u "both"; u "translate"; u "romanize"; u "none"] →
     mode = intendedMode).
Proof.
  assert (Hbt : u "both" ≠ u "translate") by by vm_compute.
  assert (Hbr : u "both" ≠ u "romanize") by by vm_compute.
  assert (Hbn : u "both" ≠ u "none") by by vm_compute.
  assert (Htr : u "translate" ≠ u "romanize") by by vm_compute.
  assert (Htn : u "translate" ≠ u "none") by by vm_compute.
  assert (Hrn : u "romanize" ≠ u "none") by by vm_compute.
  intros mode. unfold mode, determineFinalDisplayMode. cbv zeta.
  rewrite !elem_of_cons, !elem_of_nil.
  repeat case_bool_decide; subst;
    destruct hasTranslation, hasRomanization; cbn [andb];
    intuition congruence.
Qed.

Lemma determineFinalDisplayMode_shows_what_is_available_witness :
  determineFinalDisplayMode (u "romanize") true true = u "romanize".
Proof.
  apply (determineFinalDisplayMode_shows_what_is_available (u "romanize")
           true true); [done|done|set_solver].
Defined.

(* ================================================================== *)
(** * The provider of a translation *)
(* ================================================================== *)

Lemma mapM_result_spec {A B} (f : A → Result B) l out :
  mapM_result f l = Ok out →
  length out = length l
  ∧ ∀ k x, l !! k = Some x → ∃ y, out !! k = Some y ∧ f x = Ok y.
Proof.
  revert out. induction l as [|x l IH]; intros out; simpl.
  - intros [= <-]. split; [done|]. by intros k x.
  - destruct (f x) as [y|e] eqn:Hy; cbn [mbind Result_bind]; [|done].
    destruct (mapM_result f l) as [out'|e] eqn:Hrest;
      cbn [mbind Result_bind]; [|done].
    intros [= <-]. destruct (IH _ eq_refl) as [Hlen Hall].
    split; [simpl; lia|]. intros [|k] x' Hx'; simpl in *.
    + injection Hx' as <-. by exists y.
    + by apply Hall.
Qed.

Lemma mapM_result_total {A B} (f : A → Result B) l :
  Forall (λ x, ∃ y, f x = Ok y) l → ∃ out, mapM_result f l = Ok out.
Proof.
  induction 1 as [|x l [y Hy] _ [out IH]]; simpl; [eauto|].
  rewrite Hy, IH. cbn. eauto.
Qed.

Section TranslateFacts.

Variable toLowerCase : jsstring → jsstring.
Variable PROVIDERS_GEMINI PROVIDERS_GOOGLE : jsstring.
Variable detectSourceLanguage : LyricsData → Result (option jsstring).

(** X24.  When the detected language of the lyrics is the normalized
    target language, [translate] asks no translation provider: its
    result is the same whatever Gemini and Google would answer.  Every
    line comes back with its own text as [translatedText] and its other
    properties unchanged, and the metadata names the provider
    'pass-through' with the reason 'source-matches-target'. *)
Theorem translate_same_language_is_a_pass_through
    gemini gemini' google google' originalLyrics targetLang settings
    sourceLang :
  detectSourceLanguage originalLyrics = Ok (Some sourceLang) →
  sourceLang ≠ [] →
  normalizeLanguageCode toLowerCase targetLang = sourceLang →
  Forall (λ line, line ≠ JNull ∧ line ≠ JUndefined) (data originalLyrics) →
  ∃ lines meta,
    TranslationService_translate toLowerCase PROVIDERS_GEMINI
      PROVIDERS_GOOGLE detectSourceLanguage gemini google originalLyrics
      targetLang settings
    = Ok {| result_data := Some lines; result_meta := Some meta |}
    ∧ TranslationService_translate toLowerCase PROVIDERS_GEMINI
        PROVIDERS_GOOGLE detectSourceLanguage gemini' google' originalLyrics
        targetLang settings
      = Ok {| result_data := Some lines; result_meta := Some meta |}
    ∧ length lines = length (data originalLyrics)
    ∧ (∀ index line,
         data originalLyrics !! index = Some line →
         ∃ fields,
           lines !! index = Some (JObj fields)
           ∧ prop line (u "text")
             = Ok (get_field fields (u "translatedText"))
           ∧ ∀ k, k ≠ u "translatedText" →
                  get_field fields k = get_field (spread line) k)
    ∧ get_field meta (u "provider") = JStr (u "pass-through")
    ∧ get_field meta (u "skippedReason") = JStr (u "source-matches-target")
    ∧ get_field meta (u "sourceLang") = JStr sourceLang
    ∧ get_field meta (u "fallbackUsed") = JBool false
    ∧ get_field meta (u "failedLines") = JArr [].
Proof.
  intros Hdetect Hsource Htarget Hlines.
  destruct (mapM_result_total own_text_line (data originalLyrics))
    as [lines Hmap].
  { eapply Forall_impl; [exact Hlines|]. intros line [Hnull Hundef].
    unfold own_text_line. destruct line; try done; cbn; eauto. }
  assert (Htruthy : truthy_string (Some sourceLang) = true)
    by by destruct sourceLang.
  eexists lines, _. unfold TranslationService_translate.
  rewrite Hdetect. cbn [mbind Result_bind]. cbv zeta.
  rewrite Htarget, Htruthy, bool_decide_eq_false_2 by done.
  rewrite bool_decide_eq_true_2 by done. cbn [andb negb].
  rewrite Hmap. cbn [mbind Result_bind].
  split; [reflexivity|]. split; [reflexivity|].
  destruct (mapM_result_spec _ _ _ Hmap) as [Hlen Hall].
  split; [done|]. split.
  - intros index line Hline. destruct (Hall _ _ Hline) as (y & Hy & Hown).
    unfold own_text_line in Hown.
    destruct (prop line (u "text")) as [t|e]; cbn [mbind Result_bind] in Hown;
      [|done].
    injection Hown as <-. eexists. split; [done|].
    split; [by rewrite get_set_field|].
    intros k Hk. by rewrite get_set_field_ne.
  - repeat split; by vm_compute.
Qed.

(** X25.  The metadata of a translation names the provider whose data
    it carries: 'pass-through' with every line's own text; Gemini with
    the merged Gemini answer, only when Gemini is selected and has a
    key; or Google with Google's data and failed lines.  [fallbackUsed]
    is true exactly when Gemini was selected and failed, so that Google
    was asked instead. *)
Theorem translate_names_the_provider_of_its_data
    gemini google originalLyrics targetLang settings result :
  let useGemini :=
    bool_decide (translationProvider settings = Some PROVIDERS_GEMINI)
    && truthy_string (geminiApiKey settings) in
  TranslationService_translate toLowerCase PROVIDERS_GEMINI PROVIDERS_GOOGLE
    detectSourceLanguage gemini google originalLyrics targetLang settings
  = Ok result →
  ∃ lines meta,
    result_data result = Some lines
    ∧ result_meta result = Some meta
    ∧ ((get_field meta (u "provider") = JStr (u "pass-through")
        ∧ get_field meta (u "fallbackUsed") = JBool false
        ∧ mapM_result own_text_line (data originalLyrics) = Ok lines)
       ∨ (get_field meta (u "provider") = JStr PROVIDERS_GEMINI
          ∧ get_field meta (u "fallbackUsed") = JBool false
          ∧ useGemini = true
          ∧ translate_with_gemini gemini originalLyrics targetLang settings
            = Ok lines)
       ∨ (∃ googleResult,
            get_field meta (u "provider") = JStr PROVIDERS_GOOGLE
            ∧ get_field meta (u "fallbackUsed") = JBool useGemini
            ∧ get_field meta (u "failedLines")
              = JArr (JNat <$> failedIndices googleResult)
            ∧ google originalLyrics targetLang = Ok googleResult
            ∧ lines = google_data googleResult
            ∧ (useGemini = true →
               ∃ error,
                 translate_with_gemini gemini originalLyrics targetLang
                   settings
                 = Throw error))).
Proof.
  intros useGemini. unfold TranslationService_translate. fold useGemini.
  destruct (detectSourceLanguage originalLyrics) as [sourceLang|e];
    cbn [mbind Result_bind]; [|done].
  cbv zeta. case_match.
  - destruct (mapM_result own_text_line (data originalLyrics)) as [lines|e];
      cbn [mbind Result_bind]; [|done].
    intros [= <-]. eexists _, _. do 2 (split; [reflexivity|]).
    left. repeat split; by vm_compute.
  - destruct useGemini eqn:Huse.
    + destruct (translate_with_gemini gemini originalLyrics targetLang
                  settings) as [lines|error] eqn:Hgemini.
      * intros [= <-]. eexists _, _. do 2 (split; [reflexivity|]).
        right; left. repeat split; by vm_compute.
      * destruct (google originalLyrics targetLang) as [googleResult|e];
          cbn [mbind Result_bind]; [|done].
        intros [= <-]. eexists _, _. do 2 (split; [reflexivity|]).
        right; right. exists googleResult.
        repeat split; eauto; by vm_compute.
    + destruct (google originalLyrics targetLang) as [googleResult|e];
        cbn [mbind Result_bind]; [|done].
      intros [= <-]. eexists _, _. do 2 (split; [reflexivity|]).
      right; right. exists googleResult.
      repeat split; try done; by vm_compute.
Qed.

(** X26.  A failure of Gemini is never passed on by [translate]: when
    [translate] fails, the error is that of the language detection, of
    reading a line's text on the pass-through path, or of Google. *)
Theorem translate_never_fails_because_of_gemini
    gemini google originalLyrics targetLang settings error :
  TranslationService_translate toLowerCase PROVIDERS_GEMINI PROVIDERS_GOOGLE
    detectSourceLanguage gemini google originalLyrics targetLang settings
  = Throw error →
  detectSourceLanguage originalLyrics = Throw error
  ∨ mapM_result own_text_line (data originalLyrics) = Throw error
  ∨ google originalLyrics targetLang = Throw error.
Proof.
  unfold TranslationService_translate.
  destruct (detectSourceLanguage originalLyrics) as [sourceLang|e];
    cbn [mbind Result_bind]; [|intros [= ->]; by left].
  cbv zeta. repeat case_match; try done;
    destruct (mapM_result own_text_line (data originalLyrics));
    destruct (google originalLyrics targetLang);
    cbn [mbind Result_bind]; try done; intros [= ->]; eauto.
Qed.

End TranslateFacts.

Lemma translate_same_language_is_a_pass_through_witness :
  ∃ lines meta,
    TranslationService_translate id (u "gemini") (u "google") detects_english
      failing_gemini failing_google sample_doc (u "en-US") gemini_settings
    = Ok {| result_data := Some lines; result_meta := Some meta |}
    ∧ get_field meta (u "provider") = JStr (u "pass-through").
Proof.
  destruct (translate_same_language_is_a_pass_through id (u "gemini")
              (u "google") detects_english failing_gemini failing_gemini
              failing_google failing_google sample_doc (u "en-US")
              gemini_settings (u "en"))
    as (lines & meta & Hrun & _ & _ & _ & Hprovider & _).
  - reflexivity.
  - by vm_compute.
  - by vm_compute.
  - repeat constructor; done.
  - by exists lines, meta.
Defined.

Lemma translate_names_the_provider_of_its_data_witness :
  ∃ result meta,
    TranslationService_translate id (u "gemini") (u "google") detects_english
      failing_gemini echoing_google sample_doc (u "ja") gemini_settings
    = Ok result
    ∧ result_meta result = Some meta
    ∧ get_field meta (u "provider") = JStr (u "google")
    ∧ get_field meta (u "fallbackUsed") = JBool true.
Proof.
  eexists _, _. split; [by vm_compute|].
  destruct (translate_names_the_provider_of_its_data id (u "gemini")
              (u "google") detects_english failing_gemini echoing_google
              sample_doc (u "ja") gemini_settings _ eq_refl)
    as (lines & meta & _ & Hmeta & _).
  split; [by vm_compute|]. split; by vm_compute.
Defined.

Lemma translate_never_fails_because_of_gemini_witness :
  TranslationService_translate id (u "gemini") (u "google") detects_english
    failing_gemini failing_google sample_doc (u "ja") gemini_settings
  = Throw (TypeError (u "Failed to fetch"))
  ∧ failing_google sample_doc (u "ja")
    = Throw (TypeError (u "Failed to fetch")).
Proof.
  split; [by vm_compute|].
  destruct (translate_never_fails_because_of_gemini id (u "gemini")
              (u "google") detects_english failing_gemini failing_google
              sample_doc (u "ja") gemini_settings
              (TypeError (u "Failed to fetch")))
    as [Hdetect|[Hline|Hgoogle]]; [by vm_compute|done|done|exact Hgoogle].
Defined.

(* ================================================================== *)
(** * The answers of the message handler *)
(* ================================================================== *)

Lemma run_catch_task {E R} (h : ∀ X, Op X → E → option (Result X * E))
    (t : Task R) (handler : JsError → Async R) e s :
  (let '(t', s') := catch_task t handler s in run h t' e s')
  = match run h t e s with
    | Some (Ok a, e', s') => Some (Ok a, e', s')
    | Some (Throw error, e', s') => run_async h (handler error) e' s'
    | None => None
    end.
Proof.
  revert t e s. fix IH 1. intros [[a|error]|X op k] e s; [done|done|].
  cbn. destruct (h X op e) as [[r e']|]; [|done].
  specialize (IH (k r s).1 e' (k r s).2).
  destruct (k r s) as [t' s']. exact IH.
Qed.

Lemma run_async_try_catch {E R}
    (h : ∀ X, Op X → E → option (Result X * E))
    (m : Async R) (handler : JsError → Async R) e s :
  run_async h (try_catch m handler) e s
  = match run_async h m e s with
    | Some (Ok a, e', s') => Some (Ok a, e', s')
    | Some (Throw error, e', s') => run_async h (handler error) e' s'
    | None => None
    end.
Proof.
  unfold run_async, try_catch. destruct (m s) as [t s'].
  apply run_catch_task.
Qed.

Section HandlerFacts.

Variable CACHE_EXPIRY : gmap jsstring Z.
Variable isEmptyLyrics : option LyricsData → bool.
Variable parseKPoeFormat : JValue → LyricsData.
Variable numberToString : Qc → jsstring.

(** X27.  [MessageHandler.fetchLyrics] always answers and never fails:
    however [LyricsService.getOrFetch] ends, the handler ends normally,
    in the same state, with one response that echoes the song info of
    the message.  The response says success and carries the lyrics of
    the entry when [getOrFetch] returned one; otherwise it says failure
    and carries the message of the error [getOrFetch] threw. *)
Theorem fetchLyrics_always_answers {E}
    (h : ∀ X, Op X → E → option (Result X * E)) message e s outcome e' s' :
  run_async h
    (LyricsService_getOrFetch CACHE_EXPIRY parseKPoeFormat numberToString
       (message_songInfo message) (message_forceReload message)) e s
  = Some (outcome, e', s') →
  ∃ response,
    run_async h
      (MessageHandler_fetchLyrics CACHE_EXPIRY parseKPoeFormat numberToString
         message) e s
    = Some (Ok response, e', s')
    ∧ response_metadata response = message_songInfo message
    ∧ match outcome with
      | Ok result =>
          success response = true
          ∧ response_error response = None
          ∧ response_lyrics response
            = match result with
              | lyricsEntry entry => Some (lyrics entry)
              | _ => None
              end
      | Throw error =>
          success response = false
          ∧ response_error response = Some (error_message error)
          ∧ response_lyrics response = None
      end.
Proof.
  intros Hrun. unfold MessageHandler_fetchLyrics.
  rewrite run_async_try_catch, run_async_bind, Hrun.
  destruct outcome as [result|error]; eexists; by rewrite ?run_async_ret.
Qed.

(** X28.  [MessageHandler.translateLyrics] always answers and never
    fails: however [TranslationService.getOrFetch] ends, the handler
    ends normally, in the same state, with one response: success with
    the translated lyrics, or failure with the message of the error. *)
Theorem translateLyrics_always_answers {E}
    (h : ∀ X, Op X → E → option (Result X * E)) message e s outcome e' s' :
  run_async h
    (TranslationService_getOrFetch CACHE_EXPIRY isEmptyLyrics parseKPoeFormat
       numberToString (message_songInfo message) (message_action message)
       (message_targetLang message) (message_forceReload message)) e s
  = Some (outcome, e', s') →
  ∃ response,
    run_async h
      (MessageHandler_translateLyrics CACHE_EXPIRY isEmptyLyrics
         parseKPoeFormat numberToString message) e s
    = Some (Ok response, e', s')
    ∧ match outcome with
      | Ok translatedLyrics =>
          success response = true
          ∧ response_error response = None
          ∧ response_translatedLyrics response = Some translatedLyrics
      | Throw error =>
          success response = false
          ∧ response_error response = Some (error_message error)
          ∧ response_translatedLyrics response = None
      end.
Proof.
  intros Hrun. unfold MessageHandler_translateLyrics.
  rewrite run_async_try_catch, run_async_bind, Hrun.
  destruct outcome as [result|error]; eexists; by rewrite ?run_async_ret.
Qed.


End HandlerFacts.

Lemma fetchLyrics_always_answers_witness :
  ∃ response,
    run_async (world_handler sample_external)
      (MessageHandler_fetchLyrics sample_CACHE_EXPIRY sample_parseKPoeFormat
         sample_numberToString
         {| message_songInfo := Some untitled_song;
            message_forceReload := false;
            message_action := u "translate";
            message_targetLang := u "en" |}) empty_world (empty_state 0)
    = Some (Ok response, empty_world, empty_state 0)
    ∧ success response = false.
Proof.
  destruct (fetchLyrics_always_answers sample_CACHE_EXPIRY
              sample_parseKPoeFormat sample_numberToString
              (world_handler sample_external)
              {| message_songInfo := Some untitled_song;
                 message_forceReload := false;
                 message_action := u "translate";
                 message_targetLang := u "en" |}
              empty_world (empty_state 0) (Throw song_info_error)
              empty_world (empty_state 0))
    as (response & Hrun & _ & Hsuccess & _); [reflexivity|].
  by exists response.
Defined.

Lemma translateLyrics_always_answers_witness :
  ∃ response,
    run_async (world_handler sample_external)
      (MessageHandler_translateLyrics sample_CACHE_EXPIRY
         sample_isEmptyLyrics sample_parseKPoeFormat sample_numberToString
         {| message_songInfo := Some untitled_song;
            message_forceReload := false;
            message_action := u "translate";
            message_targetLang := u "en" |}) empty_world (empty_state 0)
    = Some (Ok response, empty_world, empty_state 0)
    ∧ success response = false.
Proof.
  destruct (translateLyrics_always_answers sample_CACHE_EXPIRY
              sample_isEmptyLyrics sample_parseKPoeFormat
              sample_numberToString (world_handler sample_external)
              {| message_songInfo := Some untitled_song;
                 message_forceReload := false;
                 message_action := u "translate";
                 message_targetLang := u "en" |}
              empty_world (empty_state 0) (Throw song_info_error)
              empty_world (empty_state 0))
    as (response & Hrun & Hsuccess & _); [reflexivity|].
  by exists response.
Defined.

